(** * Roster state machine of the badminton sign-up bot (src/index.js)

    A shallow embedding of the roster model, the join/leave command
    parsing, the roster engine, the rendering function, the flattened CSV
    snapshot with its recovery path, and the reminder scan, followed by
    the properties of the specification that concern them.

    Conventions of the embedding:
    - a JavaScript string is the list of its UTF-16 code units ([jsstring]);
    - a JavaScript number that holds an integer is a [Z]; the numbers of
      the roster (capacities, indices, timestamps) are safe integers;
    - the registry [games] (a JS object used as a dictionary) is a
      [gmap jsstring Game]; [Object.keys] enumerates it in insertion
      order, the model in the order of [map_to_list], and no statement
      below depends on that order (the rows of the snapshot of different
      games, and the pushes of one scan to different conversations, may
      come in another order than in the program);
    - the effects of the process (replies, pushes, saves, snapshot
      writes) are recorded in order in the [trace] of the [World]; an event
      stands for the call; a push can fail, and so can the one snapshot
      write whose end a handler waits for (that of the end command): their
      outcomes are fields of the environment, every other failure is
      caught where it happens and changes nothing;
    - [Date.now()] is the field [now] of the environment of one handler
      run, and the display name that the transport returns is its field
      [profile];
    - [handleEvent] is modelled from the intent on: the sigil forms of
      join and leave are parsed from the text ([addMatch], [removeMatch]),
      the other commands start from the fields that their patterns
      extract;
    - an exception inside [handleEvent] is caught and logged there: the
      handler ends with the state it had reached;
    - a conversation id is an id of the transport; the text [__proto__],
      which an assignment to a property of a JS object does not store as
      a key, is not one, and the statement that the recovery leaves a
      registry that is not empty excludes it;
    - the loops of [sendList] run up to the capacity of a section with a
      counter that no longer moves by one beyond 2^53 in size; the
      statements about the commands that set a capacity are made for
      capacities within that range, the predicate [roster_ends]. *)

From stdpp Require Import gmap list fin_maps strings.
From Stdlib Require Import ZArith NArith Lia.

Local Open Scope N_scope.

(** ** Strings as UTF-16 code units *)

Definition char := N.
Definition jsstring := list N.

(** Decoding of the UTF-8 bytes of a Rocq literal into UTF-16 code units,
    so that the literals of the source can be written as they are. *)
Fixpoint utf16_of_bytes (bs : list N) : jsstring :=
  match bs with
  | [] => []
  | b0 :: r0 =>
    if b0 <? 128 then b0 :: utf16_of_bytes r0
    else if b0 <? 224 then
      match r0 with
      | b1 :: r1 => ((b0 mod 32) * 64 + b1 mod 64) :: utf16_of_bytes r1
      | _ => []
      end
    else if b0 <? 240 then
      match r0 with
      | b1 :: b2 :: r2 =>
        ((b0 mod 16) * 4096 + (b1 mod 64) * 64 + b2 mod 64) :: utf16_of_bytes r2
      | _ => []
      end
    else
      match r0 with
      | b1 :: b2 :: b3 :: r3 =>
        let cp := (b0 mod 8) * 262144 + (b1 mod 64) * 4096
                  + (b2 mod 64) * 64 + b3 mod 64 in
        let v := cp - 65536 in
        (55296 + v / 1024) :: (56320 + v mod 1024) :: utf16_of_bytes r3
      | _ => []
      end
  end.

Definition lit (s : string) : jsstring :=
  utf16_of_bytes (map Ascii.N_of_ascii (String.list_ascii_of_string s)).

Definition ch_quote : char := 34.
Definition ch_comma : char := 44.
Definition ch_lf : char := 10.
Definition ch_cr : char := 13.
Definition ch_plus : char := 43.
Definition ch_minus : char := 45.

(** WhiteSpace and LineTerminator of ECMAScript: what [String.prototype.trim]
    strips and what [\s] matches. *)
Definition is_ws (c : char) : bool :=
  ((9 <=? c) && (c <=? 13)) || (c =? 32) || (c =? 160) || (c =? 5760)
  || ((8192 <=? c) && (c <=? 8202)) || (c =? 8232) || (c =? 8233)
  || (c =? 8239) || (c =? 8287) || (c =? 12288) || (c =? 65279).

(** What [.] of a regular expression does not match. *)
Definition is_line_terminator (c : char) : bool :=
  (c =? 10) || (c =? 13) || (c =? 8232) || (c =? 8233).

Fixpoint trimStart (s : jsstring) : jsstring :=
  match s with
  | c :: s' => if is_ws c then trimStart s' else s
  | [] => []
  end.

Definition trimEnd (s : jsstring) : jsstring := rev (trimStart (rev s)).

Definition trim (s : jsstring) : jsstring := trimEnd (trimStart s).

(** [sep.join(parts)] *)
Fixpoint join (sep : jsstring) (parts : list jsstring) : jsstring :=
  match parts with
  | [] => []
  | [p] => p
  | p :: ps => p ++ sep ++ join sep ps
  end.

(** [haystack.includes(needle)] on strings (used for [/匿名/.test]). *)
Fixpoint is_prefix (p s : jsstring) : bool :=
  match p, s with
  | [], _ => true
  | a :: p', b :: s' => (a =? b) && is_prefix p' s'
  | _ :: _, [] => false
  end.

Fixpoint str_includes (needle s : jsstring) : bool :=
  is_prefix needle s ||
  match s with
  | [] => false
  | _ :: s' => str_includes needle s'
  end.

(** ** CSV fields: [csvEscape] and [parseCsvLine] *)

(** The test of [csvEscape]: the field holds a double quote, a comma, a
    carriage return or a line feed. *)
Definition needs_quoting (s : jsstring) : bool :=
  existsb (λ c, (c =? ch_quote) || (c =? ch_comma) || (c =? ch_cr) || (c =? ch_lf)) s.

(** The global replace of [csvEscape]: every double quote is doubled. *)
Definition double_quotes (s : jsstring) : jsstring :=
  flat_map (λ c, if c =? ch_quote then [ch_quote; ch_quote] else [c]) s.

(** [csvEscape] on a string argument (the [null]/[undefined] branch is for
    values that are not strings). *)
Definition csvEscape (s : jsstring) : jsstring :=
  if needs_quoting s then ch_quote :: double_quotes s ++ [ch_quote] else s.

(** The loop of [parseCsvLine]: [line] is what is left from index [i] on,
    [line[i + 1]] is the head of the tail, and [i++] inside the body drops
    one more code unit. *)
Fixpoint parseCsvLine_loop (line : jsstring) (current : jsstring)
    (inQuotes : bool) (result : list jsstring) : list jsstring :=
  match line with
  | [] => result ++ [current]
  | ch :: rest =>
    if inQuotes then
      if ch =? ch_quote then
        match rest with
        | ch' :: rest' =>
          if ch' =? ch_quote
          then parseCsvLine_loop rest' (current ++ [ch_quote]) true result
          else parseCsvLine_loop rest current false result
        | [] => parseCsvLine_loop rest current false result
        end
      else parseCsvLine_loop rest (current ++ [ch]) true result
    else
      if ch =? ch_comma then parseCsvLine_loop rest [] false (result ++ [current])
      else if ch =? ch_quote then parseCsvLine_loop rest current true result
      else parseCsvLine_loop rest (current ++ [ch]) false result
  end.

Definition parseCsvLine (line : jsstring) : list jsstring :=
  parseCsvLine_loop line [] false [].

(** The rest of a line after a field: nothing, or the next separator. *)
Definition field_end (t : jsstring) : Prop :=
  t = [] ∨ ∃ t', t = ch_comma :: t'.

(** ** Numbers and their decimal text *)

Definition is_digit (c : char) : bool := (48 <=? c) && (c <=? 57).

(** The decimal digits of a natural number, most significant first. *)
Fixpoint decimal_fuel (fuel : nat) (n : N) (acc : jsstring) : jsstring :=
  match fuel with
  | O => acc
  | S f =>
    let acc' := (48 + n mod 10) :: acc in
    if n <? 10 then acc' else decimal_fuel f (n / 10) acc'
  end.

Definition decimal (n : N) : jsstring :=
  decimal_fuel (S (N.to_nat (N.log2 n))) n [].

(** [String(n)] for an integer [n]; JavaScript prints integers below
    [10^21] in magnitude in this form. *)
Definition String_of_Z (z : Z) : jsstring :=
  if (z <? 0)%Z then ch_minus :: decimal (Z.to_N (- z)) else decimal (Z.to_N z).

(** The digits that [parseInt] consumes; [None] while none was seen. *)
Fixpoint parse_digits (s : jsstring) (acc : option N) : option N :=
  match s with
  | c :: s' =>
    if is_digit c then parse_digits s' (Some (10 * default 0 acc + (c - 48)))
    else acc
  | [] => acc
  end.

(** [parseInt(s, 10)]; [None] is [NaN]. Leading white space is skipped, one
    sign is read, then the longest run of digits; the rest is ignored. The
    result is the number that the digits write; the program has the
    nearest double, which is that number up to 2^53. *)
Definition parseInt (s : jsstring) : option Z :=
  match trimStart s with
  | c :: s' =>
    if c =? ch_minus then (λ n, (- Z.of_N n)%Z) <$> parse_digits s' None
    else if c =? ch_plus then Z.of_N <$> parse_digits s' None
    else Z.of_N <$> parse_digits (c :: s') None
  | [] => None
  end.

Local Close Scope N_scope.

(** ** The roster model *)

(** The reserved token of an anonymous placeholder slot. *)
Definition ANON : jsstring := Eval vm_compute in lit "__ANON__".

Record Section := mkSection {
  s_title : jsstring;
  s_limit : Z;
  s_backupLimit : Z;
  s_label : jsstring;
  s_list : list jsstring
}.

(** [scheduleTime]: absent ([null], or removed by [delete]), a number, or a
    stored value that is truthy and whose [Number()] is [NaN]. *)
Inductive schedule :=
| SchedNone
| SchedAt (t : Z)
| SchedInvalid.

Record Game := mkGame {
  title : jsstring;
  note : jsstring;
  active : bool;
  startTime : Z;
  lastActiveTime : Z;
  scheduleTime : schedule;
  scheduleInput : option jsstring;
  anonymous : list jsstring;
  anonymousCount : Z;
  section0 : Section;
  moreSections : list Section
}.

(** The [sections] array. Every game that this program builds (at
    creation and at recovery) has section 0, and no operation removes a
    section, so the array is kept as its first element and the rest. *)
Definition sections (g : Game) : list Section := section0 g :: moreSections g.

(** What the process sends out or asks its stores to do, in order. *)
Inductive event :=
| EvReply (text : jsstring)
| EvPush (gid : jsstring) (text : jsstring) (delivered : bool)
| EvSaveGame (gid : jsstring) (g : Game)
| EvDeleteGame (gid : jsstring)
| EvSnapshot (content : jsstring).

(** The process-wide state: the registry, the two name caches, the groups
    that were already greeted, and the trace of effects so far. *)
Record World := mkWorld {
  games : gmap jsstring Game;
  userNameCache : gmap jsstring (jsstring * Z);
  uidToNameMap : gmap jsstring jsstring;
  firstUseGroups : gset jsstring;
  trace : list event
}.

(** What a handler reads from outside the process. *)
Record Env := mkEnvironment {
  now : Z;
  profile : option jsstring;
  formatTime : Z → jsstring;
  pushDelivered : jsstring → bool;
  snapshotWritten : jsstring → bool
}.

(** An environment in which the snapshot write that the end command waits
    for goes through. *)
Definition mkEnv (now : Z) (profile : option jsstring) (formatTime : Z → jsstring)
    (pushDelivered : jsstring → bool) : Env :=
  mkEnvironment now profile formatTime pushDelivered (λ _, true).

Definition with_games (w : World) (gs : gmap jsstring Game) : World :=
  mkWorld gs (userNameCache w) (uidToNameMap w) (firstUseGroups w) (trace w).

Definition with_cache (w : World) (c : gmap jsstring (jsstring * Z)) : World :=
  mkWorld (games w) c (uidToNameMap w) (firstUseGroups w) (trace w).

Definition with_uidMap (w : World) (m : gmap jsstring jsstring) : World :=
  mkWorld (games w) (userNameCache w) m (firstUseGroups w) (trace w).

Definition emit (e : event) (w : World) : World :=
  mkWorld (games w) (userNameCache w) (uidToNameMap w) (firstUseGroups w)
          (trace w ++ [e]).

Definition with_list (s : Section) (l : list jsstring) : Section :=
  mkSection (s_title s) (s_limit s) (s_backupLimit s) (s_label s) l.

Definition with_section0 (g : Game) (s : Section) : Game :=
  mkGame (title g) (note g) (active g) (startTime g) (lastActiveTime g)
         (scheduleTime g) (scheduleInput g) (anonymous g) (anonymousCount g)
         s (moreSections g).

Definition with_moreSections (g : Game) (ss : list Section) : Game :=
  mkGame (title g) (note g) (active g) (startTime g) (lastActiveTime g)
         (scheduleTime g) (scheduleInput g) (anonymous g) (anonymousCount g)
         (section0 g) ss.

(** [g.sections.forEach(s => ...)] where the body updates the section. *)
Definition map_sections (f : Section → Section) (g : Game) : Game :=
  with_moreSections (with_section0 g (f (section0 g))) (map f (moreSections g)).

Definition with_title (g : Game) (t : jsstring) : Game :=
  mkGame t (note g) (active g) (startTime g) (lastActiveTime g)
         (scheduleTime g) (scheduleInput g) (anonymous g) (anonymousCount g)
         (section0 g) (moreSections g).

Definition with_schedule (g : Game) (s : schedule) : Game :=
  mkGame (title g) (note g) (active g) (startTime g) (lastActiveTime g)
         s (scheduleInput g) (anonymous g) (anonymousCount g)
         (section0 g) (moreSections g).

Definition with_lastActive (g : Game) (t : Z) : Game :=
  mkGame (title g) (note g) (active g) (startTime g) t
         (scheduleTime g) (scheduleInput g) (anonymous g) (anonymousCount g)
         (section0 g) (moreSections g).

(** Truthiness of the values the handlers test. *)
Definition truthy_str (s : jsstring) : bool :=
  match s with [] => false | _ => true end.

Definition nonEmpty {A} (l : list A) : bool :=
  match l with [] => false | _ => true end.

Definition truthy_schedule (s : schedule) : bool :=
  match s with
  | SchedNone => false
  | SchedAt t => negb (t =? 0)%Z
  | SchedInvalid => true
  end.

(** [l.includes(x)] *)
Definition includes (l : list jsstring) (x : jsstring) : bool :=
  bool_decide (x ∈ l).

(** [new Set(l).size !== l.length] *)
Definition has_duplicates (l : list jsstring) : bool :=
  negb (bool_decide (NoDup l)).

(** The names of a list that are not the placeholder token. *)
Definition realNames (l : list jsstring) : list jsstring :=
  filter (λ n, n ≠ ANON) l.

(** [i = l.indexOf(x); if (i > -1) l.splice(i, 1)] *)
Fixpoint remove_first (x : jsstring) (l : list jsstring) : list jsstring :=
  match l with
  | [] => []
  | y :: l' => if decide (y = x) then l' else y :: remove_first x l'
  end.

(** The text pieces that split on separators and keep the non-empty
    parts: [s.split(/[...]+/).filter(n => n)]. *)
Fixpoint tokens_loop (is_sep : char → bool) (s cur : jsstring) : list jsstring :=
  match s with
  | [] => if truthy_str cur then [cur] else []
  | c :: s' =>
    if is_sep c
    then (if truthy_str cur then [cur] else []) ++ tokens_loop is_sep s' []
    else tokens_loop is_sep s' (cur ++ [c])
  end.

Definition tokens (is_sep : char → bool) (s : jsstring) : list jsstring :=
  tokens_loop is_sep s [].

(** ** Rendering: [sendList] *)

Definition nl : jsstring := [10%N].

(** The test of the confirmed loop: the placeholder token, or one of the
    explicit anonymous display names of the game. *)
Definition isAnon (g : Game) (name : jsstring) : bool :=
  bool_decide (name = ANON) || includes (anonymous g) name.

(** The same test on [sec.list[i]], which is [undefined] past the end. *)
Definition isAnonAt (g : Game) (l : list jsstring) (i : nat) : bool :=
  match l !! i with
  | Some name => isAnon g name
  | None => false
  end.

Definition numberedLine (label : jsstring) (i : nat) (text : jsstring) : jsstring :=
  label ++ decimal (N.of_nat (i + 1)) ++ lit ". " ++ text ++ nl.

(** One turn of the confirmed loop at index [i]: what is appended to the
    message, [None] when the turn appends nothing. *)
Definition confirmedLine (g : Game) (sec : Section) (i : nat) : option jsstring :=
  match s_list sec !! i with
  | Some name =>
    if isAnon g name && isAnonAt g (s_list sec) (i + 1) then None
    else Some (numberedLine (s_label sec) i (if isAnon g name then lit "***" else name))
  | None =>
    if (Z.of_nat i =? s_limit sec - 1)%Z then Some (numberedLine (s_label sec) i [])
    else if (i =? length (s_list sec))%nat then Some (lit ".." ++ nl)
    else None
  end.

Definition confirmedBlock (g : Game) (sec : Section) : jsstring :=
  concat (map (λ i, default [] (confirmedLine g sec i))
              (seq 0 (Z.to_nat (s_limit sec)))).

(** One turn of the waitlist loop at index [i] (a number from [sec.limit]
    on; a negative index reads [undefined]). *)
Definition waitlistLine (g : Game) (sec : Section) (i : Z) : option jsstring :=
  if (i <? s_limit sec + s_backupLimit sec)%Z then
    let displayName :=
      match (if (i <? 0)%Z then None else s_list sec !! Z.to_nat i) with
      | Some name => if includes (anonymous g) name then lit "***" else name
      | None => lit "undefined"
      end in
    Some (lit "候補" ++ String_of_Z (i - s_limit sec + 1) ++ lit ". " ++ displayName ++ nl)
  else None.

Definition waitlistBlock (g : Game) (sec : Section) : jsstring :=
  if (s_limit sec <=? Z.of_nat (length (s_list sec)))%Z then
    lit "--- 候補 ---" ++ nl ++
    concat (map (λ k, default [] (waitlistLine g sec (s_limit sec + Z.of_nat k)))
                (seq 0 (Z.to_nat (Z.of_nat (length (s_list sec)) - s_limit sec))))
  else [].

Definition renderSection (g : Game) (sec : Section) : jsstring :=
  nl ++ lit "【" ++ s_title sec ++ lit "】" ++ nl
  ++ confirmedBlock g sec ++ waitlistBlock g sec.

(** The text of the message that [sendList] sends; the loops over the
    capacities are taken to end, which they do for a capacity of at most
    2^53 in size. *)
Definition renderList (g : Game) (prefix : jsstring) : jsstring :=
  trim (prefix ++ nl ++ title g ++ nl
        ++ concat (map (renderSection g) (sections g))
        ++ (if truthy_str (note g) then nl ++ lit "📝 " ++ note g else [])).

(** [sendList(token, gid, prefix)] with a reply token. *)
Definition sendListReply (gid prefix : jsstring) (w : World) : World :=
  match games w !! gid with
  | None => w
  | Some g => emit (EvReply (renderList g prefix)) w
  end.

(** [sendList(null, gid, prefix)]: a push message; the failure of the
    transport is thrown to the caller, which catches it in both places
    where this form is used. *)
Definition sendListPush (env : Env) (gid prefix : jsstring) (w : World) : World :=
  match games w !! gid with
  | None => w
  | Some g => emit (EvPush gid (renderList g prefix) (pushDelivered env gid)) w
  end.

(** ** The flattened snapshot: [saveCurrentListSnapshot] *)

Definition csvHeader : jsstring := lit "gid,sectionIdx,name,limit,backupLimit".

Definition csvRow (gid : jsstring) (sectionIdx : nat) (sec : Section)
    (name : jsstring) : jsstring :=
  join [ch_comma]
    (map csvEscape
       [ gid;
         String_of_Z (Z.of_nat sectionIdx);
         name;
         (if (s_limit sec =? 0)%Z then [] else String_of_Z (s_limit sec));
         String_of_Z (s_backupLimit sec) ]).

Definition sectionRows (gid : jsstring) (sectionIdx : nat) (sec : Section)
    : list jsstring :=
  map (csvRow gid sectionIdx sec) (realNames (s_list sec)).

Definition gameRows (gid : jsstring) (g : Game) : list jsstring :=
  concat (imap (sectionRows gid) (sections g)).

Definition snapshotRows (gs : gmap jsstring Game) : list jsstring :=
  concat (map (λ kv, gameRows kv.1 kv.2) (map_to_list gs)).

Definition csvContent (rows : list jsstring) : jsstring :=
  csvHeader ++ nl ++
  (match rows with [] => [] | _ => join nl rows ++ nl end).

Definition snapshotContent (gs : gmap jsstring Game) : jsstring :=
  csvContent (snapshotRows gs).

Definition saveCurrentListSnapshot (w : World) : World :=
  emit (EvSnapshot (snapshotContent (games w))) w.

(** ** Registry helpers: [saveGame], [touchGame], [deleteGame] *)

Definition saveGame (gid : jsstring) (w : World) : World :=
  match games w !! gid with
  | None => w
  | Some g => emit (EvSaveGame gid g) w
  end.

Definition touchGame (env : Env) (gid : jsstring) (w : World) : World :=
  with_games w (alter (λ g, with_lastActive g (now env)) gid (games w)).

Definition deleteGame (gid : jsstring) (w : World) : World :=
  emit (EvDeleteGame gid) (with_games w (delete gid (games w))).

(** ** Roster engine: [addToList], [removeFromList], [removeAnon] *)

(** [sections[idx]] *)
Definition sectionAt (g : Game) (idx : nat) : option Section := sections g !! idx.

(** [sections[idx] = s] for [idx] 0 or 1 (an array of one element grows
    when index 1 is assigned). *)
Definition setSection (g : Game) (idx : nat) (s : Section) : Game :=
  match idx with
  | O => with_section0 g s
  | _ =>
    match moreSections g with
    | [] => with_moreSections g [s]
    | _ :: r => with_moreSections g (s :: r)
    end
  end.

(** A change made in place to [sections[idx]], when that section exists. *)
Definition alterSection (f : Section → Section) (idx : nat) (g : Game) : Game :=
  match idx with
  | O => with_section0 g (f (section0 g))
  | S k => with_moreSections g (alter f k (moreSections g))
  end.

Definition addToList (idx : nat) (name : jsstring) (g : Game) : Game :=
  match sectionAt g idx with
  | None => g
  | Some s =>
    if bool_decide (name = ANON)
    then alterSection (λ s, with_list s (s_list s ++ [name])) idx g
    else if negb (includes (s_list s) name)
    then alterSection (λ s, with_list s (s_list s ++ [name])) idx g
    else g
  end.

Definition removeFromList (name : jsstring) (g : Game) : Game :=
  map_sections (λ s, with_list s (remove_first name (s_list s))) g.

(** The loop of [removeAnon] runs from the last index down and removes the
    first placeholder it meets. *)
Definition remove_last (x : jsstring) (l : list jsstring) : list jsstring :=
  rev (remove_first x (rev l)).

Definition removeAnon (g : Game) : Game :=
  with_section0 g (with_list (section0 g) (remove_last ANON (s_list (section0 g)))).

(** ** Command interpreter: the join and leave sigils *)

Definition is_digit19 (c : char) : bool := ((49 <=? c) && (c <=? 57))%N.

Definition digit_value (c : char) : Z := Z.of_N (c - 48).

Fixpoint take_line (s : jsstring) : jsstring :=
  match s with
  | c :: s' => if is_line_terminator c then [] else c :: take_line s'
  | [] => []
  end.

(** The match of the pattern with the sigil at the start: the sigil, one
    digit from 1 to 9, a greedy run of white space, then the rest of the
    line up to the first line terminator. The result is the digit and the
    third group. *)
Definition startMatch (sigil : char) (text : jsstring) : option (Z * jsstring) :=
  match text with
  | c :: d :: rest =>
    if (c =? sigil)%N && is_digit19 d
    then Some (digit_value d, take_line (trimStart rest))
    else None
  | _ => None
  end.

(** The match of the pattern with the sigil at the end: a lazy first
    group of at least one code unit without line terminator, a run of
    white space, the sigil and one digit from 1 to 9 at the very end of the
    text. The lazy group stops at the shortest prefix after which only
    white space is left before the sigil. The result is the first group
    and the digit. *)
Definition endMatch (sigil : char) (text : jsstring) : option (jsstring * Z) :=
  match rev text with
  | d :: c :: rbody =>
    if (c =? sigil)%N && is_digit19 d then
      let body := rev rbody in
      let g1 := take (Nat.max 1 (length (trimEnd body))) body in
      if truthy_str body && forallb (λ x, negb (is_line_terminator x)) g1
      then Some (g1, digit_value d)
      else None
    else None
  | _ => None
  end.

(** The two attempts in the order of [handleEvent]: the count and the
    trimmed content; the form at the end counts only with a name part. *)
Definition parseSigil (sigil : char) (text : jsstring) : option (Z * jsstring) :=
  match startMatch sigil text with
  | Some (count, g3) => Some (count, trim g3)
  | None =>
    match endMatch sigil text with
    | Some (g1, count) =>
      let namePart := trim g1 in
      if truthy_str namePart then Some (count, namePart) else None
    | None => None
    end
  end.

(** [addMatch]: count and content of a join. *)
Definition addMatch (text : jsstring) : option (Z * jsstring) :=
  parseSigil ch_plus text.

(** [removeMatch] and [removeName] of a leave. *)
Definition removeMatch (text : jsstring) : option jsstring :=
  snd <$> parseSigil ch_minus text.

(** ** Intents and their handling: [handleEvent] *)

Inductive anonymousSpec :=
| AnonCount (n : Z)
| AnonNames (l : list jsstring).

(** The fields that the patterns of the create command extract. *)
Record CreateFields := mkCreate {
  c_title : option jsstring;
  c_limit : option Z;
  c_backup : option Z;
  c_list : option (list jsstring);
  c_anon : option anonymousSpec;
  c_schedule : option (Z * jsstring)
}.

Record ModifyFields := mkModify {
  m_title : option jsstring;
  m_limit : option Z;
  m_backup : option Z;
  m_list : option (list jsstring)
}.

Inductive intent :=
| CreateGame (f : CreateFields)
| EndGame
| ModifyGame (f : ModifyFields)
| Join (count : Z) (content : jsstring)
| Leave (removeName : jsstring)
| BulkList (input : jsstring)
| ConfigureSection (second : bool) (p0 : option jsstring) (p1 p2 : option Z)
    (p3 : option jsstring)
| ClearList
| DeleteGame.

Definition msg_no_game : jsstring :=
  lit "❌ 目前沒有進行中的接龍" ++ nl ++ lit "請先使用「接龍開始」建立接龍".
Definition msg_ended : jsstring :=
  lit "❌ 此接龍已結束" ++ nl ++ lit "請使用「接龍開始」建立新的接龍".
Definition msg_not_open (timeStr : jsstring) : jsstring :=
  lit "尚未開始，將會在 " ++ timeStr
  ++ lit " 開始接龍，請在機器人開始後再使用 + / - 指令".
Definition msg_duplicate : jsstring := lit "名單已重複".
Definition msg_modify_no_game : jsstring :=
  lit "❌ 目前沒有進行中的接龍，請先使用「接龍開始」建立接龍".
Definition msg_modify_duplicate : jsstring := lit "❌ 名單中有重複的項目".
Definition msg_modify_nothing : jsstring :=
  lit "❌ 請指定要修改的項目（標題、人數、候補或名單）".
Definition str_anonymous : jsstring := lit "匿名".

Definition CACHE_EXPIRY : Z := 24 * 60 * 60 * 1000.

Definition cacheKey (gid uid : jsstring) : jsstring := gid ++ lit "_" ++ uid.

(** The fresh entry of [userNameCache], if any. *)
Definition cachedName (env : Env) (key : jsstring) (w : World) : option jsstring :=
  match userNameCache w !! key with
  | Some (name, ts) => if (now env - ts <? CACHE_EXPIRY)%Z then Some name else None
  | None => None
  end.

(** [getName(gid, uid)] *)
Definition getName (env : Env) (gid uid : jsstring) (w : World) : jsstring * World :=
  let key := cacheKey gid uid in
  match cachedName env key w with
  | Some name => (name, w)
  | None =>
    let w1 := with_cache w (delete key (userNameCache w)) in
    match profile env with
    | Some name =>
      let c1 := <[key := (name, now env)]> (userNameCache w1) in
      let c2 := if (1000 <? size c1)%nat
                then filter (λ kv, (now env - kv.2.2 < CACHE_EXPIRY)%Z) c1
                else c1 in
      (name, with_cache w1 c2)
    | None => (lit "球友", w1)
    end
  end.

Definition truthy_name (u : option jsstring) : bool :=
  match u with Some s => truthy_str s | None => false end.

(** Join and leave are refused while a schedule is set and still ahead:
    the time of that schedule, if so. *)
Definition notYetOpen (env : Env) (g : Game) : option Z :=
  match scheduleTime g with
  | SchedAt t => if negb (t =? 0)%Z && (now env <? t)%Z then Some t else None
  | _ => None
  end.

(** The names that a join adds, and the caches after resolving them. *)
Definition joinNames (env : Env) (gid uid : jsstring) (count : Z)
    (content : jsstring) (currentList : list jsstring) (w : World)
    : list jsstring * World :=
  if truthy_str content && str_includes str_anonymous content then
    (replicate (Z.to_nat count) ANON, w)
  else if truthy_str content then
    (tokens (λ c, is_ws c || (c =? ch_comma)%N) content, w)
  else if (count =? 1)%Z then
    let key := cacheKey gid uid in
    let u := cachedName env key w in
    let '(userName, w1) :=
      match truthy_name u, uidToNameMap w !! key with
      | false, Some mapped =>
        if includes currentList mapped then (mapped, w)
        else getName env gid uid w
      | false, None => getName env gid uid w
      | true, _ => (default [] u, w)
      end in
    ([userName],
     if truthy_str userName
     then with_uidMap w1 (<[key := userName]> (uidToNameMap w1))
     else w1)
  else ([], w).

(** The loop over [namesToAdd] of the join and bulk-list handlers. *)
Definition addNames (gid uid : jsstring) (names : list jsstring) (w : World) : World :=
  foldl (λ w n,
           let w1 := with_games w (alter (addToList 0 n) gid (games w)) in
           if bool_decide (n ≠ ANON)
           then with_uidMap w1 (<[cacheKey gid uid := n]> (uidToNameMap w1))
           else w1)
        w names.

Definition handleJoin (env : Env) (gid uid : jsstring) (count : Z)
    (content : jsstring) (w : World) : World :=
  match games w !! gid with
  | None => emit (EvReply msg_no_game) w
  | Some g =>
    if negb (active g) then emit (EvReply msg_ended) w
    else match notYetOpen env g with
    | Some t => emit (EvReply (msg_not_open (formatTime env t))) w
    | None =>
      let currentList := s_list (section0 g) in
      let '(namesToAdd, w1) := joinNames env gid uid count content currentList w in
      let names := realNames namesToAdd in
      if nonEmpty namesToAdd
         && (existsb (includes currentList) names || has_duplicates names)
      then emit (EvReply msg_duplicate) w1
      else
        let w2 := addNames gid uid namesToAdd w1 in
        let w3 := touchGame env gid w2 in
        sendListReply gid [] (saveCurrentListSnapshot (saveGame gid w3))
    end
  end.

(** The name that a leave without a name removes, and the caches after
    resolving it. *)
Definition leaveSelfName (env : Env) (gid uid : jsstring) (g : Game) (w : World)
    : jsstring * World :=
  let key := cacheKey gid uid in
  let u := cachedName env key w in
  let '(userName, w1) :=
    match truthy_name u, uidToNameMap w !! key with
    | false, Some mapped =>
      if negb (includes (s_list (section0 g)) mapped) then
        let '(n, w') := getName env gid uid w in
        (n, with_uidMap w' (<[key := n]> (uidToNameMap w')))
      else (mapped, w)
    | false, None =>
      let '(n, w') := getName env gid uid w in
      (n, with_uidMap w' (<[key := n]> (uidToNameMap w')))
    | true, _ => (default [] u, w)
    end in
  if truthy_str userName then (userName, w1) else getName env gid uid w1.

Definition handleLeave (env : Env) (gid uid : jsstring) (removeName : jsstring)
    (w : World) : World :=
  match games w !! gid with
  | None => emit (EvReply msg_no_game) w
  | Some g =>
    if negb (active g) then emit (EvReply msg_ended) w
    else match notYetOpen env g with
    | Some t => emit (EvReply (msg_not_open (formatTime env t))) w
    | None =>
      let w1 :=
        if negb (truthy_str removeName) then
          let '(name, w') := leaveSelfName env gid uid g w in
          with_games w' (alter (removeFromList name) gid (games w'))
        else if str_includes str_anonymous removeName then
          with_games w (alter removeAnon gid (games w))
        else
          with_games w (alter (removeFromList removeName) gid (games w)) in
      sendListReply gid [] (saveCurrentListSnapshot (saveGame gid w1))
    end
  end.

(** The list command with an argument: [input] is the text after the
    command word, trimmed. *)
Definition handleBulkList (gid uid : jsstring) (input : jsstring) (w : World) : World :=
  if bool_decide (input = []) || bool_decide (input = lit "#") then
    match games w !! gid with
    | None => emit (EvReply msg_no_game) w
    | Some _ => sendListReply gid [] w
    end
  else
    match games w !! gid with
    | None => emit (EvReply msg_no_game) w
    | Some g =>
      if negb (active g) then emit (EvReply msg_no_game) w
      else
        let namesToAdd := tokens is_ws input in
        let currentList := s_list (section0 g) in
        if existsb (includes currentList) namesToAdd || has_duplicates namesToAdd
        then emit (EvReply msg_duplicate) w
        else
          let w1 := addNames gid uid namesToAdd w in
          sendListReply gid [] (saveCurrentListSnapshot (saveGame gid w1))
    end.

(** The create command. An anonymous count beyond the largest array
    length makes [Array(anonCount)] throw, and the exception is only
    logged. *)
Definition handleCreate (env : Env) (showWelcome : bool) (gid : jsstring)
    (f : CreateFields) (w : World) : World :=
  if match c_anon f with
     | Some (AnonCount n) => (4294967295 <? n)%Z
     | _ => false
     end
  then w
  else
  let title := default (lit "羽球接龍") (c_title f) in
  let limit := default 20%Z (c_limit f) in
  let backupLimit := default 5%Z (c_backup f) in
  let listed := default [] (c_list f) in
  let '(anonList, anonCount, initialList) :=
    match c_anon f with
    | Some (AnonCount n) => ([], n, listed ++ replicate (Z.to_nat n) ANON)
    | Some (AnonNames l) => (l, 0%Z, listed ++ l)
    | None => ([], 0%Z, listed)
    end in
  if has_duplicates (realNames initialList) then emit (EvReply msg_duplicate) w
  else
    let g := {|
      title := title; note := []; active := true;
      startTime := now env; lastActiveTime := now env;
      scheduleTime := match c_schedule f with Some (t, _) => SchedAt t | None => SchedNone end;
      scheduleInput := snd <$> c_schedule f;
      anonymous := anonList; anonymousCount := anonCount;
      section0 := mkSection (lit "報名名單") limit backupLimit [] initialList;
      moreSections := [] |} in
    let w1 := saveGame gid (with_games w (<[gid := g]> (games w))) in
    let w2 := match c_list f with
              | Some _ => saveCurrentListSnapshot w1
              | None => w1
              end in
    let w3 := saveCurrentListSnapshot w2 in
    let welcomePrefix :=
      if showWelcome then lit "👋 大家好！我是羽球接龍機器人。" ++ nl ++ nl else [] in
    match c_schedule f with
    | Some (t, input) =>
      if negb (t =? 0)%Z then
        let w4 := if (t <=? now env)%Z
                  then sendListPush env gid (lit "⏰ 定時提醒") w3 else w3 in
        let displayTime := if truthy_str input then input else formatTime env t in
        emit (EvReply (welcomePrefix ++ lit "設定完成，將會在 " ++ displayTime
                       ++ lit " 開始接龍")) w4
      else sendListReply gid (welcomePrefix ++ lit "🚀 接龍設定成功！") w3
    | None => sendListReply gid (welcomePrefix ++ lit "🚀 接龍設定成功！") w3
    end.

Definition with_limit (s : Section) (n : Z) : Section :=
  mkSection (s_title s) n (s_backupLimit s) (s_label s) (s_list s).

Definition with_backupLimit (s : Section) (n : Z) : Section :=
  mkSection (s_title s) (s_limit s) n (s_label s) (s_list s).

(** The modify command. The fields are applied to the game in the order
    title, capacity, waitlist, list; a duplicate in the new list ends the
    handler after the earlier fields were already applied in memory. *)
Definition handleModify (env : Env) (gid : jsstring) (f : ModifyFields)
    (w : World) : World :=
  match games w !! gid with
  | None => emit (EvReply msg_modify_no_game) w
  | Some g =>
    if negb (active g) then emit (EvReply msg_modify_no_game) w
    else
      let currentList := s_list (section0 g) in
      let oldLimit := s_limit (section0 g) in
      let g1 := match m_title f with Some t => with_title g t | None => g end in
      let g2 := match m_limit f with
                | Some n => if (0 <? n)%Z
                            then with_section0 g1 (with_limit (section0 g1) n) else g1
                | None => g1
                end in
      let g3 := match m_backup f with
                | Some n => if (0 <=? n)%Z
                            then with_section0 g2 (with_backupLimit (section0 g2) n) else g2
                | None => g2
                end in
      let hasChanges0 :=
        bool_decide (is_Some (m_title f))
        || match m_limit f with Some n => (0 <? n)%Z | None => false end
        || match m_backup f with Some n => (0 <=? n)%Z | None => false end in
      let w1 := with_games w (<[gid := g3]> (games w)) in
      match m_list f with
      | Some newList =>
        if has_duplicates (realNames newList)
        then emit (EvReply msg_modify_duplicate) w1
        else
          let g4 := with_section0 g3 (with_list (section0 g3) newList) in
          let w2 := touchGame env gid (with_games w (<[gid := g4]> (games w))) in
          let w3 := saveCurrentListSnapshot (saveGame gid w2) in
          sendListReply gid
            (lit "✏️ 接龍已更新" ++
             match m_limit f with
             | Some n =>
               if (n <? oldLimit)%Z && (n <? Z.of_nat (length currentList))%Z
               then nl ++ lit "📋 人數已從 " ++ String_of_Z oldLimit ++ lit " 調整為 "
                    ++ String_of_Z n ++ lit "，超出的人員將顯示為候補"
               else []
             | None => []
             end) w3
      | None =>
        if negb hasChanges0 then emit (EvReply msg_modify_nothing) w1
        else
          let w2 := saveGame gid (touchGame env gid w1) in
          sendListReply gid
            (lit "✏️ 接龍已更新" ++
             match m_limit f with
             | Some n =>
               if (n <? oldLimit)%Z && (n <? Z.of_nat (length currentList))%Z
               then nl ++ lit "📋 人數已從 " ++ String_of_Z oldLimit ++ lit " 調整為 "
                    ++ String_of_Z n ++ lit "，超出的人員將顯示為候補"
               else []
             | None => []
             end) w2
      end
  end.

(** [x || d] on a number that may be [NaN]. *)
Definition num_or (x : option Z) (d : Z) : Z :=
  match x with
  | Some n => if (n =? 0)%Z then d else n
  | None => d
  end.

Definition str_or (x : option jsstring) (d : jsstring) : jsstring :=
  match x with
  | Some s => if truthy_str s then s else d
  | None => d
  end.

(** The section command: [p0] to [p3] are the braced parameters, the
    numbers already through [parseInt]. Without a game the handler throws
    at once and the exception is only logged. *)
Definition handleConfigure (env : Env) (gid : jsstring) (second : bool)
    (p0 : option jsstring) (p1 p2 : option Z) (p3 : option jsstring)
    (w : World) : World :=
  let idx := if second then 1%nat else 0%nat in
  match games w !! gid with
  | None => w
  | Some g =>
    let sec := {|
      s_title := str_or p0 (lit "區段" ++ decimal (N.of_nat (idx + 1)));
      s_limit := num_or p1 10;
      s_backupLimit := num_or p2 0;
      s_label := str_or p3 [];
      s_list := match sectionAt g idx with Some s => s_list s | None => [] end |} in
    let w1 := with_games w (<[gid := setSection g idx sec]> (games w)) in
    sendListReply gid
      (lit "⚙️ 區段" ++ decimal (N.of_nat (idx + 1)) ++ lit " 更新成功")
      (saveGame gid (touchGame env gid w1))
  end.

Definition handleClear (env : Env) (gid : jsstring) (w : World) : World :=
  match games w !! gid with
  | None => w
  | Some g =>
    let w1 := with_games w (<[gid := map_sections (λ s, with_list s []) g]> (games w)) in
    emit (EvReply (lit "🧹 名單已清空"))
         (saveCurrentListSnapshot (saveGame gid (touchGame env gid w1)))
  end.

Definition handleEnd (env : Env) (gid : jsstring) (w : World) : World :=
  match games w !! gid with
  | Some _ =>
    let w1 := saveCurrentListSnapshot w in
    if snapshotWritten env (snapshotContent (games w))
    then emit (EvReply (lit "✅ 已結束")) (saveCurrentListSnapshot (deleteGame gid w1))
    else w1
  | None =>
    emit (EvReply (lit "✅ 已結束")) (saveCurrentListSnapshot (deleteGame gid w))
  end.

Definition handleDelete (gid : jsstring) (w : World) : World :=
  emit (EvReply (lit "🗑️ 設置已移除")) (saveCurrentListSnapshot (deleteGame gid w)).

(** The start of [handleEvent]: a group or room that speaks for the first
    time is remembered, and only the create reply greets it. *)
Definition isGroupOrRoom (gid : jsstring) : bool :=
  match gid with
  | c :: _ => (c =? 67)%N || (c =? 82)%N
  | [] => false
  end.

Definition handleEvent (env : Env) (gid uid : jsstring) (i : intent) (w : World)
    : World :=
  let showWelcome := isGroupOrRoom gid && bool_decide (gid ∉ firstUseGroups w) in
  let w0 := if showWelcome
            then mkWorld (games w) (userNameCache w) (uidToNameMap w)
                         ({[gid]} ∪ firstUseGroups w) (trace w)
            else w in
  match i with
  | CreateGame f => handleCreate env showWelcome gid f w0
  | EndGame => handleEnd env gid w0
  | ModifyGame f => handleModify env gid f w0
  | Join count content => handleJoin env gid uid count content w0
  | Leave removeName => handleLeave env gid uid removeName w0
  | BulkList input => handleBulkList gid uid input w0
  | ConfigureSection second p0 p1 p2 p3 => handleConfigure env gid second p0 p1 p2 p3 w0
  | ClearList => handleClear env gid w0
  | DeleteGame => handleDelete gid w0
  end.

(** ** Scheduler: [checkSchedules] *)

(** One turn of the loop over the conversation ids. *)
Definition checkSchedule (env : Env) (gid : jsstring) (w : World) : World :=
  match games w !! gid with
  | None => w
  | Some g =>
    if negb (truthy_schedule (scheduleTime g)) then w
    else
      match scheduleTime g with
      | SchedInvalid =>
        saveGame gid (with_games w (<[gid := with_schedule g SchedNone]> (games w)))
      | SchedAt sched =>
        if (sched <=? now env)%Z then
          let w1 := with_games w (<[gid := with_schedule g SchedNone]> (games w)) in
          sendListPush env gid (lit "⏰ 定時提醒") (saveGame gid w1)
        else w
      | SchedNone => w
      end
  end.

Definition checkSchedules (env : Env) (w : World) : World :=
  foldl (λ w gid, checkSchedule env gid w) w (map fst (map_to_list (games w))).

(** ** Recovery from the flattened snapshot: [restoreGamesFromCsv] *)

(** [content.split(/\r?\n/)]: the text is cut at every line feed, and a
    carriage return right before the line feed goes with it. *)
Fixpoint splitLines_loop (s cur : jsstring) : list jsstring :=
  match s with
  | [] => [cur]
  | c :: s' =>
    if (c =? ch_lf)%N then cur :: splitLines_loop s' []
    else if (c =? ch_cr)%N then
      match s' with
      | c' :: s'' =>
        if (c' =? ch_lf)%N then cur :: splitLines_loop s'' []
        else splitLines_loop s' (cur ++ [c])
      | [] => splitLines_loop s' (cur ++ [c])
      end
    else splitLines_loop s' (cur ++ [c])
  end.

Definition splitLines (s : jsstring) : list jsstring := splitLines_loop s [].

(** [toLowerCase] as far as the comparison with the column names can
    tell: the ASCII capitals, the Kelvin sign (whose lower case is the
    letter k) and the dotted capital I (whose lower case is the letter i
    followed by a combining dot). The other code units have no lower case
    inside ASCII and are left as they are. *)
Definition toLowerCase (s : jsstring) : jsstring :=
  flat_map (λ c, if ((65 <=? c) && (c <=? 90))%N then [(c + 32)%N]
                 else if (c =? 8490)%N then [107%N]
                 else if (c =? 304)%N then [105%N; 775%N]
                 else [c]) s.

(** [l.indexOf(x)], [None] for -1. *)
Fixpoint indexOf (x : jsstring) (l : list jsstring) : option nat :=
  match l with
  | [] => None
  | y :: l' => if decide (y = x) then Some O else S <$> indexOf x l'
  end.

(** The columns of the header row. *)
Record Columns := mkColumns {
  idxGid : nat;
  idxSection : nat;
  idxName : nat;
  idxLimit : option nat;
  idxBackup : option nat
}.

Definition readHeader (line : jsstring) : option Columns :=
  let header := map (λ h, toLowerCase (trim h)) (parseCsvLine line) in
  match indexOf (lit "gid") header, indexOf (lit "sectionidx") header,
        indexOf (lit "name") header with
  | Some g, Some s, Some n =>
    Some (mkColumns g s n (indexOf (lit "limit") header)
                    (indexOf (lit "backuplimit") header))
  | _, _, _ => None
  end.

(** What one data row contributes: the conversation, the section index
    after the default, the name, and the two capacities when the row holds
    a usable number. *)
Record Row := mkRow {
  r_gid : jsstring;
  r_section : Z;
  r_name : jsstring;
  r_limit : option Z;
  r_backup : option Z
}.

(** [cols[i] || ''] *)
Definition column (cols : list jsstring) (i : nat) : jsstring :=
  default [] (cols !! i).

(** The first half of a turn of the row loop; [None] when the turn ends
    with [continue]. *)
Definition readRow (cs : Columns) (rawLine : jsstring) : option Row :=
  let line := trim rawLine in
  if negb (truthy_str line) then None
  else
    let cols := parseCsvLine line in
    let gid := trim (column cols (idxGid cs)) in
    let name := trim (column cols (idxName cs)) in
    let sectionIdx := parseInt (trim (str_or (cols !! idxSection cs) (lit "0"))) in
    if negb (truthy_str gid) || negb (truthy_str name) then None
    else
      let safeSectionIdx :=
        match sectionIdx with
        | Some n => if (0 <=? n)%Z then n else 0%Z
        | None => 0%Z
        end in
      let rawLimit :=
        match idxLimit cs with
        | Some i =>
          match parseInt (trim (column cols i)) with
          | Some n => if (0 <? n)%Z then Some n else None
          | None => None
          end
        | None => None
        end in
      let rawBackup :=
        match idxBackup cs with
        | Some i =>
          match parseInt (trim (column cols i)) with
          | Some n => if (0 <=? n)%Z then Some n else None
          | None => None
          end
        | None => None
        end in
      Some (mkRow gid safeSectionIdx name rawLimit rawBackup).

Record SectionMeta := mkMeta {
  meta_limit : option Z;
  meta_backupLimit : option Z
}.

(** The two maps of the row loop: names and capacities, by conversation
    and by section index. *)
Record Restore := mkRestore {
  byGid : gmap jsstring (gmap Z (list jsstring));
  metaByGid : gmap jsstring (gmap Z SectionMeta)
}.

(** The second half of a turn of the row loop. *)
Definition addRow (acc : Restore) (r : Row) : Restore :=
  let sectionMap := default ∅ (byGid acc !! r_gid r) in
  let metaMap := default ∅ (metaByGid acc !! r_gid r) in
  let list := default [] (sectionMap !! r_section r) in
  let meta := default (mkMeta None None) (metaMap !! r_section r) in
  let meta1 :=
    mkMeta
      (match r_limit r with
       | Some raw => Some (Z.max (num_or (meta_limit meta) 0) raw)
       | None => meta_limit meta
       end)
      (match r_backup r with
       | Some raw => Some (Z.max (num_or (meta_backupLimit meta) 0) raw)
       | None => meta_backupLimit meta
       end) in
  let list1 := if includes list (r_name r) then list else list ++ [r_name r] in
  mkRestore (<[r_gid r := <[r_section r := list1]> sectionMap]> (byGid acc))
            (<[r_gid r := <[r_section r := meta1]> metaMap]> (metaByGid acc)).

Definition readRows (cs : Columns) (lines : list jsstring) : Restore :=
  foldl (λ acc line,
           match readRow cs line with
           | Some r => addRow acc r
           | None => acc
           end)
        (mkRestore ∅ ∅) lines.

(** The section that the recovery builds at index [idx]. *)
Definition restoredSection (sectionMap : gmap Z (list jsstring))
    (metaMap : gmap Z SectionMeta) (idx : nat) : Section :=
  let list := default [] (sectionMap !! Z.of_nat idx) in
  let meta := default (mkMeta None None) (metaMap !! Z.of_nat idx) in
  {| s_title := match idx with
                | O => lit "報名名單"
                | _ => lit "區段" ++ decimal (N.of_nat (idx + 1))
                end;
     s_limit := num_or (meta_limit meta) (Z.max 20 (Z.of_nat (length list)));
     s_backupLimit := default 5%Z (meta_backupLimit meta);
     s_label := [];
     s_list := list |}.

(** [Math.max(...sectionIndices, 0)] *)
Definition maxSectionIdx (sectionMap : gmap Z (list jsstring)) : Z :=
  foldr Z.max 0%Z (map fst (map_to_list sectionMap)).

Definition restoredGame (env : Env) (sectionMap : gmap Z (list jsstring))
    (metaMap : gmap Z SectionMeta) : Game :=
  {| title := lit "羽球接龍"; note := []; active := true;
     startTime := now env; lastActiveTime := now env;
     scheduleTime := SchedNone; scheduleInput := None;
     anonymous := []; anonymousCount := 0;
     section0 := restoredSection sectionMap metaMap 0;
     moreSections :=
       map (restoredSection sectionMap metaMap)
           (seq 1 (Z.to_nat (maxSectionIdx sectionMap))) |}.

(** [restoreGamesFromCsv], given the snapshot text that the process holds
    or finds in its file ([content] is empty when there is none). The
    result tells whether the registry was rebuilt. The registry takes
    every conversation id of the rows as a key; the program does so for
    every id but [__proto__]. *)
Definition restoreGamesFromCsv (env : Env) (content : jsstring) (w : World)
    : bool * World :=
  if negb (bool_decide (games w = ∅)) then (false, w)
  else if negb (truthy_str content) then (false, w)
  else
    match splitLines (trim content) with
    | [] | [_] => (false, w)
    | headerLine :: rows =>
      match readHeader headerLine with
      | None => (false, w)
      | Some cs =>
        let acc := readRows cs rows in
        if bool_decide (byGid acc = ∅) then (false, w)
        else
          (true,
           foldl (λ w kv,
                    let g := restoredGame env kv.2
                               (default ∅ (metaByGid acc !! kv.1)) in
                    saveGame kv.1 (with_games w (<[kv.1 := g]> (games w))))
                 w (map_to_list (byGid acc)))
      end
    end.

(** ** The data-model invariant on names *)

(** Within one list, the names that are not the placeholder are pairwise
    distinct. *)
Definition distinct_names (l : list jsstring) : Prop := NoDup (realNames l).

Definition game_distinct (g : Game) : Prop :=
  Forall (λ s, distinct_names (s_list s)) (sections g).

Definition names_distinct (gs : gmap jsstring Game) : Prop :=
  map_Forall (λ _ g, game_distinct g) gs.

(** ** Sample data for the concrete instances *)

Definition sampleGid : jsstring := lit "C1".
Definition sampleUid : jsstring := lit "U1".

Definition sampleGame (act : bool) (sched : schedule) (l : list jsstring)
    (more : list Section) : Game :=
  {| title := lit "Sunday"; note := []; active := act;
     startTime := 0; lastActiveTime := 0;
     scheduleTime := sched; scheduleInput := None;
     anonymous := []; anonymousCount := 0;
     section0 := mkSection (lit "報名名單") 20 5 [] l;
     moreSections := more |}.

Definition sampleWorld (g : Game) : World :=
  mkWorld {[ sampleGid := g ]} ∅ ∅ ∅ [].

Definition sampleEnv : Env := mkEnv 1000 None (λ _, lit "later") (λ _, true).

(** ** Reading the trace *)

(** The conversation that an event is about. *)
Definition event_gid (e : event) : option jsstring :=
  match e with
  | EvPush gid _ _ | EvSaveGame gid _ | EvDeleteGame gid => Some gid
  | EvReply _ | EvSnapshot _ => None
  end.

Definition eventsFor (gid : jsstring) (tr : list event) : list event :=
  filter (λ e, event_gid e = Some gid) tr.

(** What one turn of the scan does to the game it visits, and the
    events of that turn. *)
Definition scheduleStep (env : Env) (gid : jsstring) (g : Game) : Game * list event :=
  match scheduleTime g with
  | SchedInvalid =>
    (with_schedule g SchedNone, [EvSaveGame gid (with_schedule g SchedNone)])
  | SchedAt t =>
    if negb (t =? 0)%Z && (t <=? now env)%Z then
      (with_schedule g SchedNone,
       [EvSaveGame gid (with_schedule g SchedNone);
        EvPush gid (renderList (with_schedule g SchedNone) (lit "⏰ 定時提醒"))
               (pushDelivered env gid)])
    else (g, [])
  | SchedNone => (g, [])
  end.

(** Two worlds with the same registry and the same trace (the name caches
    may differ). *)
Definition same_roster (w w' : World) : Prop :=
  games w' = games w ∧ trace w' = trace w.

(** ** Well-formed text for the snapshot *)

(** A line of the snapshot file: no line feed inside, and no carriage
    return at its end. *)
Definition line_like (r : jsstring) : Prop :=
  (ch_lf ∉ r) ∧ ∀ r', r ≠ r' ++ [ch_cr].

(** No white space at the first position. *)
Definition head_ok (s : jsstring) : Prop :=
  match s with
  | c :: _ => is_ws c = false
  | [] => True
  end.

(** No white space at either end. *)
Definition clean_edges (s : jsstring) : Prop := head_ok s ∧ head_ok (rev s).

(** A name or conversation id that a row of the snapshot gives back as it
    is: not empty, no white space at either end, no line feed. *)
Definition plain_text (s : jsstring) : Prop :=
  s ≠ [] ∧ trim s = s ∧ ch_lf ∉ s.

(** The value of a run of digits read from the left with [acc] so far. *)
Definition digits_value (s : jsstring) (acc : N) : N :=
  foldl (λ a c, (10 * a + (c - 48))%N) acc s.

(** The columns of the header that [saveCurrentListSnapshot] writes. *)
Definition snapshotColumns : Columns := mkColumns 0 1 2 (Some 3%nat) (Some 4%nat).

(** What the row loop reads from the row written for [name] in section
    [sectionIdx] of conversation [gid]. *)
Definition rowOf (gid : jsstring) (sectionIdx : nat) (sec : Section)
    (name : jsstring) : Row :=
  mkRow gid (Z.of_nat sectionIdx) name
        (if (0 <? s_limit sec)%Z then Some (s_limit sec) else None)
        (Some (s_backupLimit sec)).

(** ** Reading the two maps of the recovery *)

Definition listAt (acc : Restore) (gid : jsstring) (idx : Z) : option (list jsstring) :=
  byGid acc !! gid ≫= (λ sm, sm !! idx).

Definition metaAt (acc : Restore) (gid : jsstring) (idx : Z) : option SectionMeta :=
  metaByGid acc !! gid ≫= (λ mm, mm !! idx).

(** The two updates that a row makes at its own conversation and section. *)
Definition pushName (o : option (list jsstring)) (r : Row) : option (list jsstring) :=
  let list := default [] o in
  Some (if includes list (r_name r) then list else list ++ [r_name r]).

Definition pushMeta (o : option SectionMeta) (r : Row) : option SectionMeta :=
  let meta := default (mkMeta None None) o in
  Some (mkMeta
          (match r_limit r with
           | Some raw => Some (Z.max (num_or (meta_limit meta) 0) raw)
           | None => meta_limit meta
           end)
          (match r_backup r with
           | Some raw => Some (Z.max (num_or (meta_backupLimit meta) 0) raw)
           | None => meta_backupLimit meta
           end)).

(** The rows of a list that belong to one conversation and section. *)
Definition rowsFor (gid : jsstring) (idx : Z) (rs : list Row) : list Row :=
  filter (λ r, r_gid r = gid ∧ r_section r = idx) rs.

(** The rows that the recovery reads from the snapshot of a registry,
    in the order of the snapshot. *)
Definition sectionRecords (gid : jsstring) (sectionIdx : nat) (sec : Section)
    : list Row :=
  map (rowOf gid sectionIdx sec) (realNames (s_list sec)).

Definition gameRecords (gid : jsstring) (g : Game) : list Row :=
  concat (imap (sectionRecords gid) (sections g)).

Definition registryRecords (kvs : list (jsstring * Game)) : list Row :=
  concat (map (λ kv, gameRecords kv.1 kv.2) kvs).

(** ** Registries that the snapshot can carry *)

Definition section_wf (s : Section) : Prop :=
  (0 ≤ s_limit s < 2 ^ 53)%Z ∧ (0 ≤ s_backupLimit s < 2 ^ 53)%Z
  ∧ Forall plain_text (realNames (s_list s)).

Definition registry_wf (gs : gmap jsstring Game) : Prop :=
  map_Forall (λ gid g, plain_text gid ∧ game_distinct g
                       ∧ Forall section_wf (sections g)) gs.

(** Whether some section of the game lists a real name. *)
Definition hasRealNames (g : Game) : bool :=
  existsb (λ s, nonEmpty (realNames (s_list s))) (sections g).

(** A row that survives the trimming and the line splitting. *)
Definition row_ok (r : jsstring) : Prop :=
  line_like r ∧ clean_edges r ∧ r ≠ [].

(** The two maps after the row loop has read the snapshot of a registry. *)
Definition snapshotRestore (gs : gmap jsstring Game) : Restore :=
  foldl addRow (mkRestore ∅ ∅) (registryRecords (map_to_list gs)).

Definition emptyWorld : World := mkWorld ∅ ∅ ∅ ∅ [].

(** A registry of one game with two names and a placeholder, and one of
    a game that holds placeholders only. *)
Definition sampleRegistry : gmap jsstring Game :=
  {[ sampleGid := sampleGame true SchedNone [lit "amy"; ANON; lit "bob"] [] ]}.

Definition placeholderRegistry : gmap jsstring Game :=
  {[ sampleGid := sampleGame true SchedNone [ANON; ANON] [] ]}.

(** A registry whose one game lists a name with a line feed inside, and
    one whose game lists a name with a space in front. *)
Definition lineFeedRegistry : gmap jsstring Game :=
  {[ sampleGid := sampleGame true SchedNone [lit "a" ++ nl ++ lit "b"] [] ]}.

Definition edgeSpaceRegistry : gmap jsstring Game :=
  {[ sampleGid := sampleGame true SchedNone [lit " amy"] [] ]}.

(** The lists of the sections of a conversation in a registry. *)
Definition listsOf (gs : gmap jsstring Game) (gid : jsstring)
    : option (list (list jsstring)) :=
  (λ g, map s_list (sections g)) <$> gs !! gid.

(** * Further parts of the program *)

(** ** Statements about the name caches *)

(** The entry of [userNameCache] for the sender, if there is one, holds
    the name [n] or the empty name. *)
Definition cache_agrees (gid uid n : jsstring) (w : World) : Prop :=
  ∀ name ts, userNameCache w !! cacheKey gid uid = Some (name, ts) →
             name = n ∨ name = [].

(** ** Statements about the reminder scan *)

(** A save or a push: the two effects of the reminder scan. *)
Definition save_or_push (e : event) : Prop :=
  match e with
  | EvSaveGame _ _ | EvPush _ _ _ => True
  | _ => False
  end.

(** Nothing is due for the game: no schedule, the number 0, or a time
    still ahead. *)
Definition not_due (env : Env) (g : Game) : Prop :=
  match scheduleTime g with
  | SchedNone => True
  | SchedAt t => t = 0%Z ∨ (now env < t)%Z
  | SchedInvalid => False
  end.

(** ** Statements about the create command *)

(** The list that the create command builds: the listed names, then the
    placeholders or the anonymous names. *)
Definition initialList (f : CreateFields) : list jsstring :=
  default [] (c_list f) ++
  match c_anon f with
  | Some (AnonCount n) => replicate (Z.to_nat n) ANON
  | Some (AnonNames l) => l
  | None => []
  end.



(** The loops of [sendList] over the capacities of a game come to an
    end. The counter of a loop is a double and no longer moves by one
    beyond 2^53 in size: with a capacity above 2^53 the confirmed loop, and
    with a capacity below -2^53 the waitlist loop (which starts at the
    capacity), keeps running and no message is sent. *)
Definition roster_ends (g : Game) : Prop :=
  Forall (λ s, (- 2 ^ 53 ≤ s_limit s ≤ 2 ^ 53)%Z) (sections g).

(** The greeting of a group or room that speaks for the first time. *)
Definition welcomePrefix (gid : jsstring) (w : World) : jsstring :=
  if isGroupOrRoom gid && bool_decide (gid ∉ firstUseGroups w)
  then lit "👋 大家好！我是羽球接龍機器人。" ++ nl ++ nl else [].


(** ** Statements about the modify command *)

(** The game after the title, the capacity and the waitlist size of a
    modify command were applied: a capacity that is not positive and a
    waitlist size that is negative are passed over. *)
Definition modifiedGame (g : Game) (f : ModifyFields) : Game :=
  let g1 := match m_title f with Some t => with_title g t | None => g end in
  let g2 := match m_limit f with
            | Some n => if (0 <? n)%Z
                        then with_section0 g1 (with_limit (section0 g1) n) else g1
            | None => g1
            end in
  match m_backup f with
  | Some n => if (0 <=? n)%Z
              then with_section0 g2 (with_backupLimit (section0 g2) n) else g2
  | None => g2
  end.

(** Whether one of the three fields made a change. *)
Definition fieldsChanged (f : ModifyFields) : bool :=
  bool_decide (is_Some (m_title f))
  || match m_limit f with Some n => (0 <? n)%Z | None => false end
  || match m_backup f with Some n => (0 <=? n)%Z | None => false end.

(** The text of the reply of an accepted modify command: the notice line
    is there when a capacity was given that is below the old capacity and
    below the number of entries. *)
Definition modifyPrefix (g : Game) (f : ModifyFields) : jsstring :=
  lit "✏️ 接龍已更新" ++
  match m_limit f with
  | Some n =>
    if (n <? s_limit (section0 g))%Z
       && (n <? Z.of_nat (length (s_list (section0 g))))%Z
    then nl ++ lit "📋 人數已從 " ++ String_of_Z (s_limit (section0 g))
         ++ lit " 調整為 " ++ String_of_Z n ++ lit "，超出的人員將顯示為候補"
    else []
  | None => []
  end.

(** ** Statements about the section, clear, end and delete commands *)

(** The section that the section command writes at index [idx]. *)
Definition configuredSection (g : Game) (idx : nat) (p0 : option jsstring)
    (p1 p2 : option Z) (p3 : option jsstring) : Section :=
  {| s_title := str_or p0 (lit "區段" ++ decimal (N.of_nat (idx + 1)));
     s_limit := num_or p1 10;
     s_backupLimit := num_or p2 0;
     s_label := str_or p3 [];
     s_list := match sectionAt g idx with Some s => s_list s | None => [] end |}.

(** The game after the clear command. *)
Definition clearedGame (env : Env) (g : Game) : Game :=
  with_lastActive (map_sections (λ s, with_list s []) g) (now env).

(** ** Statements about the recovery *)

(** A row that the recovery reads as the model does: its conversation
    id is not the text [__proto__], which an assignment to a property of a
    JS object does not store as a key, and its numbers are at most 2^53,
    up to which [parseInt] gives the number that the digits write. *)
Definition row_plain (r : Row) : Prop :=
  r_gid r ≠ lit "__proto__" ∧ (r_section r ≤ 2 ^ 53)%Z
  ∧ (∀ n, r_limit r = Some n → (n ≤ 2 ^ 53)%Z)
  ∧ (∀ n, r_backup r = Some n → (n ≤ 2 ^ 53)%Z).

(** Every row that the recovery reads from a text is such a row. *)
Definition plain_rows (content : jsstring) : Prop :=
  ∀ headerLine rows cs,
    splitLines (trim content) = headerLine :: rows →
    readHeader headerLine = Some cs →
    Forall (λ line, ∀ r, readRow cs line = Some r → row_plain r) rows.

(** A name or conversation id as the recovery keeps it: not empty, and
    with no white space at either end. *)
Definition sound_name (n : jsstring) : Prop := n ≠ [] ∧ trim n = n.

Definition sound_section (s : Section) : Prop :=
  (0 < s_limit s)%Z ∧ (0 ≤ s_backupLimit s)%Z ∧ s_label s = []
  ∧ NoDup (s_list s) ∧ Forall sound_name (s_list s).

(** What holds of every game that the recovery builds. *)
Definition sound_restored (env : Env) (gid : jsstring) (g : Game) : Prop :=
  sound_name gid ∧ active g = true ∧ scheduleTime g = SchedNone
  ∧ title g = lit "羽球接龍"
  ∧ startTime g = now env ∧ lastActiveTime g = now env ∧ anonymous g = []
  ∧ Forall sound_section (sections g)
  ∧ Exists (λ s, s_list s ≠ []) (sections g).

Definition is_save (e : event) : Prop :=
  match e with EvSaveGame _ _ => True | _ => False end.

(** The capacities that the row loop keeps are usable: a capacity above
    0, a waitlist size of 0 or more. *)
Definition meta_ok (o : option SectionMeta) : Prop :=
  ∀ m, o = Some m →
       (∀ n, meta_limit m = Some n → (0 < n)%Z)
       ∧ (∀ n, meta_backupLimit m = Some n → (0 ≤ n)%Z).

(** ** Expiry of idle games: [checkExpiredGames] *)

Definition EXPIRY_TIME : Z := 7 * 24 * 60 * 60 * 1000.

Definition with_startTime (g : Game) (t : Z) : Game :=
  mkGame (title g) (note g) (active g) t (lastActiveTime g)
         (scheduleTime g) (scheduleInput g) (anonymous g) (anonymousCount g)
         (section0 g) (moreSections g).

(** The game after the first test of a turn: a game without start time
    gets the present time as start and last-active time. *)
Definition stampGame (env : Env) (g : Game) : Game :=
  if (startTime g =? 0)%Z
  then with_lastActive (with_startTime g (now env)) (now env)
  else g.

(** [lastActiveTime || startTime || now] *)
Definition lastActiveOf (env : Env) (g : Game) : Z :=
  if negb (lastActiveTime g =? 0)%Z then lastActiveTime g
  else if negb (startTime g =? 0)%Z then startTime g
  else now env.

(** The test of the deletion. *)
Definition isExpired (env : Env) (g : Game) : bool :=
  (EXPIRY_TIME <? now env - lastActiveOf env g)%Z.

(** One turn of the loop over the conversation ids. *)
Definition checkExpired (env : Env) (gid : jsstring) (w : World) : World :=
  match games w !! gid with
  | None => w
  | Some g =>
    let w1 :=
      if (startTime g =? 0)%Z
      then saveGame gid (with_games w (<[gid := stampGame env g]> (games w)))
      else w in
    if isExpired env (stampGame env g)
    then saveCurrentListSnapshot (deleteGame gid w1)
    else w1
  end.

Definition checkExpiredGames (env : Env) (w : World) : World :=
  foldl (λ w gid, checkExpired env gid w) w (map fst (map_to_list (games w))).

(** What one turn leaves of the game it visits. *)
Definition expiryStep (env : Env) (g : Game) : option Game :=
  if isExpired env (stampGame env g) then None else Some (stampGame env g).

(** The effects of the expiry scan: saves, deletions, snapshot writes. *)
Definition expiry_effect (e : event) : Prop :=
  match e with
  | EvSaveGame _ _ | EvDeleteGame _ | EvSnapshot _ => True
  | _ => False
  end.

(** ** The patterns of the create and modify commands *)

(** The colon, the opening brace and the closing brace, each in its ASCII
    and its full-width form. *)
Definition is_colon (c : char) : bool := (c =? 58)%N || (c =? 65306)%N.
Definition is_open (c : char) : bool := (c =? 123)%N || (c =? 65371)%N.
Definition is_close (c : char) : bool := (c =? 125)%N || (c =? 65373)%N.

(** The lazy group of any characters and the closing brace after it: the
    text up to the first closing brace, and the text after that brace. *)
Fixpoint untilClose (s : jsstring) : option (jsstring * jsstring) :=
  match s with
  | [] => None
  | c :: s' =>
    if is_close c then Some ([], s')
    else match untilClose s' with
         | Some (b, r) => Some (c :: b, r)
         | None => None
         end
  end.

(** The longest run of digits at the start, and the rest. *)
Fixpoint digitRun (s : jsstring) : jsstring * jsstring :=
  match s with
  | c :: s' =>
    if is_digit c then (c :: (digitRun s').1, (digitRun s').2) else ([], s)
  | [] => ([], [])
  end.

(** The group of one or more digits and the closing brace after it. *)
Definition digitsThenClose (s : jsstring) : option (jsstring * jsstring) :=
  match (digitRun s).1, (digitRun s).2 with
  | _ :: _, c :: r => if is_close c then Some ((digitRun s).1, r) else None
  | _, _ => None
  end.

(** What the patterns ask for after the key word: white space, at most
    one colon, white space, an opening brace, then the group and the
    closing brace. The result is the group and the text after the match. *)
Definition afterKey (group : jsstring → option (jsstring * jsstring))
    (s : jsstring) : option (jsstring * jsstring) :=
  let s1 := trimStart s in
  let s2 := match s1 with
            | c :: r => if is_colon c then r else s1
            | [] => s1
            end in
  match trimStart s2 with
  | c :: r => if is_open c then group r else None
  | [] => None
  end.

(** [text.match(/key.../)]: the pattern is tried at every position from
    the left; the result is the whole match and the group. *)
Fixpoint fieldMatch (key : jsstring)
    (group : jsstring → option (jsstring * jsstring)) (s : jsstring)
    : option (jsstring * jsstring) :=
  match (if is_prefix key s then afterKey group (drop (length key) s) else None) with
  | Some (g, rest) => Some (take (length s - length rest) s, g)
  | None =>
    match s with
    | [] => None
    | _ :: s' => fieldMatch key group s'
    end
  end.

(** [text.replace(m, '')] for a string [m] that is not empty: the first
    occurrence is cut out. *)
Fixpoint removeFirst (m s : jsstring) : jsstring :=
  if is_prefix m s then drop (length m) s
  else match s with
       | [] => []
       | c :: s' => c :: removeFirst m s'
       end.

(** [s.split(/[...]+/)]: the pieces between the runs of separators; a
    text that starts or ends with a separator has an empty first or last
    piece. *)
Fixpoint splitRuns_loop (is_sep : char → bool) (s cur : jsstring) (inSep : bool)
    : list jsstring :=
  match s with
  | [] => [cur]
  | c :: s' =>
    if is_sep c then
      if inSep then splitRuns_loop is_sep s' [] true
      else cur :: splitRuns_loop is_sep s' [] true
    else splitRuns_loop is_sep s' (cur ++ [c]) false
  end.

Definition splitRuns (is_sep : char → bool) (s : jsstring) : list jsstring :=
  splitRuns_loop is_sep s [] false.

Fixpoint skipWhile (p : char → bool) (s : jsstring) : jsstring :=
  match s with
  | c :: s' => if p c then skipWhile p s' else s
  | [] => []
  end.

(** [line.replace(/^\d+[.\s]*\s*/, '')]: a line that starts with a digit
    loses its digits and the dots and white space after them. *)
Definition stripNumber (line : jsstring) : jsstring :=
  match line with
  | c :: _ =>
    if is_digit c
    then skipWhile (λ c, (c =? 46)%N || is_ws c) (skipWhile is_digit line)
    else line
  | [] => []
  end.

(** The separators of a list field: the comma and the line feed. *)
Definition is_listSep (c : char) : bool := (c =? ch_comma)%N || (c =? ch_lf)%N.

(** The names of a list field: the pieces between commas and line feeds,
    trimmed, the empty ones left out, then without their numbering. *)
Definition parseNameList (s : jsstring) : list jsstring :=
  map stripNumber
      (filter (λ l, l ≠ []) (map trim (splitRuns is_listSep s))).

(** The anonymous field: a count when the trimmed group is all digits,
    names otherwise. *)
Definition parseAnon (group : jsstring) : anonymousSpec :=
  let rawAnon := trim group in
  if nonEmpty rawAnon && forallb is_digit rawAnon
  then AnonCount (Z.of_N (digits_value rawAnon 0))
  else AnonNames (parseNameList group).


(** ** The schedule time of the create command *)

(** At most [k] digits from the start, as many as there are, and the
    rest. *)
Fixpoint takeDigits (k : nat) (s : jsstring) : jsstring * jsstring :=
  match k, s with
  | S k', c :: s' =>
    if is_digit c then (c :: (takeDigits k' s').1, (takeDigits k' s').2)
    else ([], s)
  | _, _ => ([], s)
  end.

Definition is_dateSep (c : char) : bool := (c =? 45)%N || (c =? 47)%N.

(** The number that [parseInt] reads from a run of digits. *)
Definition digitsZ (s : jsstring) : Z := Z.of_N (digits_value s 0).

(** The date and time pattern at the start of [s]: four digits, a
    separator, one or two digits, a separator, one or two digits, white
    space, one or two digits, a colon, two digits. *)
Definition dateTimeAt (s : jsstring) : option (Z * Z * Z * Z * Z) :=
  let '(y, r1) := takeDigits 4 s in
  if negb (length y =? 4)%nat then None else
  match r1 with
  | c1 :: r2 =>
    if negb (is_dateSep c1) then None else
    let '(mo, r3) := takeDigits 2 r2 in
    if negb (nonEmpty mo) then None else
    match r3 with
    | c2 :: r4 =>
      if negb (is_dateSep c2) then None else
      let '(d, r5) := takeDigits 2 r4 in
      if negb (nonEmpty d) then None else
      let r6 := trimStart r5 in
      if negb (length r6 <? length r5)%nat then None else
      let '(h, r7) := takeDigits 2 r6 in
      if negb (nonEmpty h) then None else
      match r7 with
      | c3 :: r8 =>
        if negb (c3 =? 58)%N then None else
        let '(mi, _) := takeDigits 2 r8 in
        if negb (length mi =? 2)%nat then None
        else Some (digitsZ y, digitsZ mo, digitsZ d, digitsZ h, digitsZ mi)
      | [] => None
      end
    | [] => None
    end
  | [] => None
  end.

(** [raw.match(...)]: the leftmost position at which the pattern
    matches. *)
Fixpoint dateTimeMatch (s : jsstring) : option (Z * Z * Z * Z * Z) :=
  match dateTimeAt s with
  | Some r => Some r
  | None =>
    match s with
    | [] => None
    | _ :: s' => dateTimeMatch s'
    end
  end.

(** [Date.UTC] as the language defines it, for whole numbers: the day
    number of the first day of a year, the leap years, the day on which a
    month starts, and the day number of a date whose month and day may lie
    outside their usual range. *)
Definition dayFromYear (y : Z) : Z :=
  365 * (y - 1970) + (y - 1969) / 4 - (y - 1901) / 100 + (y - 1601) / 400.

Definition isLeapYear (y : Z) : bool :=
  ((y mod 4 =? 0) && negb (y mod 100 =? 0) || (y mod 400 =? 0))%Z.

Definition monthStart (leap : bool) (m : Z) : Z :=
  nth (Z.to_nat m) [0; 31; 59; 90; 120; 151; 181; 212; 243; 273; 304; 334]%Z 0%Z
  + (if leap && (2 <=? m)%Z then 1 else 0).

Definition makeDay (year month date : Z) : Z :=
  let ym := (year + month / 12)%Z in
  let mn := (month mod 12)%Z in
  dayFromYear ym + monthStart (isLeapYear ym) mn + date - 1.

Definition dateUTC (year month date hours minutes : Z) : Z :=
  let yr := if (0 <=? year)%Z && (year <=? 99)%Z then (1900 + year)%Z else year in
  makeDay yr month date * 86400000 + hours * 3600000 + minutes * 60000.

(** The schedule of a time field. The date and time of the pattern are
    read as Taipei time; a text without the pattern goes to [Date.parse],
    which is given as [dateParse] ([None] for [NaN]), first as it is, then
    with every hyphen turned into a slash. *)
Definition parseSchedule (dateParse : jsstring → option Z) (group : jsstring)
    : option (Z * jsstring) :=
  let raw := trim group in
  match dateTimeMatch raw with
  | Some (year, month, day, hours, minutes) =>
    Some (dateUTC year (month - 1) day hours minutes - 8 * 60 * 60 * 1000, raw)%Z
  | None =>
    match dateParse raw with
    | Some ts => Some (ts, raw)
    | None =>
      match dateParse (map (λ c, if (c =? 45)%N then 47%N else c) raw) with
      | Some ts => Some (ts, raw)
      | None => None
      end
    end
  end.

(** ** From the text to the fields *)

(** The fields of the create command; the list field is looked for in
    the text without the anonymous field. *)
Definition parseCreate (dateParse : jsstring → option Z) (text : jsstring)
    : CreateFields :=
  let titleMatch := fieldMatch (lit "標題") untilClose text in
  let limitMatch := fieldMatch (lit "人數") digitsThenClose text in
  let backupMatch := fieldMatch (lit "候補") digitsThenClose text in
  let anonMatch := fieldMatch (lit "匿名名單") untilClose text in
  let timeMatch := fieldMatch (lit "時間") untilClose text in
  let textForList := match anonMatch with
                     | Some (whole, _) => removeFirst whole text
                     | None => text
                     end in
  let listMatch := fieldMatch (lit "名單") untilClose textForList in
  {| c_title := (λ m, trim m.2) <$> titleMatch;
     c_limit := limitMatch ≫= (λ m, parseInt m.2);
     c_backup := backupMatch ≫= (λ m, parseInt m.2);
     c_list := (λ m, parseNameList m.2) <$> listMatch;
     c_anon := (λ m, parseAnon m.2) <$> anonMatch;
     c_schedule := timeMatch ≫= (λ m, parseSchedule dateParse m.2) |}.

(** The fields of the modify command. *)
Definition parseModify (text : jsstring) : ModifyFields :=
  let titleMatch := fieldMatch (lit "標題") untilClose text in
  let limitMatch := fieldMatch (lit "人數") digitsThenClose text in
  let backupMatch := fieldMatch (lit "候補") digitsThenClose text in
  let listMatch := fieldMatch (lit "名單") untilClose text in
  {| m_title := (λ m, trim m.2) <$> titleMatch;
     m_limit := limitMatch ≫= (λ m, parseInt m.2);
     m_backup := backupMatch ≫= (λ m, parseInt m.2);
     m_list := (λ m, parseNameList (trim m.2)) <$> listMatch |}.

(** ** The braced parameters of the section command: [getParams] *)

(** After an opening brace: the text up to the next closing brace, with
    no line terminator before it. *)
Fixpoint untilBrace (s : jsstring) : option (jsstring * jsstring) :=
  match s with
  | [] => None
  | c :: s' =>
    if (c =? 125)%N then Some ([], s')
    else if is_line_terminator c then None
    else match untilBrace s' with
         | Some (b, r) => Some (c :: b, r)
         | None => None
         end
  end.

(** The lazy group of one or more characters: the first one is taken
    whatever it is (a line terminator apart), then the text up to the
    next closing brace. *)
Definition paramAt (s : jsstring) : option (jsstring * jsstring) :=
  match s with
  | c :: s' =>
    if is_line_terminator c then None
    else match untilBrace s' with
         | Some (b, r) => Some (c :: b, r)
         | None => None
         end
  | [] => None
  end.

(** All the matches from the left, each search starting where the last
    match ended. *)
Fixpoint getParams_from (fuel : nat) (s : jsstring) : list jsstring :=
  match fuel, s with
  | S f, c :: s' =>
    if (c =? 123)%N then
      match paramAt s' with
      | Some (g, rest) => g :: getParams_from f rest
      | None => getParams_from f s'
      end
    else getParams_from f s'
  | _, _ => []
  end.

Definition getParams (str : jsstring) : list jsstring :=
  getParams_from (length str) str.

(** ** Predicates of the statements about the patterns *)

(** A name that a numbered line gives back: not empty, no white space at
    either end, no comma, no line feed, no dot at its start. *)
Definition listable (n : jsstring) : Prop :=
  n ≠ [] ∧ clean_edges n ∧ (ch_comma ∉ n) ∧ (ch_lf ∉ n) ∧ head n ≠ Some 46%N.

(** What may stand between a key word and its opening brace: white
    space, at most one colon, white space. *)
Definition is_fieldSep (sep : jsstring) : bool :=
  match trimStart sep with
  | [] => true
  | c :: r => is_colon c && forallb is_ws r
  end.

(** The word [key] starts at none of the first [k] positions of [s]. *)
Definition no_occurrence (key : jsstring) (k : nat) (s : jsstring) : Prop :=
  ∀ i, (i < k)%nat → is_prefix key (drop i s) = false.

(** A parameter in its braces, and a text that can be written so: not
    empty, no closing brace and no line terminator in it. *)
Definition braced (p : jsstring) : jsstring := 123%N :: p ++ [125%N].

Definition param_ok (p : jsstring) : Prop :=
  p ≠ [] ∧ Forall (λ c, c ≠ 125%N ∧ is_line_terminator c = false) p.

(** A run of digits of a length between two bounds. *)
Definition digitText (lo hi : nat) (s : jsstring) : Prop :=
  (lo ≤ length s ≤ hi)%nat ∧ Forall (λ c, is_digit c = true) s.

(** ** The start of the minute check: [startMinuteCheck] *)

(** [getSeconds] and [getMilliseconds] of a time in milliseconds; the
    offset of the local time is taken to be a whole number of minutes. *)
Definition getSeconds (t : Z) : Z := ((t / 1000) mod 60)%Z.
Definition getMilliseconds (t : Z) : Z := (t mod 1000)%Z.

Definition msUntilNextMinute (t : Z) : Z :=
  ((60 - getSeconds t) * 1000 - getMilliseconds t)%Z.

(** The delay of the first check when the function runs at time [t]. *)
Definition minuteCheckDelay (t : Z) : Z :=
  if (0 <? msUntilNextMinute t)%Z then msUntilNextMinute t else (60 * 1000)%Z.

(** A text that the pattern of a field takes whole: it holds no closing
    brace of either width. *)
Definition brace_free (s : jsstring) : Prop := Forall (λ x, is_close x = false) s.

(** A line of the roster without its label and its line feed. *)
Definition rosterLine (i : nat) (n : jsstring) : jsstring :=
  decimal (N.of_nat (i + 1)) ++ lit ". " ++ n.

(** * Properties *)

(** *** Facts on the CSV field functions *)

Section CsvFacts.

Lemma parse_plain_field (f t cur : jsstring) (res : list jsstring) :
  needs_quoting f = false →
  parseCsvLine_loop (f ++ t) cur false res
  = parseCsvLine_loop t (cur ++ f) false res.
Proof.
  revert cur. induction f as [|c f IH]; intros cur Hq; simpl.
  - by rewrite app_nil_r.
  - simpl in Hq. apply orb_false_elim in Hq as [Hc Hf].
    repeat (apply orb_false_elim in Hc as [Hc ?]).
    rewrite H1, Hc. rewrite IH by done. by rewrite <- app_assoc.
Qed.

Lemma parse_quoted_body (f t cur : jsstring) (res : list jsstring) :
  field_end t →
  parseCsvLine_loop (double_quotes f ++ ch_quote :: t) cur true res
  = parseCsvLine_loop t (cur ++ f) false res.
Proof.
  intros Ht. revert cur. induction f as [|c f IH]; intros cur.
  - rewrite app_nil_r. destruct Ht as [->|[t' ->]]; reflexivity.
  - cbn [double_quotes flat_map]. fold (double_quotes f).
    destruct (N.eqb_spec c ch_quote) as [->|Hc].
    + cbn -[double_quotes]. rewrite IH. by rewrite <- app_assoc.
    + cbn -[double_quotes]. apply N.eqb_neq in Hc. rewrite Hc.
      rewrite IH. by rewrite <- app_assoc.
Qed.

Lemma parse_escaped_field (f t cur : jsstring) (res : list jsstring) :
  field_end t →
  parseCsvLine_loop (csvEscape f ++ t) cur false res
  = parseCsvLine_loop t (cur ++ f) false res.
Proof.
  intros Ht. unfold csvEscape. destruct (needs_quoting f) eqn:Hq.
  - cbn -[double_quotes]. rewrite <- app_assoc. cbn -[double_quotes].
    by apply parse_quoted_body.
  - by apply parse_plain_field.
Qed.

(** A whole row of escaped fields parses back to the fields. *)
Lemma parse_escaped_row (fs : list jsstring) (f : jsstring) (res : list jsstring) :
  parseCsvLine_loop (join [ch_comma] (map csvEscape (f :: fs))) [] false res
  = res ++ f :: fs.
Proof.
  revert f res. induction fs as [|g fs IH]; intros f res.
  - cbn [map join]. rewrite <- (app_nil_r (csvEscape f)).
    rewrite parse_escaped_field by (by left). reflexivity.
  - change (join [ch_comma] (map csvEscape (f :: g :: fs)))
      with (csvEscape f ++ [ch_comma] ++ join [ch_comma] (map csvEscape (g :: fs))).
    rewrite parse_escaped_field by (right; eexists; reflexivity).
    change (parseCsvLine_loop
              (join [ch_comma] (map csvEscape (g :: fs))) [] false (res ++ [f])
            = res ++ f :: g :: fs).
    rewrite IH. by rewrite <- app_assoc.
Qed.

End CsvFacts.

(** C8. Escaping any string (commas, double quotes and line breaks
    included) as a CSV field with [csvEscape] and parsing the resulting
    one-field line with [parseCsvLine] gives back the string unchanged. *)
Theorem csv_field_round_trip (s : jsstring) :
  parseCsvLine (csvEscape s) = [s].
Proof.
  unfold parseCsvLine.
  exact (parse_escaped_row [] s []).
Qed.


(** ** The sigil forms of join and leave *)

Section SigilFacts.




End SigilFacts.



(** ** Rendering *)

Section RenderFacts.

Lemma isAnon_placeholder (g : Game) : isAnon g ANON = true.
Proof. unfold isAnon. by rewrite bool_decide_eq_true_2. Qed.

Lemma isAnon_false_inv (g : Game) (n : jsstring) :
  isAnon g n = false → n ≠ ANON ∧ includes (anonymous g) n = false.
Proof.
  unfold isAnon. intros H. apply orb_false_elim in H as [H1 H2].
  split; [by apply bool_decide_eq_false in H1 | done].
Qed.

Lemma isAnon_real (g : Game) (n : jsstring) :
  anonymous g = [] → n ≠ ANON → isAnon g n = false.
Proof.
  intros Ha Hn. unfold isAnon, includes. rewrite Ha.
  rewrite bool_decide_eq_false_2 by done.
  apply bool_decide_eq_false_2. apply not_elem_of_nil.
Qed.

Lemma confirmedLine_filled (g : Game) (sec : Section) (i : nat) (name : jsstring) :
  s_list sec !! i = Some name →
  confirmedLine g sec i
  = if isAnon g name && isAnonAt g (s_list sec) (i + 1) then None
    else Some (s_label sec ++ decimal (N.of_nat (i + 1)) ++ lit ". "
               ++ (if isAnon g name then lit "***" else name) ++ nl).
Proof. intros H. unfold confirmedLine. by rewrite H. Qed.

End RenderFacts.

(** C5. In the confirmed loop of the rendering, the entry at index [i] is
    left out exactly when it is anonymous and the entry at index [i + 1]
    is anonymous too (the entry before it plays no part); an entry that is
    printed carries the number [i + 1] of its own array index, and an
    anonymous one is printed as three asterisks. For the list A, placeholder,
    placeholder, B with capacity 4 the lines are number 1 with A, number 3
    with the mask, number 4 with B. *)
Theorem fold_rule (g : Game) (sec : Section) (i : nat) (name : jsstring) :
  s_list sec !! i = Some name →
  (confirmedLine g sec i = None
   ↔ isAnon g name = true ∧ isAnonAt g (s_list sec) (i + 1) = true)
  ∧ (∀ line, confirmedLine g sec i = Some line →
       line = s_label sec ++ decimal (N.of_nat (i + 1)) ++ lit ". "
              ++ (if isAnon g name then lit "***" else name) ++ nl)
  ∧ (∀ (A B T L : jsstring) (backup : Z),
       isAnon g A = false → isAnon g B = false →
       confirmedBlock g (mkSection T 4 backup L [A; ANON; ANON; B])
       = (L ++ lit "1. " ++ A ++ nl) ++ (L ++ lit "3. ***" ++ nl)
         ++ (L ++ lit "4. " ++ B ++ nl)).
Proof.
  intros Hi. rewrite (confirmedLine_filled g sec i name Hi).
  split; [|split].
  - destruct (isAnon g name), (isAnonAt g (s_list sec) (i + 1)); simpl;
      split; try done; intros [? ?]; done.
  - intros line.
    destruct (isAnon g name && isAnonAt g (s_list sec) (i + 1)); [done|].
    by intros [= <-].
  - intros A B T L backup HA HB.
    unfold confirmedBlock, confirmedLine, isAnonAt. cbn [s_limit s_list s_label].
    change (Z.to_nat 4) with 4%nat. cbn [seq map concat lookup list_lookup Nat.add].
    rewrite !isAnon_placeholder, HA, HB. cbn [andb default].
    change (Z.of_nat 0 =? 4 - 1)%Z with false.
    unfold numberedLine. cbn -[ANON].
    rewrite <- !app_assoc. cbn. reflexivity.
Qed.

(** C5, witness: the second placeholder of the example list is printed,
    the first one is not. *)
Lemma fold_rule_witness :
  confirmedLine (mkGame [] [] true 0 0 SchedNone None [] 0
                   (mkSection [] 4 0 [] [lit "A"; ANON; ANON; lit "B"]) [])
                (mkSection [] 4 0 [] [lit "A"; ANON; ANON; lit "B"]) 1 = None.
Proof.
  apply (fold_rule _ (mkSection [] 4 0 [] [lit "A"; ANON; ANON; lit "B"]) 1 ANON).
  - reflexivity.
  - split; reflexivity.
Defined.

(** ** The world under the helpers of the handlers *)

Section WorldFacts.

Lemma games_emit (e : event) (w : World) : games (emit e w) = games w.
Proof. reflexivity. Qed.

Lemma trace_emit (e : event) (w : World) : trace (emit e w) = trace w ++ [e].
Proof. reflexivity. Qed.

Lemma games_saveGame (gid : jsstring) (w : World) :
  games (saveGame gid w) = games w.
Proof. unfold saveGame. by destruct (games w !! gid). Qed.

Lemma games_snapshot (w : World) : games (saveCurrentListSnapshot w) = games w.
Proof. reflexivity. Qed.

Lemma games_sendListReply (gid prefix : jsstring) (w : World) :
  games (sendListReply gid prefix w) = games w.
Proof. unfold sendListReply. by destruct (games w !! gid). Qed.

Lemma games_sendListPush (env : Env) (gid prefix : jsstring) (w : World) :
  games (sendListPush env gid prefix w) = games w.
Proof. unfold sendListPush. by destruct (games w !! gid). Qed.

Lemma saveGame_found (gid : jsstring) (g : Game) (w : World) :
  games w !! gid = Some g → saveGame gid w = emit (EvSaveGame gid g) w.
Proof. intros H. unfold saveGame. by rewrite H. Qed.

Lemma sendListReply_found (gid prefix : jsstring) (g : Game) (w : World) :
  games w !! gid = Some g →
  sendListReply gid prefix w = emit (EvReply (renderList g prefix)) w.
Proof. intros H. unfold sendListReply. by rewrite H. Qed.

Lemma sendListPush_found (env : Env) (gid prefix : jsstring) (g : Game) (w : World) :
  games w !! gid = Some g →
  sendListPush env gid prefix w
  = emit (EvPush gid (renderList g prefix) (pushDelivered env gid)) w.
Proof. intros H. unfold sendListPush. by rewrite H. Qed.

End WorldFacts.

(** ** Removal from a list *)

Section RemovalFacts.

Lemma remove_first_absent (x : jsstring) (l : list jsstring) :
  x ∉ l → remove_first x l = l.
Proof.
  induction l as [|y l IH]; [done|]. intros Hx.
  apply not_elem_of_cons in Hx as [Hne Hx]. simpl.
  rewrite decide_False by done. by rewrite IH.
Qed.

Lemma remove_first_middle (x : jsstring) (l1 l2 : list jsstring) :
  x ∉ l1 → remove_first x (l1 ++ x :: l2) = l1 ++ l2.
Proof.
  induction l1 as [|y l1 IH]; intros Hx; simpl.
  - by rewrite decide_True.
  - apply not_elem_of_cons in Hx as [Hne Hx].
    rewrite decide_False by done. by rewrite IH.
Qed.

Lemma remove_last_middle (x : jsstring) (l1 l2 : list jsstring) :
  x ∉ l2 → remove_last x (l1 ++ x :: l2) = l1 ++ l2.
Proof.
  intros Hx. unfold remove_last.
  rewrite rev_app_distr. simpl. rewrite <- app_assoc. simpl.
  rewrite remove_first_middle.
  - by rewrite rev_app_distr, !rev_involutive.
  - intros Hin. apply Hx. apply list_elem_of_In, in_rev. by apply list_elem_of_In.
Qed.

Lemma remove_last_absent (x : jsstring) (l : list jsstring) :
  x ∉ l → remove_last x l = l.
Proof.
  intros Hx. unfold remove_last. rewrite remove_first_absent.
  - apply rev_involutive.
  - intros Hin. apply Hx. apply list_elem_of_In, in_rev. by apply list_elem_of_In.
Qed.

Lemma filter_absent (x : jsstring) (l : list jsstring) :
  x ∉ l → filter (λ y, y ≠ x) l = l.
Proof.
  induction l as [|y l IH]; [done|]. intros Hx.
  apply not_elem_of_cons in Hx as [Hne Hx].
  rewrite filter_cons_True by done. by rewrite IH.
Qed.

Lemma realNames_elem (x : jsstring) (l : list jsstring) :
  x ∈ realNames l ↔ x ≠ ANON ∧ x ∈ l.
Proof. unfold realNames. by rewrite list_elem_of_filter. Qed.

Lemma distinct_names_cons (y : jsstring) (l : list jsstring) :
  distinct_names (y :: l) → distinct_names l ∧ (y ≠ ANON → y ∉ l).
Proof.
  unfold distinct_names, realNames. intros H.
  destruct (decide (y = ANON)) as [->|Hy].
  - rewrite filter_cons_False in H by (intros ?; done). split; [done|]. done.
  - rewrite filter_cons_True in H by done.
    apply NoDup_cons in H as [Hnot Hnd]. split; [done|].
    intros _ Hin. apply Hnot. by apply list_elem_of_filter.
Qed.

(** Under the invariant, removing the first occurrence of a real name
    removes the name, and nothing else moves. *)
Lemma remove_first_filter (x : jsstring) (l : list jsstring) :
  x ≠ ANON → distinct_names l →
  remove_first x l = filter (λ y, y ≠ x) l.
Proof.
  intros Hx. induction l as [|y l IH]; [done|]. intros Hd.
  apply distinct_names_cons in Hd as [Hd Hy]. simpl.
  destruct (decide (y = x)) as [->|Hne].
  - rewrite filter_cons_False by (intros ?; done).
    symmetry. apply filter_absent. by apply Hy.
  - rewrite filter_cons_True by done. by rewrite IH.
Qed.

Lemma remove_first_distinct (x : jsstring) (l : list jsstring) :
  distinct_names l → distinct_names (remove_first x l).
Proof.
  induction l as [|y l IH]; [done|]. intros Hd.
  pose proof (distinct_names_cons _ _ Hd) as [Hl Hy]. simpl.
  destruct (decide (y = x)); [done|].
  unfold distinct_names, realNames in *.
  destruct (decide (y = ANON)) as [->|Hya].
  - rewrite filter_cons_False by (intros ?; done). by apply IH.
  - rewrite filter_cons_True by done. apply NoDup_cons. split; [|by apply IH].
    intros Hin. apply list_elem_of_filter in Hin as [_ Hin].
    apply (Hy Hya). clear -Hin. induction l as [|z l IH]; [by apply elem_of_nil in Hin|].
    simpl in Hin. destruct (decide (z = x)).
    + by apply elem_of_cons; right.
    + apply elem_of_cons in Hin as [->|Hin]; [by left | right; by apply IH].
Qed.

End RemovalFacts.

(** ** Leave *)

Section LeaveFacts.

Lemma alter_found {A} (f : A → A) (k : jsstring) (m : gmap jsstring A) (x : A) :
  m !! k = Some x → alter f k m = <[k := f x]> m.
Proof.
  intros H. apply map_eq. intros j.
  destruct (decide (k = j)) as [<-|Hne].
  - by rewrite lookup_alter_eq, lookup_insert_eq, H.
  - by rewrite lookup_alter_ne, lookup_insert_ne.
Qed.

Lemma truthy_str_true (s : jsstring) : s ≠ [] → truthy_str s = true.
Proof. by destruct s. Qed.

(** What [handleLeave] does on an open, active game when a name is given:
    the registry after, and the three effects. *)
Lemma handleLeave_named (env : Env) (gid uid removeName : jsstring)
    (w : World) (g : Game) :
  games w !! gid = Some g → active g = true → notYetOpen env g = None →
  removeName ≠ [] →
  let g' := if str_includes str_anonymous removeName
            then removeAnon g else removeFromList removeName g in
  let gs' := <[gid := g']> (games w) in
  games (handleLeave env gid uid removeName w) = gs'
  ∧ trace (handleLeave env gid uid removeName w)
    = trace w ++ [EvSaveGame gid g'; EvSnapshot (snapshotContent gs');
                  EvReply (renderList g' [])].
Proof.
  intros Hg Hact Hopen Hname. cbv zeta.
  unfold handleLeave. rewrite Hg, Hact, Hopen. cbn [negb].
  rewrite (truthy_str_true _ Hname). cbn [negb].
  destruct (str_includes str_anonymous removeName).
  - rewrite (alter_found _ _ _ _ Hg).
    set (w1 := with_games w _).
    assert (H1 : games w1 !! gid = Some (removeAnon g))
      by (unfold w1; cbn; apply lookup_insert_eq).
    rewrite (saveGame_found _ _ _ H1).
    erewrite sendListReply_found by (cbn; apply lookup_insert_eq).
    split; [reflexivity|]. cbn [trace emit saveCurrentListSnapshot games].
    by rewrite <- !app_assoc.
  - rewrite (alter_found _ _ _ _ Hg).
    set (w1 := with_games w _).
    assert (H1 : games w1 !! gid = Some (removeFromList removeName g))
      by (unfold w1; cbn; apply lookup_insert_eq).
    rewrite (saveGame_found _ _ _ H1).
    erewrite sendListReply_found by (cbn; apply lookup_insert_eq).
    split; [reflexivity|]. cbn [trace emit saveCurrentListSnapshot games].
    by rewrite <- !app_assoc.
Qed.

Lemma map_ext_Forall {A B} (f h : A → B) (l : list A) :
  Forall (λ x, f x = h x) l → map f l = map h l.
Proof. induction 1 as [|x l Hx _ IH]; [done|]. simpl. by rewrite Hx, IH. Qed.

Lemma removeFromList_absent (name : jsstring) (g : Game) :
  Forall (λ s, name ∉ s_list s) (sections g) → removeFromList name g = g.
Proof.
  unfold sections. intros H. apply Forall_cons in H as [H0 Hm].
  unfold removeFromList, map_sections.
  assert (Hs : ∀ s, name ∉ s_list s →
                 with_list s (remove_first name (s_list s)) = s).
  { intros s Hn. rewrite remove_first_absent by done. by destruct s. }
  rewrite (Hs _ H0).
  assert (Hmap : map (λ s, with_list s (remove_first name (s_list s)))
                     (moreSections g) = moreSections g).
  { rewrite <- (map_id (moreSections g)) at 2. apply map_ext_Forall.
    eapply Forall_impl; [exact Hm|]. intros s Hn. by apply Hs. }
  rewrite Hmap. by destruct g.
Qed.

End LeaveFacts.

(** C9, as the code has it. On an active game with no schedule still
    ahead, in whose lists no real name stands twice: a leave whose name
    holds the word for anonymous removes from section 0 the last
    placeholder of its list and nothing else (no other entry, no other
    section, no other field), and leaves the game as it is when the list
    has no placeholder, also when that name is itself in a list. A leave
    whose name does not hold that word and is not the placeholder token
    removes that name from the list of every section, and the other
    entries of each list stay in their order. *)
Theorem leave_removal (env : Env) (gid uid removeName : jsstring)
    (w : World) (g : Game) :
  games w !! gid = Some g → active g = true → notYetOpen env g = None →
  removeName ≠ [] → game_distinct g →
  (str_includes str_anonymous removeName = true →
     games (handleLeave env gid uid removeName w) = <[gid := removeAnon g]> (games w)
     ∧ (∀ l1 l2, s_list (section0 g) = l1 ++ ANON :: l2 → ANON ∉ l2 →
          removeAnon g = with_section0 g (with_list (section0 g) (l1 ++ l2)))
     ∧ (ANON ∉ s_list (section0 g) → removeAnon g = g))
  ∧ (str_includes str_anonymous removeName = false → removeName ≠ ANON →
     games (handleLeave env gid uid removeName w)
     = <[gid := removeFromList removeName g]> (games w)
     ∧ sections (removeFromList removeName g)
       = map (λ s, with_list s (filter (λ x, x ≠ removeName) (s_list s)))
             (sections g)).
Proof.
  intros Hg Hact Hopen Hname Hd.
  pose proof (handleLeave_named env gid uid removeName w g Hg Hact Hopen Hname)
    as [Hgames _].
  split.
  - intros Ha. rewrite Ha in Hgames. split; [done|]. split.
    + intros l1 l2 Hl Hl2. unfold removeAnon.
      by rewrite Hl, remove_last_middle.
    + intros Hno. unfold removeAnon. rewrite remove_last_absent by done.
      by destruct g as [? ? ? ? ? ? ? ? ? [] ?].
  - intros Ha Hreal. rewrite Ha in Hgames. split; [done|].
    unfold removeFromList, map_sections, sections in *. cbn.
    apply Forall_cons in Hd as [H0 Hm]. f_equal.
    + by rewrite remove_first_filter.
    + apply map_ext_Forall. eapply Forall_impl; [exact Hm|].
      intros s Hs. cbn beta. by rewrite remove_first_filter.
Qed.

(** C9, witness: a leave of the name b on a game whose two sections both
    list b. *)
Lemma leave_removal_witness :
  games (handleLeave sampleEnv sampleGid sampleUid (lit "b")
           (sampleWorld (sampleGame true SchedNone [lit "a"; ANON; lit "b"]
                           [mkSection [] 10 0 [] [lit "b"; lit "c"]])))
  = <[sampleGid := removeFromList (lit "b")
                     (sampleGame true SchedNone [lit "a"; ANON; lit "b"]
                        [mkSection [] 10 0 [] [lit "b"; lit "c"]])]>
      (games (sampleWorld (sampleGame true SchedNone [lit "a"; ANON; lit "b"]
                             [mkSection [] 10 0 [] [lit "b"; lit "c"]]))).
Proof.
  refine (proj1 (proj2
    (leave_removal sampleEnv sampleGid sampleUid (lit "b")
       (sampleWorld (sampleGame true SchedNone [lit "a"; ANON; lit "b"]
                       [mkSection [] 10 0 [] [lit "b"; lit "c"]]))
       (sampleGame true SchedNone [lit "a"; ANON; lit "b"]
          [mkSection [] 10 0 [] [lit "b"; lit "c"]])
       _ eq_refl eq_refl _ _) eq_refl _)).
  - vm_compute. reflexivity.
  - vm_compute. discriminate.
  - repeat constructor; apply (bool_decide_unpack _); vm_compute; exact I.
  - vm_compute. discriminate.
Defined.

(** C10, counterexample. On a game whose [active] flag is off and which
    has no schedule, a leave of a name that is in no list is answered with
    the error text for an ended game, not with the roster. *)
Lemma leave_on_ended_game :
  notYetOpen sampleEnv (sampleGame false SchedNone [lit "amy"] []) = None
  ∧ (lit "bob" ∉ [lit "amy"])
  ∧ trace (handleLeave sampleEnv sampleGid sampleUid (lit "bob")
             (sampleWorld (sampleGame false SchedNone [lit "amy"] [])))
    = [EvReply msg_ended]
  ∧ msg_ended ≠ renderList (sampleGame false SchedNone [lit "amy"] []) [].
Proof.
  split; [reflexivity|]. split; [|split].
  - apply (bool_decide_unpack _). vm_compute. exact I.
  - vm_compute. reflexivity.
  - vm_compute. discriminate.
Qed.

(** ** Name resolution leaves the roster alone *)

Section NameFacts.

Context (env : Env) (gid uid : jsstring).

Lemma getName_frame (w : World) : same_roster w (getName env gid uid w).2.
Proof.
  unfold getName, same_roster.
  destruct (cachedName _ _ _); [done|]. by destruct (profile env).
Qed.

Lemma joinNames_frame (count : Z) (content : jsstring) (l : list jsstring)
    (w : World) :
  same_roster w (joinNames env gid uid count content l w).2.
Proof.
  unfold joinNames.
  destruct (truthy_str content && str_includes str_anonymous content); [done|].
  destruct (truthy_str content); [done|].
  destruct (count =? 1)%Z; [|done].
  match goal with
  | |- context [let '(_, _) := ?X in _] =>
    assert (HX : same_roster w X.2); [|destruct X as [userName w1]]
  end.
  { destruct (truthy_name _); [done|].
    destruct (uidToNameMap w !! _); [|apply getName_frame].
    destruct (includes l _); [done | apply getName_frame]. }
  cbn [snd] in *. by destruct (truthy_str userName).
Qed.

Lemma leaveSelfName_frame (g : Game) (w : World) :
  same_roster w (leaveSelfName env gid uid g w).2.
Proof.
  unfold leaveSelfName.
  match goal with
  | |- context [let '(_, _) := ?X in _] =>
    assert (HX : same_roster w X.2); [|destruct X as [userName w1]]
  end.
  { pose proof (getName_frame w) as Hn.
    destruct (truthy_name _); [done|].
    destruct (uidToNameMap w !! _).
    - destruct (includes _ _); cbn [negb]; [done|].
      by destruct (getName env gid uid w).
    - by destruct (getName env gid uid w). }
  cbn [snd] in *. destruct (truthy_str userName); [done|].
  pose proof (getName_frame w1) as [H1 H2]. destruct HX as [H3 H4].
  split; congruence.
Qed.

End NameFacts.

(** ** Duplicate names in a batch *)

Section DuplicateFacts.

Lemma existsb_includes (l names : list jsstring) :
  (∃ n, n ∈ names ∧ n ∈ l) → existsb (includes l) names = true.
Proof.
  intros (n & Hn & Hl). apply existsb_exists. exists n. split.
  - by apply list_elem_of_In.
  - unfold includes. by apply bool_decide_eq_true_2.
Qed.

Lemma duplicate_test (l names : list jsstring) :
  has_duplicates names = true ∨ (∃ n, n ∈ names ∧ n ∈ l) →
  existsb (includes l) names || has_duplicates names = true.
Proof.
  intros [H|H].
  - rewrite H. apply orb_true_r.
  - by rewrite existsb_includes.
Qed.

Lemma duplicate_nonempty (l names : list jsstring) :
  has_duplicates (realNames names) = true
  ∨ (∃ n, n ∈ realNames names ∧ n ∈ l) →
  nonEmpty names = true.
Proof.
  destruct names; [|done]. intros [H|(n & Hn & _)].
  - vm_compute in H. discriminate.
  - by apply elem_of_nil in Hn.
Qed.

End DuplicateFacts.

(** C2. When a join brings real names of which one is already in the list
    of section 0, or two are the same, nothing is added: the registry is
    as before and the only effect is one reply, the duplicate error on an
    open active game (an error about the game itself otherwise). The same
    holds for the names of a bulk-list command. *)
Theorem duplicate_batch_rejected (env : Env) (gid uid : jsstring)
    (w : World) (g : Game) :
  games w !! gid = Some g →
  (∀ count content,
     has_duplicates
       (realNames (joinNames env gid uid count content (s_list (section0 g)) w).1)
     = true
     ∨ (∃ n, n ∈ realNames
                   (joinNames env gid uid count content (s_list (section0 g)) w).1
             ∧ n ∈ s_list (section0 g)) →
     games (handleJoin env gid uid count content w) = games w
     ∧ ∃ text,
         trace (handleJoin env gid uid count content w) = trace w ++ [EvReply text]
         ∧ (active g = true → notYetOpen env g = None → text = msg_duplicate))
  ∧ (∀ input, input ≠ lit "#" →
     has_duplicates (tokens is_ws input) = true
     ∨ (∃ n, n ∈ tokens is_ws input ∧ n ∈ s_list (section0 g)) →
     games (handleBulkList gid uid input w) = games w
     ∧ ∃ text,
         trace (handleBulkList gid uid input w) = trace w ++ [EvReply text]
         ∧ (active g = true → text = msg_duplicate)).
Proof.
  intros Hg. split.
  - intros count content Hdup. unfold handleJoin. rewrite Hg.
    destruct (active g) eqn:Hact; cbn [negb].
    2: { split; [done|]. eexists. split; [reflexivity|done]. }
    destruct (notYetOpen env g) as [t|] eqn:Hopen.
    { split; [done|]. eexists. split; [reflexivity|done]. }
    destruct (joinNames env gid uid count content (s_list (section0 g)) w)
      as [namesToAdd w1] eqn:Hj.
    cbn [fst] in Hdup.
    rewrite (duplicate_nonempty _ _ Hdup), (duplicate_test _ _ Hdup). cbn [andb].
    assert (Hw1 : same_roster w w1).
    { pose proof (joinNames_frame env gid uid count content
                    (s_list (section0 g)) w) as H. by rewrite Hj in H. }
    destruct Hw1 as [Hgs Htr]. split; [done|].
    exists msg_duplicate. cbn [trace emit]. by rewrite Htr.
  - intros input Hin Hdup. unfold handleBulkList.
    destruct (decide (input = [])) as [->|Hne].
    { exfalso. destruct Hdup as [H|(n & Hn & _)].
      - vm_compute in H. discriminate.
      - by apply elem_of_nil in Hn. }
    rewrite !bool_decide_eq_false_2 by done. cbn [orb]. rewrite Hg.
    destruct (active g) eqn:Hact; cbn [negb].
    2: { split; [done|]. eexists. split; [reflexivity|done]. }
    rewrite (duplicate_test _ _ Hdup).
    split; [done|]. eexists. split; [reflexivity|done].
Qed.

(** C2, witness: a join of two equal names. *)
Lemma duplicate_batch_rejected_witness :
  games (handleJoin sampleEnv sampleGid sampleUid 2 (lit "amy amy")
           (sampleWorld (sampleGame true SchedNone [lit "bob"] [])))
  = games (sampleWorld (sampleGame true SchedNone [lit "bob"] [])).
Proof.
  refine (proj1 (proj1
    (duplicate_batch_rejected sampleEnv sampleGid sampleUid
       (sampleWorld (sampleGame true SchedNone [lit "bob"] []))
       (sampleGame true SchedNone [lit "bob"] []) _) 2%Z (lit "amy amy") _)).
  - vm_compute. reflexivity.
  - left. vm_compute. reflexivity.
Defined.

(** ** The reminder scan *)

Section ScanFacts.

Context (env : Env).

Lemma world_eta (w : World) :
  mkWorld (games w) (userNameCache w) (uidToNameMap w) (firstUseGroups w) (trace w) = w.
Proof. by destruct w. Qed.

(** One turn of the scan as an update of the visited game and an
    extension of the trace. *)
Lemma checkSchedule_step (gid : jsstring) (g : Game) (w : World) :
  games w !! gid = Some g →
  checkSchedule env gid w
  = mkWorld (<[gid := (scheduleStep env gid g).1]> (games w))
            (userNameCache w) (uidToNameMap w) (firstUseGroups w)
            (trace w ++ (scheduleStep env gid g).2).
Proof.
  intros Hg. unfold checkSchedule, scheduleStep. rewrite Hg.
  destruct (scheduleTime g) as [|t|] eqn:Hs; cbn [truthy_schedule negb fst snd].
  - rewrite insert_id by done. rewrite app_nil_r. by rewrite world_eta.
  - destruct (t =? 0)%Z eqn:Ht; cbn [negb andb fst snd].
    { rewrite insert_id by done. rewrite app_nil_r. by rewrite world_eta. }
    destruct (t <=? now env)%Z; cbn [fst snd].
    + set (w1 := with_games w _).
      assert (H1 : games w1 !! gid = Some (with_schedule g SchedNone))
        by (unfold w1; cbn; apply lookup_insert_eq).
      rewrite (saveGame_found _ _ _ H1).
      erewrite sendListPush_found by (cbn; exact H1).
      unfold emit, w1, with_games.
      cbn [games userNameCache uidToNameMap firstUseGroups trace].
      by rewrite <- app_assoc.
    + rewrite insert_id by done. rewrite app_nil_r. by rewrite world_eta.
  - set (w1 := with_games w _).
    assert (H1 : games w1 !! gid = Some (with_schedule g SchedNone))
      by (unfold w1; cbn; apply lookup_insert_eq).
    rewrite (saveGame_found _ _ _ H1). reflexivity.
Qed.

Lemma checkSchedule_absent (gid : jsstring) (w : World) :
  games w !! gid = None → checkSchedule env gid w = w.
Proof. intros H. unfold checkSchedule. by rewrite H. Qed.

Lemma scheduleStep_events (gid gid' : jsstring) (g : Game) :
  eventsFor gid (scheduleStep env gid' g).2
  = if decide (gid = gid') then (scheduleStep env gid' g).2 else [].
Proof.
  unfold scheduleStep, eventsFor.
  destruct (scheduleTime g) as [|t|]; cbn [snd].
  - by destruct (decide _).
  - destruct (negb (t =? 0)%Z && (t <=? now env)%Z); cbn [snd];
      [|by destruct (decide _)].
    destruct (decide (gid = gid')) as [->|Hne].
    + rewrite !filter_cons_True by done. done.
    + rewrite !filter_cons_False by (cbn; congruence). done.
  - destruct (decide (gid = gid')) as [->|Hne].
    + rewrite !filter_cons_True by done. done.
    + rewrite !filter_cons_False by (cbn; congruence). done.
Qed.

(** The whole scan over a list of distinct conversation ids: every game
    of the list gets its turn once, against the state it had before the
    scan, and the events about one conversation are those of its turn. *)
Lemma scan_fold (l : list jsstring) :
  NoDup l → ∀ w : World,
  let w' := foldl (λ w gid, checkSchedule env gid w) w l in
  (∀ gid, games w' !! gid
          = (λ g, if decide (gid ∈ l) then (scheduleStep env gid g).1 else g)
            <$> games w !! gid)
  ∧ ∃ new, trace w' = trace w ++ new
           ∧ ∀ gid, eventsFor gid new
                    = match games w !! gid with
                      | Some g => if decide (gid ∈ l)
                                  then (scheduleStep env gid g).2 else []
                      | None => []
                      end.
Proof.
  induction l as [|a l IH]; intros Hnd w; cbn zeta.
  - split.
    + intros gid. cbn [foldl]. destruct (games w !! gid); [|done].
      unfold fmap, option_fmap, option_map.
      by rewrite decide_False by apply not_elem_of_nil.
    + exists []. split; [by rewrite app_nil_r|]. intros gid.
      destruct (games w !! gid); [|done].
      by rewrite decide_False by apply not_elem_of_nil.
  - apply NoDup_cons in Hnd as [Ha Hnd]. cbn [foldl].
    specialize (IH Hnd (checkSchedule env a w)). cbn zeta in IH.
    destruct IH as [IHg (new' & IHt & IHe)].
    destruct (games w !! a) as [ga|] eqn:Hga.
    + rewrite (checkSchedule_step a ga w Hga) in IHg, IHt, IHe |- *.
      cbn [games trace] in IHg, IHt, IHe.
      split.
      * intros gid. rewrite IHg.
        destruct (decide (gid = a)) as [->|Hne].
        -- rewrite lookup_insert_eq, Hga. cbn.
           rewrite decide_False by done.
           by rewrite decide_True by (left).
        -- rewrite lookup_insert_ne by done.
           destruct (games w !! gid); [|done]. cbn.
           destruct (decide (gid ∈ l)).
           ++ by rewrite decide_True by (by right).
           ++ rewrite decide_False; [done|].
              intros Hin. apply elem_of_cons in Hin as [?|?]; done.
      * exists ((scheduleStep env a ga).2 ++ new'). split.
        { by rewrite IHt, <- app_assoc. }
        intros gid. unfold eventsFor in *. rewrite filter_app.
        fold (eventsFor gid (scheduleStep env a ga).2).
        rewrite scheduleStep_events, IHe.
        destruct (decide (gid = a)) as [->|Hne].
        -- rewrite lookup_insert_eq, Hga.
           rewrite decide_False by done.
           rewrite decide_True by (left). by rewrite app_nil_r.
        -- rewrite lookup_insert_ne by done.
           destruct (games w !! gid); [|done]. cbn.
           destruct (decide (gid ∈ l)).
           ++ by rewrite decide_True by (by right).
           ++ rewrite decide_False; [done|].
              intros Hin. apply elem_of_cons in Hin as [?|?]; done.
    + rewrite (checkSchedule_absent a w Hga) in IHg, IHt, IHe |- *.
      assert (Hcase : ∀ gid (g : Game), games w !! gid = Some g →
                (gid ∈ a :: l) ↔ (gid ∈ l)).
      { intros gid g Hg. split; [|by right].
        intros Hin. apply elem_of_cons in Hin as [->|?]; [congruence|done]. }
      split.
      * intros gid. rewrite IHg.
        destruct (games w !! gid) as [g|] eqn:Hg; [|done]. cbn.
        destruct (decide (gid ∈ l)) as [Hl|Hl].
        -- by rewrite decide_True by (by right).
        -- rewrite decide_False; [done|]. by rewrite (Hcase gid g Hg).
      * exists new'. split; [done|]. intros gid. rewrite IHe.
        destruct (games w !! gid) as [g|] eqn:Hg; [|done].
        destruct (decide (gid ∈ l)) as [Hl|Hl].
        -- by rewrite decide_True by (by right).
        -- rewrite decide_False; [done|]. by rewrite (Hcase gid g Hg).
Qed.

Lemma checkSchedules_spec (w : World) :
  (∀ gid, games (checkSchedules env w) !! gid
          = (λ g, (scheduleStep env gid g).1) <$> games w !! gid)
  ∧ ∃ new, trace (checkSchedules env w) = trace w ++ new
           ∧ ∀ gid, eventsFor gid new
                    = match games w !! gid with
                      | Some g => (scheduleStep env gid g).2
                      | None => []
                      end.
Proof.
  unfold checkSchedules.
  pose proof (scan_fold (map fst (map_to_list (games w)))
                (NoDup_fst_map_to_list _) w) as [Hg (new & Ht & He)].
  assert (Hin : ∀ gid (g : Game), games w !! gid = Some g →
            gid ∈ map fst (map_to_list (games w))).
  { intros gid g H. apply list_elem_of_fmap. exists (gid, g).
    split; [done|]. by apply elem_of_map_to_list. }
  split.
  - intros gid. rewrite Hg. destruct (games w !! gid) as [g|] eqn:E; [|done].
    cbn. by rewrite decide_True by (by eapply Hin).
  - exists new. split; [done|]. intros gid. rewrite He.
    destruct (games w !! gid) as [g|] eqn:E; [|done].
    by rewrite decide_True by (by eapply Hin).
Qed.

End ScanFacts.




(** ** The invariant on names *)

Section InvariantFacts.

Lemma no_duplicates (l : list jsstring) : has_duplicates l = false → NoDup l.
Proof.
  unfold has_duplicates. intros H. apply negb_false_iff in H.
  by apply bool_decide_eq_true in H.
Qed.

Lemma distinct_names_nil : distinct_names [].
Proof. apply NoDup_nil_2. Qed.

Lemma distinct_names_NoDup (l : list jsstring) : NoDup l → distinct_names l.
Proof. intros H. by apply NoDup_filter. Qed.

Lemma distinct_names_snoc (l : list jsstring) (n : jsstring) :
  distinct_names l → n = ANON ∨ n ∉ l → distinct_names (l ++ [n]).
Proof.
  unfold distinct_names, realNames. intros Hd Hn. rewrite filter_app.
  destruct (decide (n = ANON)) as [->|Hne].
  - rewrite filter_cons_False by (intros ?; done). by rewrite app_nil_r.
  - destruct Hn as [?|Hn]; [done|].
    rewrite filter_cons_True by done. cbn.
    apply NoDup_app. split; [done|]. split.
    + intros x Hx Hx'. apply list_elem_of_singleton in Hx' as ->.
      apply list_elem_of_filter in Hx as [_ Hx]. done.
    + apply NoDup_singleton.
Qed.

Lemma remove_last_distinct (l : list jsstring) :
  distinct_names l → distinct_names (remove_last ANON l).
Proof.
  intros Hd.
  destruct (decide (ANON ∈ l)) as [Hin|Hout].
  - assert (∃ l1 l2, l = l1 ++ ANON :: l2 ∧ ANON ∉ l2) as (l1 & l2 & -> & H2).
    { clear Hd. induction l as [|y l IH]; [by apply elem_of_nil in Hin|].
      destruct (decide (ANON ∈ l)) as [Hl|Hl].
      - destruct (IH Hl) as (l1 & l2 & -> & H2). by exists (y :: l1), l2.
      - apply elem_of_cons in Hin as [<-|?]; [|done]. by exists [], l. }
    rewrite remove_last_middle by done.
    unfold distinct_names, realNames in *.
    rewrite filter_app in *.
    by rewrite filter_cons_False in Hd by (intros ?; done).
  - by rewrite remove_last_absent.
Qed.

Lemma game_distinct_intro (g : Game) :
  distinct_names (s_list (section0 g)) →
  Forall (λ s, distinct_names (s_list s)) (moreSections g) →
  game_distinct g.
Proof. intros. by apply Forall_cons. Qed.

Lemma game_distinct_inv (g : Game) :
  game_distinct g →
  distinct_names (s_list (section0 g))
  ∧ Forall (λ s, distinct_names (s_list s)) (moreSections g).
Proof. intros H. by apply Forall_cons in H. Qed.

Lemma addToList_distinct (n : jsstring) (g : Game) :
  game_distinct g → game_distinct (addToList 0 n g).
Proof.
  intros Hd. apply game_distinct_inv in Hd as [H0 Hm].
  unfold addToList, sectionAt, sections. cbn [lookup list_lookup].
  destruct (bool_decide (n = ANON)) eqn:Ha.
  - apply bool_decide_eq_true in Ha. apply game_distinct_intro; [|done].
    cbn. apply distinct_names_snoc; [done | by left].
  - unfold includes. destruct (bool_decide (n ∈ s_list (section0 g))) eqn:Hi; cbn [negb].
    + by apply game_distinct_intro.
    + apply bool_decide_eq_false in Hi. apply game_distinct_intro; [|done].
      cbn. apply distinct_names_snoc; [done | by right].
Qed.

Lemma removeFromList_distinct (n : jsstring) (g : Game) :
  game_distinct g → game_distinct (removeFromList n g).
Proof.
  intros Hd. apply game_distinct_inv in Hd as [H0 Hm].
  apply game_distinct_intro; cbn.
  - by apply remove_first_distinct.
  - apply Forall_map. eapply Forall_impl; [exact Hm|].
    intros s Hs. cbn. by apply remove_first_distinct.
Qed.

Lemma removeAnon_distinct (g : Game) :
  game_distinct g → game_distinct (removeAnon g).
Proof.
  intros Hd. apply game_distinct_inv in Hd as [H0 Hm].
  apply game_distinct_intro; cbn; [|done]. by apply remove_last_distinct.
Qed.

Lemma setSection_distinct (g : Game) (idx : nat) (s : Section) :
  game_distinct g → distinct_names (s_list s) →
  game_distinct (setSection g idx s).
Proof.
  intros Hd Hs. apply game_distinct_inv in Hd as [H0 Hm].
  unfold setSection. destruct idx.
  - by apply game_distinct_intro.
  - destruct (moreSections g) as [|x r] eqn:E; apply game_distinct_intro; cbn;
      try done.
    + by apply Forall_singleton.
    + apply Forall_cons in Hm as [_ Hr]. by apply Forall_cons.
Qed.

Lemma sectionAt_distinct (g : Game) (idx : nat) (s : Section) :
  game_distinct g → sectionAt g idx = Some s → distinct_names (s_list s).
Proof.
  unfold game_distinct, sectionAt. intros Hd Hs.
  eapply (Forall_lookup_1 _ _ _ _ Hd Hs).
Qed.

Lemma names_distinct_insert (gs : gmap jsstring Game) (gid : jsstring) (g : Game) :
  names_distinct gs → game_distinct g → names_distinct (<[gid := g]> gs).
Proof. intros. by apply map_Forall_insert_2. Qed.

Lemma names_distinct_alter (gs : gmap jsstring Game) (gid : jsstring)
    (f : Game → Game) :
  names_distinct gs → (∀ g, game_distinct g → game_distinct (f g)) →
  names_distinct (alter f gid gs).
Proof.
  intros Hgs Hf k g Hk.
  destruct (decide (gid = k)) as [<-|Hne].
  - rewrite lookup_alter_eq in Hk.
    destruct (gs !! gid) as [g0|] eqn:E; [|done].
    injection Hk as <-. apply Hf. by apply (Hgs gid).
  - rewrite lookup_alter_ne in Hk by done. by apply (Hgs k).
Qed.

Lemma names_distinct_delete (gs : gmap jsstring Game) (gid : jsstring) :
  names_distinct gs → names_distinct (delete gid gs).
Proof. intros. by apply map_Forall_delete. Qed.

Lemma names_distinct_lookup (gs : gmap jsstring Game) (gid : jsstring) (g : Game) :
  names_distinct gs → gs !! gid = Some g → game_distinct g.
Proof. intros H Hg. by apply (H gid). Qed.

Lemma with_lastActive_distinct (t : Z) (g : Game) :
  game_distinct g → game_distinct (with_lastActive g t).
Proof. done. Qed.

Lemma games_addNames (gid uid : jsstring) (names : list jsstring) (w : World) :
  names_distinct (games w) → names_distinct (games (addNames gid uid names w)).
Proof.
  unfold addNames. revert w. induction names as [|n names IH]; intros w Hw; [done|].
  cbn [foldl]. apply IH.
  destruct (bool_decide (n ≠ ANON)); cbn;
    (apply names_distinct_alter; [done | apply addToList_distinct]).
Qed.

End InvariantFacts.

(** ** Every handler keeps the names distinct *)

Section HandlerInvariant.

Context (env : Env) (gid uid : jsstring).

Lemma games_touchGame (w : World) :
  games (touchGame env gid w)
  = alter (λ g, with_lastActive g (now env)) gid (games w).
Proof. reflexivity. Qed.

Lemma touchGame_distinct (w : World) :
  names_distinct (games w) → names_distinct (games (touchGame env gid w)).
Proof. intros H. rewrite games_touchGame. by apply names_distinct_alter. Qed.

Lemma handleJoin_distinct (count : Z) (content : jsstring) (w : World) :
  names_distinct (games w) →
  names_distinct (games (handleJoin env gid uid count content w)).
Proof.
  intros Hw. unfold handleJoin.
  destruct (games w !! gid) as [g|] eqn:Hg; [|done].
  destruct (active g); cbn [negb]; [|done].
  destruct (notYetOpen env g); [done|].
  pose proof (joinNames_frame env gid uid count content (s_list (section0 g)) w)
    as [Hgs _].
  destruct (joinNames env gid uid count content (s_list (section0 g)) w)
    as [namesToAdd w1].
  cbn [snd] in Hgs.
  match goal with |- context [if ?b then _ else _] => destruct b end.
  - rewrite games_emit. by rewrite Hgs.
  - rewrite games_sendListReply, games_snapshot, games_saveGame.
    apply touchGame_distinct, games_addNames. by rewrite Hgs.
Qed.

Lemma handleLeave_distinct (removeName : jsstring) (w : World) :
  names_distinct (games w) →
  names_distinct (games (handleLeave env gid uid removeName w)).
Proof.
  intros Hw. unfold handleLeave.
  destruct (games w !! gid) as [g|] eqn:Hg; [|done].
  destruct (active g); cbn [negb]; [|done].
  destruct (notYetOpen env g); [done|].
  rewrite games_sendListReply, games_snapshot, games_saveGame.
  destruct (truthy_str removeName); cbn [negb].
  - destruct (str_includes str_anonymous removeName); cbn [games with_games].
    + apply names_distinct_alter; [done | apply removeAnon_distinct].
    + apply names_distinct_alter; [done | apply removeFromList_distinct].
  - pose proof (leaveSelfName_frame env gid uid g w) as [Hgs _].
    destruct (leaveSelfName env gid uid g w) as [name w'].
    cbn [snd] in Hgs. cbn [games with_games]. rewrite Hgs.
    apply names_distinct_alter; [done | apply removeFromList_distinct].
Qed.

Lemma handleBulkList_distinct (input : jsstring) (w : World) :
  names_distinct (games w) →
  names_distinct (games (handleBulkList gid uid input w)).
Proof.
  intros Hw. unfold handleBulkList.
  destruct (bool_decide (input = []) || bool_decide (input = lit "#")).
  - destruct (games w !! gid); [by rewrite games_sendListReply | done].
  - destruct (games w !! gid) as [g|]; [|done].
    destruct (active g); cbn [negb]; [|done].
    match goal with |- context [if ?b then _ else _] => destruct b end; [done|].
    rewrite games_sendListReply, games_snapshot, games_saveGame.
    by apply games_addNames.
Qed.

Lemma handleCreate_distinct (showWelcome : bool) (f : CreateFields) (w : World) :
  names_distinct (games w) →
  names_distinct (games (handleCreate env showWelcome gid f w)).
Proof.
  intros Hw. unfold handleCreate.
  destruct (c_anon f) as [[n|l]|]; [destruct (4294967295 <? n)%Z; [done|] | |];
    match goal with
    | |- context [has_duplicates (realNames ?il)] =>
      destruct (has_duplicates (realNames il)) eqn:Hdup; [done|]
    end.
  all: apply no_duplicates in Hdup.
  all: match goal with
       | |- context [saveGame gid (with_games ?w0 (<[gid := ?g]> (games ?w0)))] =>
         assert (Hins : names_distinct (<[gid := g]> (games w0)))
           by (apply names_distinct_insert; [done|];
               apply game_distinct_intro; [exact Hdup | apply Forall_nil_2])
       end.
  all: destruct (c_schedule f) as [[t input]|]; cbn [fmap option_fmap option_map snd];
    [destruct (negb (t =? 0)%Z); [destruct (t <=? now env)%Z|]|].
  all: rewrite ?games_emit, ?games_sendListPush, ?games_sendListReply, ?games_snapshot.
  all: destruct (c_list f); by rewrite ?games_snapshot, games_saveGame.
Qed.

Lemma handleModify_distinct (f : ModifyFields) (w : World) :
  names_distinct (games w) →
  names_distinct (games (handleModify env gid f w)).
Proof.
  intros Hw. unfold handleModify.
  destruct (games w !! gid) as [g|] eqn:Hg; [|done].
  destruct (active g); cbn [negb]; [|done].
  pose proof (names_distinct_lookup _ _ _ Hw Hg) as Hd.
  apply game_distinct_inv in Hd as [H0 Hm].
  match goal with
  | |- context [with_games ?w0 (<[gid := ?g3]> (games ?w0))] =>
    assert (H3 : s_list (section0 g3) = s_list (section0 g)
                 ∧ moreSections g3 = moreSections g);
      [|set (g3' := g3) in *]
  end.
  { destruct (m_title f), (m_limit f) as [n|], (m_backup f) as [b|];
      repeat match goal with |- context [if ?c then _ else _] => destruct c end;
      done. }
  destruct H3 as [H3l H3m].
  assert (Hg3 : game_distinct g3')
    by (apply game_distinct_intro; [by rewrite H3l | by rewrite H3m]).
  destruct (m_list f) as [newList|].
  - destruct (has_duplicates (realNames newList)) eqn:Hdup.
    + rewrite games_emit. by apply names_distinct_insert.
    + apply no_duplicates in Hdup.
      rewrite games_sendListReply, games_snapshot, games_saveGame.
      apply touchGame_distinct. cbn [games with_games].
      apply names_distinct_insert; [done|].
      apply game_distinct_intro; [exact Hdup | cbn; by rewrite H3m].
  - match goal with |- context [if ?b then _ else _] => destruct b end.
    + rewrite games_emit. by apply names_distinct_insert.
    + rewrite games_sendListReply, games_saveGame.
      apply touchGame_distinct. by apply names_distinct_insert.
Qed.

Lemma handleConfigure_distinct (second : bool) (p0 : option jsstring)
    (p1 p2 : option Z) (p3 : option jsstring) (w : World) :
  names_distinct (games w) →
  names_distinct (games (handleConfigure env gid second p0 p1 p2 p3 w)).
Proof.
  intros Hw. unfold handleConfigure.
  destruct (games w !! gid) as [g|] eqn:Hg; [|done].
  pose proof (names_distinct_lookup _ _ _ Hw Hg) as Hd.
  rewrite games_sendListReply, games_saveGame.
  apply touchGame_distinct. cbn [games with_games].
  apply names_distinct_insert; [done|].
  apply setSection_distinct; [done|]. cbn [s_list].
  destruct (sectionAt g _) as [s|] eqn:Hs.
  - by eapply sectionAt_distinct.
  - apply distinct_names_nil.
Qed.

Lemma handleClear_distinct (w : World) :
  names_distinct (games w) → names_distinct (games (handleClear env gid w)).
Proof.
  intros Hw. unfold handleClear.
  destruct (games w !! gid) as [g|] eqn:Hg; [|done].
  rewrite games_emit, games_snapshot, games_saveGame.
  apply touchGame_distinct. cbn [games with_games].
  apply names_distinct_insert; [done|].
  apply game_distinct_intro; cbn.
  - apply distinct_names_nil.
  - apply Forall_map. apply Forall_true. intros s. apply distinct_names_nil.
Qed.

Lemma handleEnd_distinct (w : World) :
  names_distinct (games w) → names_distinct (games (handleEnd env gid w)).
Proof.
  intros Hw. unfold handleEnd. destruct (games w !! gid).
  - cbv zeta. destruct (snapshotWritten env _).
    + rewrite games_emit, games_snapshot.
      cbn [deleteGame games emit with_games saveCurrentListSnapshot].
      by apply names_distinct_delete.
    + by rewrite games_snapshot.
  - rewrite games_emit, games_snapshot.
    cbn [deleteGame games emit with_games].
    by apply names_distinct_delete.
Qed.

Lemma handleDelete_distinct (w : World) :
  names_distinct (games w) → names_distinct (games (handleDelete gid w)).
Proof.
  intros Hw. unfold handleDelete. rewrite games_emit, games_snapshot.
  by apply names_distinct_delete.
Qed.

Lemma handleEvent_distinct (i : intent) (w : World) :
  names_distinct (games w) → names_distinct (games (handleEvent env gid uid i w)).
Proof.
  intros Hw. unfold handleEvent.
  match goal with
  | |- context [handleCreate env ?b gid _ (if ?b then ?w1 else ?w2)] =>
    assert (H0 : names_distinct (games (if b then w1 else w2)))
      by (by destruct b);
    generalize dependent (if b then w1 else w2)
  end.
  intros w0 Hw0.
  destruct i.
  - by apply handleCreate_distinct.
  - by apply handleEnd_distinct.
  - by apply handleModify_distinct.
  - by apply handleJoin_distinct.
  - by apply handleLeave_distinct.
  - by apply handleBulkList_distinct.
  - by apply handleConfigure_distinct.
  - by apply handleClear_distinct.
  - by apply handleDelete_distinct.
Qed.

End HandlerInvariant.

(** ** Decimal text and [parseInt] *)

Section DecimalFacts.

Local Open Scope N_scope.

Lemma is_digit_not_ws (c : char) : is_digit c = true → is_ws c = false.
Proof.
  unfold is_digit, is_ws. intros H. apply andb_true_iff in H as [H1 H2].
  apply N.leb_le in H1, H2.
  repeat match goal with
         | |- context [?a =? ?b] => rewrite (proj2 (N.eqb_neq a b)) by lia
         | |- context [?a <=? ?b] =>
           first [ rewrite (proj2 (N.leb_gt a b)) by lia
                 | rewrite (proj2 (N.leb_le a b)) by lia ]
         end.
  reflexivity.
Qed.

Lemma digit_char_is_digit (n : N) : is_digit (48 + n mod 10) = true.
Proof.
  unfold is_digit. assert (n mod 10 < 10) by (apply N.mod_upper_bound; lia).
  generalize dependent (n mod 10). intros d Hd.
  apply andb_true_iff. split; apply N.leb_le; lia.
Qed.

Lemma decimal_fuel_digits (fuel : nat) (n : N) (acc : jsstring) :
  Forall (λ c, is_digit c = true) acc →
  Forall (λ c, is_digit c = true) (decimal_fuel fuel n acc).
Proof.
  revert n acc. induction fuel as [|f IH]; intros n acc Hacc; [done|].
  cbn [decimal_fuel].
  assert (Forall (λ c, is_digit c = true) ((48 + n mod 10) :: acc))
    by (apply Forall_cons; split; [apply digit_char_is_digit | done]).
  destruct (n <? 10); [done | by apply IH].
Qed.

Lemma decimal_fuel_nonempty (fuel : nat) (n : N) (acc : jsstring) :
  decimal_fuel (S fuel) n acc ≠ [].
Proof.
  assert (H : ∀ f m a, a ≠ [] → decimal_fuel f m a ≠ []).
  { clear. induction f as [|f IH]; intros m a Ha; [done|].
    cbn [decimal_fuel]. destruct (m <? 10); [done|]. by apply IH. }
  cbn [decimal_fuel]. destruct (n <? 10); [done|]. by apply H.
Qed.

Lemma decimal_fuel_value (fuel : nat) (n : N) (acc : jsstring) :
  n < 2 ^ N.of_nat fuel →
  digits_value (decimal_fuel fuel n acc) 0 = digits_value acc n.
Proof.
  revert n acc. induction fuel as [|f IH]; intros n acc Hn.
  - cbn in Hn. assert (n = 0) as -> by lia. reflexivity.
  - cbn [decimal_fuel]. destruct (N.ltb_spec n 10) as [Hlt|Hge].
    + unfold digits_value. cbn [foldl]. f_equal.
      rewrite N.mod_small by done. lia.
    + rewrite IH.
      * unfold digits_value. cbn [foldl]. f_equal.
        pose proof (N.div_mod n 10 ltac:(lia)) as Hdm.
        generalize dependent (n mod 10). generalize dependent (n / 10).
        intros q r Hdm. lia.
      * rewrite Nat2N.inj_succ, N.pow_succ_r' in Hn.
        apply N.Div0.div_lt_upper_bound.
        revert Hn. generalize (2 ^ N.of_nat f). intros p Hp. lia.
Qed.

Lemma decimal_digits (n : N) : Forall (λ c, is_digit c = true) (decimal n).
Proof. apply decimal_fuel_digits. constructor. Qed.

Lemma decimal_nonempty (n : N) : decimal n ≠ [].
Proof. apply decimal_fuel_nonempty. Qed.

Lemma decimal_value (n : N) : digits_value (decimal n) 0 = n.
Proof.
  unfold decimal. rewrite decimal_fuel_value; [done|].
  rewrite Nat2N.inj_succ, N2Nat.id.
  destruct (N.eq_dec n 0) as [->|Hn]; [done|].
  apply N.log2_spec. lia.
Qed.

Lemma parse_digits_all (s : jsstring) (a : N) :
  Forall (λ c, is_digit c = true) s →
  parse_digits s (Some a) = Some (digits_value s a).
Proof.
  revert a. induction s as [|c s IH]; intros a Hs; [done|].
  apply Forall_cons in Hs as [Hc Hs]. cbn [parse_digits]. rewrite Hc.
  by rewrite IH.
Qed.

Lemma parse_digits_decimal (n : N) : parse_digits (decimal n) None = Some n.
Proof.
  pose proof (decimal_digits n) as Hd. pose proof (decimal_nonempty n) as Hne.
  pose proof (decimal_value n) as Hv.
  destruct (decimal n) as [|c s]; [done|].
  apply Forall_cons in Hd as [Hc Hs]. cbn [parse_digits]. rewrite Hc.
  rewrite parse_digits_all by done. by rewrite <- Hv.
Qed.

End DecimalFacts.

(** ** Trimming and line splitting *)

Section TextFacts.

Lemma trimStart_head_ok (s : jsstring) : head_ok s → trimStart s = s.
Proof. destruct s as [|c s]; [done|]. cbn. by intros ->. Qed.

Lemma trim_clean (s : jsstring) : clean_edges s → trim s = s.
Proof.
  intros [H1 H2]. unfold trim, trimEnd.
  rewrite (trimStart_head_ok s H1), (trimStart_head_ok _ H2).
  apply rev_involutive.
Qed.

Lemma trimStart_length (s : jsstring) : (length (trimStart s) ≤ length s)%nat.
Proof.
  induction s as [|c s IH]; [done|]. cbn [trimStart].
  destruct (is_ws c); cbn [length]; lia.
Qed.

Lemma trimStart_fixed (s : jsstring) : trimStart s = s → head_ok s.
Proof.
  destruct s as [|c s]; [done|]. cbn. destruct (is_ws c) eqn:Hc; [|done].
  intros H. pose proof (trimStart_length s) as Hl. rewrite H in Hl.
  cbn [length] in Hl. lia.
Qed.

Lemma trim_fixed (s : jsstring) : trim s = s → clean_edges s.
Proof.
  intros H.
  assert (Hs : trimStart s = s).
  { unfold trim, trimEnd in H.
    pose proof (trimStart_length s) as H1.
    pose proof (trimStart_length (rev (trimStart s))) as H2.
    rewrite length_rev in H2.
    assert (Hlen : length (trimStart s) = length s).
    { apply (f_equal length) in H. rewrite length_rev in H. lia. }
    clear -Hlen. induction s as [|c s IH]; [done|]. cbn in *.
    destruct (is_ws c); [|done].
    pose proof (trimStart_length s). lia. }
  split; [by apply trimStart_fixed|].
  apply trimStart_fixed. unfold trim, trimEnd in H. rewrite Hs in H.
  apply (f_equal (@rev N)) in H. by rewrite rev_involutive in H.
Qed.

Lemma digits_clean (s : jsstring) :
  Forall (λ c, is_digit c = true) s → clean_edges s.
Proof.
  intros H. split.
  - destruct H as [|c s Hc _]; [done|]. by apply is_digit_not_ws.
  - assert (Hr : Forall (λ c, is_digit c = true) (rev s)).
    { apply Forall_forall. intros c Hc. rewrite Forall_forall in H. apply H.
      apply list_elem_of_In, in_rev. by apply list_elem_of_In. }
    destruct Hr as [|c r Hc _]; [done|]. by apply is_digit_not_ws.
Qed.

(** A line followed by a line feed is cut off as one element. *)
Lemma splitLines_line (r rest cur : jsstring) :
  line_like r →
  splitLines_loop (r ++ ch_lf :: rest) cur = (cur ++ r) :: splitLines_loop rest [].
Proof.
  revert cur. induction r as [|c r IH]; intros cur [Hlf Hcr].
  - cbn. by rewrite app_nil_r.
  - apply not_elem_of_cons in Hlf as [Hc Hlf].
    assert (Hr : line_like r).
    { split; [done|]. intros r' ->. apply (Hcr (c :: r')). done. }
    cbn [app splitLines_loop].
    rewrite (proj2 (N.eqb_neq c ch_lf)) by done.
    destruct (N.eqb_spec c ch_cr) as [->|Hne].
    + destruct r as [|c' r].
      * exfalso. by apply (Hcr []).
      * cbn [app]. apply not_elem_of_cons in Hlf as [Hc' _].
        rewrite (proj2 (N.eqb_neq c' ch_lf)) by done.
        change (c' :: r ++ ch_lf :: rest) with ((c' :: r) ++ ch_lf :: rest).
        rewrite IH by done. by rewrite <- app_assoc.
    + rewrite IH by done. by rewrite <- app_assoc.
Qed.

Lemma splitLines_last (r cur : jsstring) :
  line_like r → splitLines_loop r cur = [cur ++ r].
Proof.
  revert cur. induction r as [|c r IH]; intros cur [Hlf Hcr].
  - cbn. by rewrite app_nil_r.
  - apply not_elem_of_cons in Hlf as [Hc Hlf].
    assert (Hr : line_like r).
    { split; [done|]. intros r' ->. apply (Hcr (c :: r')). done. }
    cbn [splitLines_loop].
    rewrite (proj2 (N.eqb_neq c ch_lf)) by done.
    destruct (N.eqb_spec c ch_cr) as [->|Hne].
    + destruct r as [|c' r].
      * exfalso. by apply (Hcr []).
      * apply not_elem_of_cons in Hlf as [Hc' _].
        rewrite (proj2 (N.eqb_neq c' ch_lf)) by done.
        rewrite IH by done. by rewrite <- app_assoc.
    + rewrite IH by done. by rewrite <- app_assoc.
Qed.

(** Lines joined by line feeds split back into the lines. *)
Lemma splitLines_join (r : jsstring) (rs : list jsstring) :
  Forall line_like (r :: rs) → splitLines (join nl (r :: rs)) = r :: rs.
Proof.
  unfold splitLines. revert r. induction rs as [|r2 rs IH]; intros r Hall.
  - apply Forall_cons in Hall as [Hr _]. cbn [join]. by rewrite splitLines_last.
  - apply Forall_cons in Hall as [Hr Hrs].
    change (join nl (r :: r2 :: rs)) with (r ++ ch_lf :: join nl (r2 :: rs)).
    rewrite splitLines_line by done. by rewrite IH.
Qed.

End TextFacts.

(** ** The pattern with the sigil at the end, read against its parts *)

Section SigilPattern.

Lemma trimStart_split (s : jsstring) :
  ∃ p, s = p ++ trimStart s ∧ forallb is_ws p = true.
Proof.
  induction s as [|c s (p & Hp & Hws)]; [by exists []|].
  cbn [trimStart]. destruct (is_ws c) eqn:Hc.
  - exists (c :: p). split; [by rewrite Hp at 1 | by cbn; rewrite Hc].
  - by exists [].
Qed.

Lemma trimStart_ws_app (p s : jsstring) :
  forallb is_ws p = true → trimStart (p ++ s) = trimStart s.
Proof.
  induction p as [|c p IH]; [done|]. cbn. intros H.
  apply andb_true_iff in H as [-> H]. by apply IH.
Qed.

Lemma forallb_rev {A} (f : A → bool) (s : list A) :
  forallb f (rev s) = forallb f s.
Proof.
  induction s as [|c s IH]; [done|]. cbn [rev forallb].
  rewrite forallb_app, IH. cbn [forallb]. rewrite andb_true_r. apply andb_comm.
Qed.

Lemma trimEnd_split (s : jsstring) :
  ∃ p, s = trimEnd s ++ p ∧ forallb is_ws p = true.
Proof.
  destruct (trimStart_split (rev s)) as (p & Hp & Hws).
  exists (rev p). split; [|by rewrite forallb_rev].
  unfold trimEnd. rewrite <- rev_app_distr, <- Hp. by rewrite rev_involutive.
Qed.

Lemma trimEnd_ws_app (s ws : jsstring) :
  forallb is_ws ws = true → trimEnd (s ++ ws) = trimEnd s.
Proof.
  intros H. unfold trimEnd. rewrite rev_app_distr.
  by rewrite trimStart_ws_app by (by rewrite forallb_rev).
Qed.

Lemma trimEnd_length (s : jsstring) : (length (trimEnd s) ≤ length s)%nat.
Proof.
  unfold trimEnd. rewrite length_rev.
  pose proof (trimStart_length (rev s)) as H. by rewrite length_rev in H.
Qed.

Lemma forallb_take_drop {A} (f : A → bool) (k : nat) (s : list A) :
  forallb f s = true → forallb f (take k s) = true ∧ forallb f (drop k s) = true.
Proof.
  intros H. rewrite <- (take_drop k s) in H.
  rewrite forallb_app in H. by apply andb_true_iff in H.
Qed.

(** Whenever the text is a name part, white space, the sigil and a digit
    from 1 to 9, the pattern matches, and its first group is a prefix of
    the name part that leaves only white space before the sigil: no
    other first group is shorter. *)
Lemma endMatch_complete (sigil d : char) (pre ws : jsstring) :
  pre ≠ [] → forallb (λ x, negb (is_line_terminator x)) pre = true →
  forallb is_ws ws = true → is_digit19 d = true →
  ∃ g1 ws', endMatch sigil (pre ++ ws ++ [sigil; d]) = Some (g1, digit_value d)
            ∧ pre = g1 ++ ws' ∧ forallb is_ws ws' = true.
Proof.
  intros Hpre Hlt Hws Hd. unfold endMatch.
  rewrite app_assoc, rev_app_distr. cbn [rev app].
  rewrite N.eqb_refl, Hd. cbn [andb]. rewrite rev_involutive.
  rewrite trimEnd_ws_app by done.
  set (k := Nat.max 1 (length (trimEnd pre))).
  assert (Hk : (k ≤ length pre)%nat).
  { pose proof (trimEnd_length pre). destruct pre; [done|]. cbn [length] in *.
    unfold k. lia. }
  rewrite take_app_le by done.
  destruct (forallb_take_drop _ k pre Hlt) as [Ht _].
  unfold char in *. rewrite Ht. rewrite truthy_str_true by (by destruct pre). cbn [andb].
  exists (take k pre), (drop k pre). split; [done|]. split.
  - by rewrite take_drop.
  - destruct (trimEnd_split pre) as (p & Hp & Hpws).
    destruct (decide (length (trimEnd pre) = 0)%nat) as [H0|Hn0].
    + apply nil_length_inv in H0. rewrite H0 in Hp. cbn in Hp. subst p.
      by apply forallb_take_drop.
    + assert (k = length (trimEnd pre)) as -> by (unfold k; lia).
      replace (drop (length (trimEnd pre)) pre) with p; [done|].
      rewrite Hp at 2. by rewrite drop_app_length.
Qed.

End SigilPattern.

(** ** One row of the snapshot, written and read back *)

Section RowFacts.

Lemma String_of_Z_nonneg (z : Z) : (0 ≤ z)%Z → String_of_Z z = decimal (Z.to_N z).
Proof.
  intros H. unfold String_of_Z. by rewrite (proj2 (Z.ltb_ge z 0)) by done.
Qed.

Lemma parseInt_decimal (n : N) : parseInt (decimal n) = Some (Z.of_N n).
Proof.
  pose proof (decimal_digits n) as Hd. pose proof (decimal_nonempty n) as Hne.
  pose proof (parse_digits_decimal n) as Hp.
  unfold parseInt. rewrite trimStart_head_ok by (by apply digits_clean).
  destruct (decimal n) as [|c s]; [done|].
  apply Forall_cons in Hd as [Hc _].
  unfold is_digit in Hc. apply andb_true_iff in Hc as [H1 H2].
  apply N.leb_le in H1, H2.
  rewrite (proj2 (N.eqb_neq c ch_minus)) by (unfold ch_minus; lia).
  rewrite (proj2 (N.eqb_neq c ch_plus)) by (unfold ch_plus; lia).
  by rewrite Hp.
Qed.

Lemma parseInt_String (z : Z) :
  (0 ≤ z)%Z → parseInt (trim (String_of_Z z)) = Some z.
Proof.
  intros H. rewrite String_of_Z_nonneg by done.
  rewrite trim_clean by apply digits_clean, decimal_digits.
  rewrite parseInt_decimal. f_equal. lia.
Qed.

Lemma digits_unquoted (s : jsstring) :
  Forall (λ c, is_digit c = true) s → csvEscape s = s.
Proof.
  intros H. unfold csvEscape.
  assert (Hq : needs_quoting s = false); [|by rewrite Hq].
  unfold needs_quoting. apply not_true_is_false. intros Hex.
  apply existsb_exists in Hex as (c & Hin & Hc).
  rewrite Forall_forall in H. apply list_elem_of_In in Hin.
  specialize (H c Hin). unfold is_digit in H.
  apply andb_true_iff in H as [H1 H2]. apply N.leb_le in H1, H2.
  repeat (apply orb_true_iff in Hc as [Hc|Hc]);
    apply N.eqb_eq in Hc; subst c; vm_compute in H1; done.
Qed.

(** The text of a row, with the numbers in plain digits. *)
Lemma csvRow_text (gid : jsstring) (idx : nat) (sec : Section) (name : jsstring) :
  (0 ≤ s_limit sec)%Z → (0 ≤ s_backupLimit sec)%Z →
  csvRow gid idx sec name
  = csvEscape gid ++ [ch_comma] ++ decimal (N.of_nat idx) ++ [ch_comma]
    ++ csvEscape name ++ [ch_comma]
    ++ (if (s_limit sec =? 0)%Z then [] else decimal (Z.to_N (s_limit sec)))
    ++ [ch_comma] ++ decimal (Z.to_N (s_backupLimit sec)).
Proof.
  intros Hl Hb. unfold csvRow. cbn [map join].
  rewrite !String_of_Z_nonneg by lia.
  rewrite <- (nat_N_Z idx), N2Z.id.
  rewrite !(digits_unquoted (decimal _)) by apply decimal_digits.
  destruct (s_limit sec =? 0)%Z; [reflexivity|].
  by rewrite (digits_unquoted (decimal _)) by apply decimal_digits.
Qed.

Lemma csvEscape_no_lf (f : jsstring) : ch_lf ∉ f → ch_lf ∉ csvEscape f.
Proof.
  intros H. unfold csvEscape. destruct (needs_quoting f); [|done].
  intros Hin. apply elem_of_cons in Hin as [Hin|Hin]; [done|].
  apply elem_of_app in Hin as [Hin|Hin].
  - unfold double_quotes in Hin. apply list_elem_of_In, in_flat_map in Hin
      as (c & Hc & Hin).
    destruct (c =? ch_quote)%N eqn:E.
    + destruct Hin as [Hin|[Hin|[]]]; done.
    + destruct Hin as [Hin|[]]. subst c. by apply H, list_elem_of_In.
  - apply list_elem_of_singleton in Hin. done.
Qed.

Lemma digits_no_lf (s : jsstring) :
  Forall (λ c, is_digit c = true) s → ch_lf ∉ s.
Proof.
  intros H Hin. rewrite Forall_forall in H. specialize (H _ Hin). done.
Qed.

Lemma csvEscape_head_ok (f : jsstring) : f ≠ [] → head_ok f → head_ok (csvEscape f).
Proof.
  intros Hne H. unfold csvEscape. by destruct (needs_quoting f).
Qed.

Lemma csvRow_line (gid : jsstring) (idx : nat) (sec : Section) (name : jsstring) :
  (0 ≤ s_limit sec)%Z → (0 ≤ s_backupLimit sec)%Z →
  plain_text gid → plain_text name →
  line_like (csvRow gid idx sec name) ∧ clean_edges (csvRow gid idx sec name)
  ∧ csvRow gid idx sec name ≠ [].
Proof.
  intros Hl Hb (Hg1 & Hg2 & Hg3) (Hn1 & Hn2 & Hn3).
  rewrite csvRow_text by done.
  pose proof (decimal_digits (Z.to_N (s_backupLimit sec))) as Hd.
  pose proof (decimal_nonempty (Z.to_N (s_backupLimit sec))) as Hdne.
  set (d := decimal (Z.to_N (s_backupLimit sec))) in *.
  assert (Hrev : ∃ c r, rev d = c :: r ∧ is_digit c = true).
  { assert (Hr : Forall (λ c, is_digit c = true) (rev d)).
    { apply Forall_forall. intros c Hc. rewrite Forall_forall in Hd. apply Hd.
      apply list_elem_of_In, in_rev. by apply list_elem_of_In. }
    destruct (rev d) as [|c r] eqn:E.
    - apply (f_equal (@rev N)) in E. rewrite rev_involutive in E. done.
    - apply Forall_cons in Hr as [Hc _]. by exists c, r. }
  destruct Hrev as (c & r & Hrev & Hc).
  split; [split|split; [split|]].
  - assert (Hlim : ch_lf ∉ (if (s_limit sec =? 0)%Z then []
                            else decimal (Z.to_N (s_limit sec)))).
    { destruct (s_limit sec =? 0)%Z; [apply not_elem_of_nil|].
      apply digits_no_lf, decimal_digits. }
    pose proof (csvEscape_no_lf gid Hg3).
    pose proof (csvEscape_no_lf name Hn3).
    pose proof (digits_no_lf _ (decimal_digits (N.of_nat idx))).
    pose proof (digits_no_lf _ Hd).
    rewrite !not_elem_of_app. repeat split; try done;
      by (intros Hx; apply list_elem_of_singleton in Hx).
  - intros r' Heq. apply (f_equal (@rev N)) in Heq.
    rewrite !rev_app_distr in Heq. unfold char in *.
    rewrite Hrev in Heq. cbn in Heq.
    injection Heq as -> _. done.
  - apply trim_fixed in Hg2 as [Hh _].
    pose proof (csvEscape_head_ok gid Hg1 Hh) as Hce.
    assert (csvEscape gid ≠ []) by (unfold csvEscape; by destruct (needs_quoting gid)).
    destruct (csvEscape gid); done.
  - rewrite !rev_app_distr. unfold char in *. rewrite Hrev.
    cbn. by apply is_digit_not_ws.
  - intros Heq. apply (f_equal (@rev N)) in Heq.
    rewrite !rev_app_distr in Heq. unfold char in *. rewrite Hrev in Heq. done.
Qed.

Lemma readRow_csvRow (gid : jsstring) (idx : nat) (sec : Section) (name : jsstring) :
  (0 ≤ s_limit sec)%Z → (0 ≤ s_backupLimit sec)%Z →
  plain_text gid → plain_text name →
  readRow snapshotColumns (csvRow gid idx sec name)
  = Some (rowOf gid idx sec name).
Proof.
  intros Hl Hb Hg Hn.
  pose proof (csvRow_line gid idx sec name Hl Hb Hg Hn) as (_ & Hclean & Hne).
  destruct Hg as (Hg1 & Hg2 & _). destruct Hn as (Hn1 & Hn2 & _).
  unfold readRow. rewrite (trim_clean _ Hclean).
  rewrite (truthy_str_true _ Hne). cbn [negb].
  unfold parseCsvLine, csvRow. rewrite parse_escaped_row.
  cbn [app snapshotColumns idxGid idxName idxSection idxLimit idxBackup
       column lookup list_lookup default]. unfold id.
  rewrite Hg2, Hn2.
  rewrite (truthy_str_true _ Hg1), (truthy_str_true _ Hn1). cbn [negb orb].
  unfold rowOf. f_equal.
  assert (Hidx : str_or (Some (String_of_Z (Z.of_nat idx))) (lit "0")
                 = String_of_Z (Z.of_nat idx)).
  { unfold str_or. rewrite truthy_str_true; [done|].
    rewrite String_of_Z_nonneg by lia. apply decimal_nonempty. }
  rewrite Hidx, parseInt_String by lia.
  rewrite (proj2 (Z.leb_le 0 (Z.of_nat idx))) by lia.
  rewrite (parseInt_String (s_backupLimit sec)) by done.
  rewrite (proj2 (Z.leb_le 0 (s_backupLimit sec))) by done.
  destruct (Z.eqb_spec (s_limit sec) 0) as [E|E].
  - rewrite E. reflexivity.
  - rewrite parseInt_String by done.
    assert (0 < s_limit sec)%Z as Hpos by lia.
    by rewrite (proj2 (Z.ltb_lt 0 (s_limit sec))) by done.
Qed.

Lemma readHeader_snapshot : readHeader csvHeader = Some snapshotColumns.
Proof. vm_compute. reflexivity. Qed.

End RowFacts.

(** ** The row loop of the recovery *)

Section AccumulateFacts.

Lemma addRow_listAt (acc : Restore) (r : Row) (gid : jsstring) (idx : Z) :
  listAt (addRow acc r) gid idx
  = if decide (r_gid r = gid ∧ r_section r = idx)
    then pushName (listAt acc gid idx) r
    else listAt acc gid idx.
Proof.
  unfold listAt, addRow, pushName. cbn [byGid].
  destruct (decide (r_gid r = gid)) as [<-|Hg].
  - rewrite lookup_insert_eq. cbn [mbind option_bind].
    destruct (decide (r_section r = idx)) as [<-|Hi].
    + rewrite lookup_insert_eq. rewrite decide_True by done.
      by destruct (byGid acc !! r_gid r).
    + rewrite lookup_insert_ne by done.
      rewrite decide_False by (intros [? ?]; done).
      by destruct (byGid acc !! r_gid r).
  - rewrite lookup_insert_ne by done.
    by rewrite decide_False by (intros [? ?]; done).
Qed.

Lemma addRow_metaAt (acc : Restore) (r : Row) (gid : jsstring) (idx : Z) :
  metaAt (addRow acc r) gid idx
  = if decide (r_gid r = gid ∧ r_section r = idx)
    then pushMeta (metaAt acc gid idx) r
    else metaAt acc gid idx.
Proof.
  unfold metaAt, addRow, pushMeta. cbn [metaByGid].
  destruct (decide (r_gid r = gid)) as [<-|Hg].
  - rewrite lookup_insert_eq. cbn [mbind option_bind].
    destruct (decide (r_section r = idx)) as [<-|Hi].
    + rewrite lookup_insert_eq. rewrite decide_True by done.
      by destruct (metaByGid acc !! r_gid r).
    + rewrite lookup_insert_ne by done.
      rewrite decide_False by (intros [? ?]; done).
      by destruct (metaByGid acc !! r_gid r).
  - rewrite lookup_insert_ne by done.
    by rewrite decide_False by (intros [? ?]; done).
Qed.

Lemma addRows_listAt (rs : list Row) (acc : Restore) (gid : jsstring) (idx : Z) :
  listAt (foldl addRow acc rs) gid idx
  = foldl pushName (listAt acc gid idx) (rowsFor gid idx rs).
Proof.
  revert acc. induction rs as [|r rs IH]; intros acc; [done|].
  cbn [foldl]. rewrite IH, addRow_listAt. unfold rowsFor.
  destruct (decide (r_gid r = gid ∧ r_section r = idx)) as [H|H].
  - by rewrite filter_cons_True by done.
  - by rewrite filter_cons_False by done.
Qed.

Lemma addRows_metaAt (rs : list Row) (acc : Restore) (gid : jsstring) (idx : Z) :
  metaAt (foldl addRow acc rs) gid idx
  = foldl pushMeta (metaAt acc gid idx) (rowsFor gid idx rs).
Proof.
  revert acc. induction rs as [|r rs IH]; intros acc; [done|].
  cbn [foldl]. rewrite IH, addRow_metaAt. unfold rowsFor.
  destruct (decide (r_gid r = gid ∧ r_section r = idx)) as [H|H].
  - by rewrite filter_cons_True by done.
  - by rewrite filter_cons_False by done.
Qed.

(** A conversation is in the map exactly when a row named it. *)
Lemma addRows_byGid (rs : list Row) (acc : Restore) (gid : jsstring) :
  is_Some (byGid (foldl addRow acc rs) !! gid)
  ↔ is_Some (byGid acc !! gid) ∨ ∃ r, r ∈ rs ∧ r_gid r = gid.
Proof.
  revert acc. induction rs as [|r rs IH]; intros acc.
  - cbn. split; [by left|]. intros [?|(r & Hr & _)]; [done|].
    by apply elem_of_nil in Hr.
  - cbn [foldl]. rewrite IH. unfold addRow at 1. cbn [byGid].
    destruct (decide (r_gid r = gid)) as [<-|Hne].
    + rewrite lookup_insert_eq. split.
      * intros _. right. exists r. split; [by left | done].
      * intros _. left. by eexists.
    + rewrite lookup_insert_ne by done. split.
      * intros [?|(r' & Hr' & Hg)]; [by left|]. right. exists r'.
        split; [by right | done].
      * intros [?|(r' & Hr' & Hg)]; [by left|].
        apply elem_of_cons in Hr' as [->|Hr']; [done|]. right. by exists r'.
Qed.

Lemma readRows_omap (cs : Columns) (lines : list jsstring) :
  readRows cs lines = foldl addRow (mkRestore ∅ ∅) (omap (readRow cs) lines).
Proof.
  unfold readRows. generalize (mkRestore ∅ ∅).
  induction lines as [|l lines IH]; intros acc; [done|].
  cbn [foldl omap list_omap]. destruct (readRow cs l); cbn [foldl]; apply IH.
Qed.

(** Distinct names are pushed one after the other. *)
Lemma pushName_distinct (gid : jsstring) (idx : nat) (sec : Section)
    (names l0 : list jsstring) :
  NoDup (l0 ++ names) →
  foldl pushName (Some l0) (map (rowOf gid idx sec) names) = Some (l0 ++ names).
Proof.
  revert l0. induction names as [|n names IH]; intros l0 Hnd.
  - by rewrite app_nil_r.
  - cbn [map foldl]. unfold pushName at 2. cbn [default r_name rowOf].
    unfold includes. rewrite bool_decide_eq_false_2.
    + rewrite IH; rewrite <- app_assoc; done.
    + apply NoDup_app in Hnd as (_ & Hd & _). intros Hin.
      apply (Hd n Hin). by left.
Qed.

Lemma pushName_names (gid : jsstring) (idx : nat) (sec : Section)
    (names : list jsstring) :
  NoDup names →
  foldl pushName None (map (rowOf gid idx sec) names)
  = match names with [] => None | _ => Some names end.
Proof.
  intros Hnd. destruct names as [|n names]; [done|].
  cbn [map foldl].
  assert (H0 : pushName None (rowOf gid idx sec n) = Some [n]).
  { unfold pushName, includes. cbn [default r_name rowOf].
    by rewrite bool_decide_eq_false_2 by apply not_elem_of_nil. }
  rewrite H0. by rewrite (pushName_distinct gid idx sec names [n]).
Qed.

Lemma pushMeta_same (gid : jsstring) (idx : nat) (sec : Section)
    (names : list jsstring) (m : SectionMeta) :
  (0 ≤ s_limit sec)%Z → (0 ≤ s_backupLimit sec)%Z →
  m = mkMeta (if (0 <? s_limit sec)%Z then Some (s_limit sec) else None)
             (Some (s_backupLimit sec)) →
  foldl pushMeta (Some m) (map (rowOf gid idx sec) names) = Some m.
Proof.
  intros Hl Hb ->. induction names as [|n names IH]; [done|].
  cbn [map foldl]. unfold pushMeta at 2. unfold default, id.
  cbn [rowOf r_limit r_backup meta_limit meta_backupLimit].
  match goal with
  | |- foldl pushMeta (Some ?m') _ = Some ?m =>
    assert (Hm : m' = m); [|by rewrite Hm]
  end.
  destruct (Z.ltb_spec 0 (s_limit sec)) as [Hpos|Hz]; unfold num_or;
    repeat match goal with
           | |- context [(?a =? ?b)%Z] => destruct (Z.eqb_spec a b)
           end;
    f_equal; (done || (f_equal; lia)).
Qed.

Lemma pushMeta_names (gid : jsstring) (idx : nat) (sec : Section)
    (names : list jsstring) :
  (0 ≤ s_limit sec)%Z → (0 ≤ s_backupLimit sec)%Z →
  foldl pushMeta None (map (rowOf gid idx sec) names)
  = match names with
    | [] => None
    | _ => Some (mkMeta (if (0 <? s_limit sec)%Z then Some (s_limit sec) else None)
                        (Some (s_backupLimit sec)))
    end.
Proof.
  intros Hl Hb. destruct names as [|n names]; [done|].
  cbn [map foldl]. unfold pushMeta at 2. unfold default, id.
  cbn [rowOf r_limit r_backup meta_limit meta_backupLimit num_or].
  match goal with
  | |- foldl pushMeta (Some ?m') _ = Some ?m => replace m' with m
  end.
  - by apply pushMeta_same.
  - destruct (0 <? s_limit sec)%Z; f_equal; (done || (f_equal; lia)).
Qed.

End AccumulateFacts.

(** ** The rows of a whole registry *)

Section RegistryRows.

Lemma omap_concat {A B} (f : A → option B) (ls : list (list A)) :
  omap f (concat ls) = concat (map (omap f) ls).
Proof.
  induction ls as [|l ls IH]; [done|]. cbn [concat map].
  by rewrite omap_app, IH.
Qed.

Lemma omap_map_Some {A B C} (f : B → option C) (g : A → B) (h : A → C)
    (l : list A) :
  Forall (λ x, f (g x) = Some (h x)) l → omap f (map g l) = map h l.
Proof.
  induction 1 as [|x l Hx _ IH]; [done|].
  cbn [map omap list_omap]. rewrite Hx. cbn. by rewrite <- IH.
Qed.

Lemma section_wf_inv (s : Section) :
  section_wf s →
  (0 ≤ s_limit s)%Z ∧ (0 ≤ s_backupLimit s)%Z
  ∧ Forall plain_text (realNames (s_list s)).
Proof. intros (H1 & H2 & H3). repeat split; (lia || done). Qed.

Lemma readRow_sectionRows (gid : jsstring) (i : nat) (sec : Section) :
  plain_text gid → section_wf sec →
  omap (readRow snapshotColumns) (sectionRows gid i sec) = sectionRecords gid i sec.
Proof.
  intros Hg Hs. apply section_wf_inv in Hs as (Hl & Hb & Hn).
  unfold sectionRows, sectionRecords. apply omap_map_Some.
  eapply Forall_impl; [exact Hn|]. intros name Hname.
  by apply readRow_csvRow.
Qed.

Lemma readRow_imap (gid : jsstring) (l : list Section) (k : nat) :
  plain_text gid → Forall section_wf l →
  omap (readRow snapshotColumns)
       (concat (imap (λ i, sectionRows gid (k + i)) l))
  = concat (imap (λ i, sectionRecords gid (k + i)) l).
Proof.
  intros Hg Hl. revert k. induction Hl as [|s l Hs _ IH]; intros k; [done|].
  cbn [imap concat]. rewrite omap_app, readRow_sectionRows by done.
  f_equal.
  rewrite (imap_ext _ (λ i, sectionRows gid (S k + i)))
    by (intros; cbn; f_equal; lia).
  rewrite (imap_ext (_ ∘ S) (λ i, sectionRecords gid (S k + i)))
    by (intros; cbn; f_equal; lia).
  apply IH.
Qed.

Lemma readRow_gameRows (gid : jsstring) (g : Game) :
  plain_text gid → Forall section_wf (sections g) →
  omap (readRow snapshotColumns) (gameRows gid g) = gameRecords gid g.
Proof. intros Hg Hs. apply (readRow_imap gid (sections g) 0 Hg Hs). Qed.

Lemma readRow_registry (kvs : list (jsstring * Game)) :
  Forall (λ kv, plain_text kv.1 ∧ Forall section_wf (sections kv.2)) kvs →
  omap (readRow snapshotColumns)
       (concat (map (λ kv, gameRows kv.1 kv.2) kvs))
  = registryRecords kvs.
Proof.
  induction 1 as [|[gid g] kvs [Hg Hs] _ IH]; [done|].
  unfold registryRecords. cbn [map concat fst snd].
  rewrite omap_app, readRow_gameRows by done. by rewrite IH.
Qed.

Lemma rowsFor_app (gid : jsstring) (idx : Z) (l1 l2 : list Row) :
  rowsFor gid idx (l1 ++ l2) = rowsFor gid idx l1 ++ rowsFor gid idx l2.
Proof. apply filter_app. Qed.

Lemma rowsFor_sectionRecords (gid gid' : jsstring) (idx : Z) (i : nat)
    (sec : Section) :
  rowsFor gid idx (sectionRecords gid' i sec)
  = if decide (gid' = gid ∧ Z.of_nat i = idx)
    then sectionRecords gid' i sec else [].
Proof.
  unfold sectionRecords, rowsFor.
  induction (realNames (s_list sec)) as [|n names IH].
  - by destruct (decide _).
  - cbn [map]. destruct (decide (gid' = gid ∧ Z.of_nat i = idx)) as [H|H].
    + rewrite filter_cons_True by done. by rewrite IH.
    + by rewrite filter_cons_False by done.
Qed.

Lemma rowsFor_imap (gid gid' : jsstring) (idx : Z) (l : list Section) (k : nat) :
  rowsFor gid idx (concat (imap (λ i, sectionRecords gid' (k + i)) l))
  = if decide (gid' = gid ∧ (Z.of_nat k ≤ idx)%Z)
    then match l !! (Z.to_nat idx - k)%nat with
         | Some sec => sectionRecords gid' (Z.to_nat idx) sec
         | None => []
         end
    else [].
Proof.
  revert k. induction l as [|s l IH]; intros k.
  - cbn. by destruct (decide _).
  - cbn [imap concat]. rewrite rowsFor_app, rowsFor_sectionRecords.
    rewrite (imap_ext _ (λ i, sectionRecords gid' (S k + i)))
      by (intros; cbn; f_equal; lia).
    rewrite IH. rewrite Nat.add_0_r.
    destruct (decide (gid' = gid)) as [->|Hne].
    2: { rewrite !decide_False by (intros [? ?]; done). done. }
    destruct (decide (Z.of_nat k = idx)) as [<-|Hk].
    + rewrite decide_True by done.
      rewrite decide_False by (intros [_ ?]; lia).
      rewrite decide_True by (split; [done | lia]).
      rewrite Nat2Z.id, Nat.sub_diag. cbn. by rewrite app_nil_r.
    + rewrite decide_False by (intros [_ ?]; done). cbn [app].
      destruct (decide (Z.of_nat k ≤ idx)%Z) as [Hle|Hgt].
      * rewrite decide_True by (split; [done | lia]).
        rewrite decide_True by done.
        replace (Z.to_nat idx - k)%nat with (S (Z.to_nat idx - S k)) by lia.
        done.
      * rewrite decide_False by (intros [_ ?]; lia).
        by rewrite decide_False by (intros [_ ?]; lia).
Qed.

Lemma rowsFor_gameRecords (gid gid' : jsstring) (idx : Z) (g : Game) :
  rowsFor gid idx (gameRecords gid' g)
  = if decide (gid' = gid ∧ (0 ≤ idx)%Z)
    then match sections g !! Z.to_nat idx with
         | Some sec => sectionRecords gid' (Z.to_nat idx) sec
         | None => []
         end
    else [].
Proof.
  unfold gameRecords.
  pose proof (rowsFor_imap gid gid' idx (sections g) 0) as H.
  cbn [Nat.add] in H. rewrite Nat.sub_0_r in H. exact H.
Qed.

Lemma rowsFor_registry (gid : jsstring) (idx : Z) (kvs : list (jsstring * Game)) :
  NoDup (kvs.*1) →
  rowsFor gid idx (registryRecords kvs)
  = match list_to_map (M := gmap jsstring Game) kvs !! gid with
    | Some g => rowsFor gid idx (gameRecords gid g)
    | None => []
    end.
Proof.
  unfold registryRecords. induction kvs as [|[k g] kvs IH]; intros Hnd; [done|].
  cbn [fmap list_fmap fst] in Hnd. apply NoDup_cons in Hnd as [Hk Hnd].
  cbn [map concat fst snd list_to_map foldr].
  rewrite rowsFor_app, IH by done.
  destruct (decide (k = gid)) as [->|Hne].
  - rewrite lookup_insert_eq.
    rewrite (not_elem_of_list_to_map_1 kvs gid) by done.
    by rewrite app_nil_r.
  - rewrite lookup_insert_ne by done.
    rewrite rowsFor_gameRecords. by rewrite decide_False by (intros [? ?]; done).
Qed.

End RegistryRows.

(** ** The text of the snapshot, cut back into its rows *)

Section ContentFacts.

Lemma head_ok_app (s t : jsstring) : s ≠ [] → head_ok s → head_ok (s ++ t).
Proof. by destruct s. Qed.

Lemma rev_nonempty (s : jsstring) : s ≠ [] → rev s ≠ [].
Proof.
  intros Hs Hr. apply Hs. apply (f_equal (@rev N)) in Hr.
  by rewrite rev_involutive in Hr.
Qed.

Lemma join_clean (r : jsstring) (rs : list jsstring) :
  Forall row_ok (r :: rs) →
  clean_edges (join nl (r :: rs)) ∧ join nl (r :: rs) ≠ [].
Proof.
  revert r. induction rs as [|r2 rs IH]; intros r Hall.
  - apply Forall_cons in Hall as [(_ & Hc & Hne) _]. done.
  - apply Forall_cons in Hall as [(_ & [Hh Ht] & Hne) Hrs].
    destruct (IH r2 Hrs) as [[_ IHt] IHne].
    change (join nl (r :: r2 :: rs)) with (r ++ nl ++ join nl (r2 :: rs)).
    split; [split|].
    + by apply head_ok_app.
    + rewrite !rev_app_distr. rewrite <- app_assoc.
      apply head_ok_app; [by apply rev_nonempty | done].
    + by destruct r.
Qed.

Lemma trim_line_end (s : jsstring) :
  clean_edges s → s ≠ [] → trim (s ++ nl) = s.
Proof.
  intros [Hh Ht] Hne. unfold trim, trimEnd.
  rewrite (trimStart_head_ok (s ++ nl)) by (by apply head_ok_app).
  rewrite rev_app_distr. cbn [rev nl app trimStart].
  change (is_ws 10%N) with true. cbn iota.
  rewrite (trimStart_head_ok _ Ht). apply rev_involutive.
Qed.

Lemma csvHeader_ok : row_ok csvHeader.
Proof.
  split; [split|split].
  - apply (bool_decide_unpack _). vm_compute. exact I.
  - intros r' H. apply (f_equal (@rev N)) in H.
    rewrite rev_app_distr in H. vm_compute in H. discriminate H.
  - split; vm_compute; reflexivity.
  - vm_compute. discriminate.
Qed.

(** The snapshot text of a non-empty list of rows, after [trim] and the
    split, is the header line followed by the rows. *)
Lemma content_lines (r : jsstring) (rs : list jsstring) :
  Forall row_ok (r :: rs) →
  splitLines (trim (csvContent (r :: rs))) = csvHeader :: r :: rs.
Proof.
  intros Hall.
  assert (Hall' : Forall row_ok (csvHeader :: r :: rs))
    by (apply Forall_cons; split; [apply csvHeader_ok | done]).
  destruct (join_clean _ _ Hall') as [Hc Hne].
  assert (Hcontent : csvContent (r :: rs) = join nl (csvHeader :: r :: rs) ++ nl).
  { unfold csvContent.
    change (join nl (csvHeader :: r :: rs))
      with (csvHeader ++ nl ++ join nl (r :: rs)).
    by rewrite <- !app_assoc. }
  rewrite Hcontent, trim_line_end by done.
  apply splitLines_join.
  eapply Forall_impl; [exact Hall'|]. by intros x (Hx & _).
Qed.

Lemma snapshotRows_ok (gs : gmap jsstring Game) :
  registry_wf gs → Forall row_ok (snapshotRows gs).
Proof.
  intros Hwf. apply Forall_forall. intros row Hin.
  unfold snapshotRows in Hin.
  apply list_elem_of_In, in_concat in Hin as (rows & Hrows & Hin).
  apply in_map_iff in Hrows as ([gid g] & <- & Hkv).
  apply list_elem_of_In, elem_of_map_to_list in Hkv.
  destruct (Hwf gid g Hkv) as (Hgid & _ & Hsecs).
  cbn [fst snd] in Hin. unfold gameRows in Hin.
  apply in_concat in Hin as (srows & Hsrows & Hin).
  apply list_elem_of_In, elem_of_lookup_imap in Hsrows as (i & sec & -> & Hsec).
  unfold sectionRows in Hin. apply in_map_iff in Hin as (name & <- & Hname).
  apply list_elem_of_In in Hname.
  pose proof (Forall_lookup_1 _ _ _ _ Hsecs Hsec) as Hs.
  apply section_wf_inv in Hs as (Hl & Hb & Hn).
  rewrite Forall_forall in Hn.
  destruct (csvRow_line gid i sec name Hl Hb Hgid (Hn name Hname)) as (? & ? & ?).
  done.
Qed.

End ContentFacts.

(** ** The games that the recovery builds *)

Section RebuildFacts.

Context (env : Env).

Lemma rebuild_lookup (meta : gmap jsstring (gmap Z SectionMeta))
    (l : list (jsstring * gmap Z (list jsstring))) (w : World) (gid : jsstring) :
  NoDup (l.*1) →
  games (foldl (λ w kv,
                  let g := restoredGame env kv.2 (default ∅ (meta !! kv.1)) in
                  saveGame kv.1 (with_games w (<[kv.1 := g]> (games w))))
               w l) !! gid
  = match list_to_map (M := gmap jsstring (gmap Z (list jsstring))) l !! gid with
    | Some sm => Some (restoredGame env sm (default ∅ (meta !! gid)))
    | None => games w !! gid
    end.
Proof.
  revert w. induction l as [|[k sm] l IH]; intros w Hnd; [done|].
  cbn [fmap list_fmap fst] in Hnd. apply NoDup_cons in Hnd as [Hk Hnd].
  cbn [foldl]. rewrite IH by done. cbn [list_to_map foldr fst snd].
  destruct (decide (k = gid)) as [->|Hne].
  - rewrite lookup_insert_eq.
    rewrite (not_elem_of_list_to_map_1 l gid) by done.
    rewrite games_saveGame. cbn [games with_games]. by rewrite lookup_insert_eq.
  - rewrite lookup_insert_ne by done.
    destruct (list_to_map l !! gid); [done|].
    rewrite games_saveGame. cbn [games with_games]. by rewrite lookup_insert_ne.
Qed.

Lemma max_list_ge (l : list Z) (k : Z) : k ∈ l → (k ≤ foldr Z.max 0 l)%Z.
Proof.
  induction l as [|x l IH]; intros Hin; [by apply elem_of_nil in Hin|].
  cbn [foldr]. apply elem_of_cons in Hin as [->|Hin]; [lia|].
  specialize (IH Hin). lia.
Qed.

Lemma max_list_in (l : list Z) :
  foldr Z.max 0%Z l = 0%Z ∨ foldr Z.max 0%Z l ∈ l.
Proof.
  induction l as [|x l IH]; [by left|]. cbn [foldr].
  destruct (Z.max_spec x (foldr Z.max 0%Z l)) as [[_ ->]|[_ ->]].
  - destruct IH as [?|?]; [by left | right; by right].
  - right. by left.
Qed.

Lemma maxSectionIdx_ge (sm : gmap Z (list jsstring)) (k : Z) :
  is_Some (sm !! k) → (k ≤ maxSectionIdx sm)%Z.
Proof.
  intros [l Hl]. apply max_list_ge.
  apply list_elem_of_In, in_map_iff. exists (k, l). split; [done|].
  by apply list_elem_of_In, elem_of_map_to_list.
Qed.

Lemma maxSectionIdx_in (sm : gmap Z (list jsstring)) :
  maxSectionIdx sm = 0%Z ∨ is_Some (sm !! maxSectionIdx sm).
Proof.
  destruct (max_list_in (map fst (map_to_list sm))) as [H|H]; [by left|].
  right. apply list_elem_of_In, in_map_iff in H as ([k l] & Hk & Hin).
  apply list_elem_of_In, elem_of_map_to_list in Hin.
  unfold maxSectionIdx. rewrite <- Hk. by eexists.
Qed.

Lemma lookup_map {A B} (f : A → B) (l : list A) (i : nat) :
  map f l !! i = f <$> l !! i.
Proof.
  revert i. induction l as [|x l IH]; intros [|i]; cbn; first [done | apply IH].
Qed.

(** The sections of a rebuilt game, by index. *)
Lemma restoredGame_sections (sm : gmap Z (list jsstring))
    (mm : gmap Z SectionMeta) (idx : nat) :
  (0 ≤ maxSectionIdx sm)%Z →
  sections (restoredGame env sm mm) !! idx
  = if decide (Z.of_nat idx ≤ maxSectionIdx sm)%Z
    then Some (restoredSection sm mm idx) else None.
Proof.
  intros Hmax. unfold sections. cbn [section0 moreSections restoredGame].
  destruct idx as [|i].
  - cbn [lookup list_lookup]. by rewrite decide_True by lia.
  - change ((?x :: ?l) !! S i) with (l !! i). rewrite lookup_map.
    destruct (decide (Z.of_nat (S i) ≤ maxSectionIdx sm)%Z) as [Hle|Hgt].
    + rewrite lookup_seq_lt by lia. done.
    + rewrite lookup_seq_ge by lia. done.
Qed.

End RebuildFacts.

(** ** The recovery keeps the names distinct *)

Section RestoreInvariant.

Context (env : Env).

Lemma pushName_NoDup (rs : list Row) (o : option (list jsstring)) (l : list jsstring) :
  (∀ l0, o = Some l0 → NoDup l0) →
  foldl pushName o rs = Some l → NoDup l.
Proof.
  revert o. induction rs as [|r rs IH]; intros o Ho H; [by apply Ho|].
  cbn [foldl] in H. apply (IH (pushName o r)); [|done]. intros l0 Hl0.
  unfold pushName in Hl0. injection Hl0 as <-.
  assert (Hd : NoDup (default [] o)).
  { destruct o as [l1|]; [by apply Ho | apply NoDup_nil_2]. }
  unfold includes. destruct (bool_decide (r_name r ∈ default [] o)) eqn:E; [done|].
  apply bool_decide_eq_false in E.
  apply NoDup_app. split; [done|]. split; [|apply NoDup_singleton].
  intros x Hx Hx'. apply list_elem_of_singleton in Hx' as ->. done.
Qed.

Lemma readRows_NoDup (cs : Columns) (lines : list jsstring) (gid : jsstring)
    (sm : gmap Z (list jsstring)) (idx : Z) (l : list jsstring) :
  byGid (readRows cs lines) !! gid = Some sm → sm !! idx = Some l → NoDup l.
Proof.
  intros Hsm Hl.
  assert (H : listAt (readRows cs lines) gid idx = Some l)
    by (unfold listAt; rewrite Hsm; done).
  rewrite readRows_omap, addRows_listAt in H.
  apply (pushName_NoDup _ _ l) in H; [done|]. intros l0 Hl0.
  unfold listAt in Hl0. cbn in Hl0. by rewrite lookup_empty in Hl0.
Qed.

Lemma restoredGame_distinct (sm : gmap Z (list jsstring)) (mm : gmap Z SectionMeta) :
  (∀ idx l, sm !! idx = Some l → NoDup l) →
  game_distinct (restoredGame env sm mm).
Proof.
  intros H.
  assert (Hs : ∀ i, distinct_names (s_list (restoredSection sm mm i))).
  { intros i. cbn [s_list restoredSection]. apply distinct_names_NoDup.
    destruct (sm !! Z.of_nat i) as [l|] eqn:E; [by eapply H | apply NoDup_nil_2]. }
  apply game_distinct_intro; [apply Hs|].
  cbn [moreSections restoredGame]. apply Forall_forall. intros s Hin.
  apply list_elem_of_In, in_map_iff in Hin as (i & <- & _). apply Hs.
Qed.

Lemma rebuild_distinct (meta : gmap jsstring (gmap Z SectionMeta))
    (l : list (jsstring * gmap Z (list jsstring))) (w : World) :
  Forall (λ kv, ∀ idx l, kv.2 !! idx = Some l → NoDup l) l →
  names_distinct (games w) →
  names_distinct
    (games (foldl (λ w kv,
                     let g := restoredGame env kv.2 (default ∅ (meta !! kv.1)) in
                     saveGame kv.1 (with_games w (<[kv.1 := g]> (games w))))
                  w l)).
Proof.
  intros Hl. revert w. induction Hl as [|kv l Hkv _ IH]; intros w Hw; [done|].
  cbn [foldl]. apply IH. rewrite games_saveGame. cbn [games with_games].
  apply names_distinct_insert; [done|]. by apply restoredGame_distinct.
Qed.

Lemma restore_distinct (content : jsstring) (w : World) :
  names_distinct (games w) →
  names_distinct (games (restoreGamesFromCsv env content w).2).
Proof.
  intros Hw. unfold restoreGamesFromCsv.
  destruct (negb (bool_decide (games w = ∅))); [done|].
  destruct (negb (truthy_str content)); [done|].
  destruct (splitLines (trim content)) as [|headerLine [|r rows]]; [done..|].
  destruct (readHeader headerLine) as [cs|]; [|done].
  destruct (bool_decide (byGid (readRows cs (r :: rows)) = ∅)); [done|].
  cbn [snd]. apply rebuild_distinct; [|done].
  apply Forall_forall. intros [gid sm] Hin idx l Hl.
  apply elem_of_map_to_list in Hin. cbn [snd] in Hl.
  by eapply readRows_NoDup.
Qed.

End RestoreInvariant.

(** C4. Every operation keeps the names of each list distinct (the
    placeholders apart): the handling of every intent (creation, end,
    modification, join, leave, bulk list, section configuration, clear,
    delete), and the recovery from any snapshot text. *)
Theorem names_stay_distinct :
  (∀ (env : Env) (gid uid : jsstring) (i : intent) (w : World),
     names_distinct (games w) →
     names_distinct (games (handleEvent env gid uid i w)))
  ∧ (∀ (env : Env) (content : jsstring) (w : World),
       names_distinct (games w) →
       names_distinct (games (restoreGamesFromCsv env content w).2)).
Proof.
  split.
  - intros env gid uid i w. apply handleEvent_distinct.
  - intros env content w. apply restore_distinct.
Qed.

(** ** Snapshot, then recovery *)

Section RoundTrip.

Context (env : Env) (gs : gmap jsstring Game) (w0 : World).
Hypothesis Hempty : games w0 = ∅.
Hypothesis Hwf : registry_wf gs.

Lemma snapshot_records :
  omap (readRow snapshotColumns) (snapshotRows gs)
  = registryRecords (map_to_list gs).
Proof.
  unfold snapshotRows. apply readRow_registry.
  apply Forall_forall. intros [gid g] Hin.
  apply elem_of_map_to_list in Hin. destruct (Hwf gid g Hin) as (? & _ & ?).
  done.
Qed.

(** The registry after the recovery, read through the two maps. *)
Lemma restore_lookup (gid : jsstring) :
  games (restoreGamesFromCsv env (snapshotContent gs) w0).2 !! gid
  = (λ sm, restoredGame env sm
             (default ∅ (metaByGid (snapshotRestore gs) !! gid)))
    <$> byGid (snapshotRestore gs) !! gid.
Proof.
  unfold restoreGamesFromCsv. rewrite Hempty.
  rewrite bool_decide_eq_true_2 by done. cbn [negb].
  assert (Ht : truthy_str (snapshotContent gs) = true) by reflexivity.
  rewrite Ht. cbn [negb].
  pose proof (snapshotRows_ok gs Hwf) as Hok.
  pose proof snapshot_records as Hrec.
  unfold snapshotContent, snapshotRestore.
  destruct (snapshotRows gs) as [|r rs] eqn:Hrows.
  - assert (Hl : splitLines (trim (csvContent [])) = [csvHeader])
      by (vm_compute; reflexivity).
    rewrite Hl. cbn [snd]. rewrite Hempty, lookup_empty.
    rewrite <- Hrec. cbn [omap list_omap foldl byGid].
    by rewrite lookup_empty.
  - rewrite content_lines by done. rewrite readHeader_snapshot.
    rewrite readRows_omap, Hrec.
    set (acc := foldl addRow (mkRestore ∅ ∅) (registryRecords (map_to_list gs))).
    destruct (decide (byGid acc = ∅)) as [He|Hne].
    + rewrite bool_decide_eq_true_2 by done. cbn [snd].
      by rewrite Hempty, He, !lookup_empty.
    + rewrite bool_decide_eq_false_2 by done. cbn [snd].
      rewrite rebuild_lookup by apply NoDup_fst_map_to_list.
      rewrite list_to_map_to_list, Hempty, lookup_empty.
      by destruct (byGid acc !! gid).
Qed.

Context (gid : jsstring) (g : Game).
Hypothesis Hg : gs !! gid = Some g.

Lemma game_rows (idx : Z) :
  rowsFor gid idx (registryRecords (map_to_list gs))
  = if decide (0 ≤ idx)%Z
    then match sections g !! Z.to_nat idx with
         | Some sec => sectionRecords gid (Z.to_nat idx) sec
         | None => []
         end
    else [].
Proof.
  rewrite rowsFor_registry by apply NoDup_fst_map_to_list.
  rewrite list_to_map_to_list, Hg, rowsFor_gameRecords.
  destruct (decide (0 ≤ idx)%Z).
  - by rewrite decide_True by done.
  - by rewrite decide_False by (intros [_ ?]; done).
Qed.

Lemma section_facts (idx : nat) (sec : Section) :
  sections g !! idx = Some sec →
  NoDup (realNames (s_list sec))
  ∧ (0 ≤ s_limit sec)%Z ∧ (0 ≤ s_backupLimit sec)%Z.
Proof.
  intros Hs. destruct (Hwf gid g Hg) as (_ & Hd & Hw).
  pose proof (Forall_lookup_1 _ _ _ _ Hd Hs) as H1.
  pose proof (Forall_lookup_1 _ _ _ _ Hw Hs) as H2.
  apply section_wf_inv in H2 as (? & ? & _). done.
Qed.

(** The list that the row loop holds for a section index. *)
Lemma restored_list (idx : Z) :
  listAt (snapshotRestore gs) gid idx
  = if decide (0 ≤ idx)%Z
    then sections g !! Z.to_nat idx
         ≫= (λ sec, match realNames (s_list sec) with
                    | [] => None
                    | l => Some l
                    end)
    else None.
Proof.
  unfold snapshotRestore. rewrite addRows_listAt, game_rows.
  assert (H0 : listAt (mkRestore ∅ ∅) gid idx = None)
    by (unfold listAt; cbn; by rewrite lookup_empty).
  rewrite H0. destruct (decide (0 ≤ idx)%Z); [|done].
  destruct (sections g !! Z.to_nat idx) as [sec|] eqn:Hs; [|done].
  destruct (section_facts _ _ Hs) as (Hnd & _).
  unfold sectionRecords. rewrite pushName_names by done.
  cbn [mbind option_bind]. by destruct (realNames (s_list sec)).
Qed.

(** The capacities that the row loop holds for a section index. *)
Lemma restored_meta (idx : Z) :
  metaAt (snapshotRestore gs) gid idx
  = if decide (0 ≤ idx)%Z
    then sections g !! Z.to_nat idx
         ≫= (λ sec, match realNames (s_list sec) with
                    | [] => None
                    | _ => Some (mkMeta (if (0 <? s_limit sec)%Z
                                         then Some (s_limit sec) else None)
                                        (Some (s_backupLimit sec)))
                    end)
    else None.
Proof.
  unfold snapshotRestore. rewrite addRows_metaAt, game_rows.
  assert (H0 : metaAt (mkRestore ∅ ∅) gid idx = None)
    by (unfold metaAt; cbn; by rewrite lookup_empty).
  rewrite H0. destruct (decide (0 ≤ idx)%Z); [|done].
  destruct (sections g !! Z.to_nat idx) as [sec|] eqn:Hs; [|done].
  destruct (section_facts _ _ Hs) as (_ & Hl & Hb).
  unfold sectionRecords. rewrite pushMeta_names by done.
  cbn [mbind option_bind]. by destruct (realNames (s_list sec)).
Qed.

(** The conversation is in the map exactly when the game has a real
    name. *)
Lemma restored_present :
  is_Some (byGid (snapshotRestore gs) !! gid) ↔ hasRealNames g = true.
Proof.
  unfold snapshotRestore. rewrite addRows_byGid. cbn [byGid].
  rewrite lookup_empty. split.
  - intros [[? ?]|(r & Hr & Hrg)]; [done|].
    assert (Hin : r ∈ rowsFor gid (r_section r) (registryRecords (map_to_list gs)))
      by (unfold rowsFor; by apply list_elem_of_filter).
    rewrite game_rows in Hin.
    destruct (decide (0 ≤ r_section r)%Z); [|by apply elem_of_nil in Hin].
    destruct (sections g !! Z.to_nat (r_section r)) as [sec|] eqn:Hs;
      [|by apply elem_of_nil in Hin].
    unfold hasRealNames. apply existsb_exists. exists sec. split.
    + eapply list_elem_of_In, list_elem_of_lookup_2. exact Hs.
    + unfold sectionRecords in Hin.
      by destruct (realNames (s_list sec)); [apply elem_of_nil in Hin|].
  - intros H. right. unfold hasRealNames in H.
    apply existsb_exists in H as (sec & Hin & Hne).
    apply list_elem_of_In, list_elem_of_lookup_1 in Hin as (i & Hi).
    destruct (realNames (s_list sec)) as [|n names] eqn:Hnames; [done|].
    assert (Hr : rowOf gid i sec n
                 ∈ rowsFor gid (Z.of_nat i) (registryRecords (map_to_list gs))).
    { rewrite game_rows. rewrite decide_True by lia.
      rewrite Nat2Z.id, Hi. unfold sectionRecords. rewrite Hnames. by left. }
    unfold rowsFor in Hr. apply list_elem_of_filter in Hr as [[Hrg _] Hr].
    by exists (rowOf gid i sec n).
Qed.

End RoundTrip.

Section RoundTripTheorem.

Lemma max_list_nonneg (l : list Z) : (0 ≤ foldr Z.max 0 l)%Z.
Proof. induction l as [|x l IH]; cbn [foldr]; lia. Qed.

Lemma restoredSection_fields (sm : gmap Z (list jsstring))
    (mm : gmap Z SectionMeta) (idx : nat) (sec : Section) :
  (0 ≤ s_limit sec)%Z →
  sm !! Z.of_nat idx
  = match realNames (s_list sec) with [] => None | l => Some l end →
  mm !! Z.of_nat idx
  = match realNames (s_list sec) with
    | [] => None
    | _ => Some (mkMeta (if (0 <? s_limit sec)%Z then Some (s_limit sec) else None)
                        (Some (s_backupLimit sec)))
    end →
  s_list (restoredSection sm mm idx) = realNames (s_list sec)
  ∧ s_limit (restoredSection sm mm idx)
    = (if (0 <? s_limit sec)%Z && nonEmpty (realNames (s_list sec))
       then s_limit sec
       else Z.max 20 (Z.of_nat (length (realNames (s_list sec)))))
  ∧ s_backupLimit (restoredSection sm mm idx)
    = (if nonEmpty (realNames (s_list sec)) then s_backupLimit sec else 5%Z).
Proof.
  intros Hl Hsm Hmm. unfold restoredSection.
  cbn [s_list s_limit s_backupLimit]. rewrite Hsm, Hmm.
  destruct (realNames (s_list sec)) as [|n names].
  - cbn. rewrite andb_false_r. done.
  - unfold default, id. cbn [meta_limit meta_backupLimit nonEmpty].
    rewrite andb_true_r. split; [done|]. split; [|done].
    destruct (Z.ltb_spec 0 (s_limit sec)) as [Hpos|Hz]; cbn [num_or]; [|done].
    by rewrite (proj2 (Z.eqb_neq (s_limit sec) 0)) by lia.
Qed.

End RoundTripTheorem.

(** C1, as the code has it. Take a registry in which every conversation
    id and every real name is non-empty, has no white space at its ends
    and no line feed, every list has its real names distinct, and the
    capacities are non-negative safe integers. Its snapshot, recovered into
    an empty registry, gives back exactly the games that list a real name
    (a game that holds only placeholders, or nothing, is not rebuilt). Each
    section of a rebuilt game stands at the index of a section of the
    original and its list is the real names of that section, in their
    order, without any placeholder; every section of the original that has
    a real name is there. The capacity is the positive capacity written in
    the rows, or else the larger of 20 and the number of names; the
    waitlist is the one written in the rows, or 5 for a section without
    rows. *)
Theorem snapshot_round_trip (env : Env) (gs : gmap jsstring Game) (w0 : World)
    (gid : jsstring) (g : Game) :
  games w0 = ∅ → registry_wf gs → gs !! gid = Some g →
  (hasRealNames g = false →
   games (restoreGamesFromCsv env (snapshotContent gs) w0).2 !! gid = None)
  ∧ (hasRealNames g = true →
     ∃ g', games (restoreGamesFromCsv env (snapshotContent gs) w0).2 !! gid
           = Some g'
       ∧ (∀ idx sec', sections g' !! idx = Some sec' →
            ∃ sec, sections g !! idx = Some sec
              ∧ s_list sec' = realNames (s_list sec)
              ∧ (ANON ∉ s_list sec')
              ∧ s_limit sec'
                = (if (0 <? s_limit sec)%Z && nonEmpty (realNames (s_list sec))
                   then s_limit sec
                   else Z.max 20 (Z.of_nat (length (realNames (s_list sec)))))
              ∧ s_backupLimit sec'
                = (if nonEmpty (realNames (s_list sec))
                   then s_backupLimit sec else 5%Z))
       ∧ (∀ idx sec, sections g !! idx = Some sec →
            realNames (s_list sec) ≠ [] → is_Some (sections g' !! idx))).
Proof.
  intros Hempty Hwf Hg.
  rewrite (restore_lookup env gs w0 Hempty Hwf gid).
  pose proof (restored_present gs gid g Hg) as Hpresent.
  pose proof (restored_list gs Hwf gid g Hg) as Hlist.
  pose proof (restored_meta gs Hwf gid g Hg) as Hmeta.
  set (acc := snapshotRestore gs) in *.
  split.
  - intros Hno. destruct (byGid acc !! gid) as [sm|] eqn:Hsm; [|done].
    assert (hasRealNames g = true) by (apply Hpresent; by eexists). congruence.
  - intros Hyes. apply Hpresent in Hyes as [sm Hsm]. rewrite Hsm.
    set (mm := default ∅ (metaByGid acc !! gid)).
    exists (restoredGame env sm mm). split; [done|].
    assert (Hsm' : ∀ idx, sm !! idx = listAt acc gid idx)
      by (intros idx; unfold listAt; by rewrite Hsm).
    assert (Hmm' : ∀ idx, mm !! idx = metaAt acc gid idx).
    { intros idx. unfold metaAt, mm.
      destruct (metaByGid acc !! gid); [done|]. cbn. apply lookup_empty. }
    assert (Hmax : (0 ≤ maxSectionIdx sm)%Z) by apply max_list_nonneg.
    assert (Hat : ∀ (i : nat) sec, sections g !! i = Some sec →
              sm !! Z.of_nat i
              = match realNames (s_list sec) with [] => None | l => Some l end
              ∧ mm !! Z.of_nat i
                = match realNames (s_list sec) with
                  | [] => None
                  | _ => Some (mkMeta (if (0 <? s_limit sec)%Z
                                       then Some (s_limit sec) else None)
                                      (Some (s_backupLimit sec)))
                  end).
    { intros i sec Hs. rewrite Hsm', Hmm', Hlist, Hmeta.
      rewrite !decide_True by lia. by rewrite Nat2Z.id, Hs. }
    split.
    + intros idx sec' Hsec'.
      rewrite restoredGame_sections in Hsec' by done.
      destruct (decide (Z.of_nat idx ≤ maxSectionIdx sm)%Z) as [Hle|]; [|done].
      injection Hsec' as <-.
      assert (Hex : is_Some (sections g !! idx)).
      { destruct (maxSectionIdx_in sm) as [H0|[l Hl]].
        - assert (idx = 0%nat) as -> by lia. by eexists.
        - rewrite Hsm', Hlist in Hl. rewrite decide_True in Hl by done.
          destruct (sections g !! Z.to_nat (maxSectionIdx sm)) as [sm'|] eqn:E;
            [|done].
          apply lookup_lt_Some in E. apply lookup_lt_is_Some_2. lia. }
      destruct Hex as [sec Hs]. exists sec. split; [done|].
      destruct (Hat idx sec Hs) as [H1 H2].
      destruct (section_facts gs Hwf gid g Hg idx sec Hs) as (_ & Hl & _).
      destruct (restoredSection_fields sm mm idx sec Hl H1 H2) as (Ha & Hb & Hc).
      split; [done|]. split; [|done].
      rewrite Ha. intros Hin. apply realNames_elem in Hin as [? _]. done.
    + intros idx sec Hs Hne.
      rewrite restoredGame_sections by done.
      rewrite decide_True; [by eexists|].
      apply maxSectionIdx_ge. destruct (Hat idx sec Hs) as [H1 _].
      rewrite H1. destruct (realNames (s_list sec)); [done | by eexists].
Qed.

Section SampleRegistries.

Lemma sample_plain (s : jsstring) :
  s ≠ [] → trim s = s → bool_decide (ch_lf ∈ s) = false → plain_text s.
Proof.
  intros H1 H2 H3. repeat split; try done.
  by apply bool_decide_eq_false in H3.
Qed.

Lemma sampleRegistry_wf : registry_wf sampleRegistry.
Proof.
  apply map_Forall_singleton. split; [|split].
  - apply sample_plain; vm_compute; (reflexivity || discriminate).
  - apply Forall_singleton. apply (bool_decide_unpack _). vm_compute. exact I.
  - apply Forall_singleton. split; [|split].
    + vm_compute. split; [discriminate | reflexivity].
    + vm_compute. split; [discriminate | reflexivity].
    + change (realNames (s_list (section0
               (sampleGame true SchedNone [lit "amy"; ANON; lit "bob"] []))))
        with [lit "amy"; lit "bob"].
      repeat (apply Forall_cons; split);
        [ apply sample_plain; vm_compute; (reflexivity || discriminate) ..
        | apply Forall_nil_2 ].
Qed.

Lemma placeholderRegistry_wf : registry_wf placeholderRegistry.
Proof.
  apply map_Forall_singleton. split; [|split].
  - apply sample_plain; vm_compute; (reflexivity || discriminate).
  - apply Forall_singleton. apply (bool_decide_unpack _). vm_compute. exact I.
  - apply Forall_singleton. split; [|split].
    + vm_compute. split; [discriminate | reflexivity].
    + vm_compute. split; [discriminate | reflexivity].
    + apply Forall_nil_2.
Qed.

End SampleRegistries.

(** C1, witness: the sample registry, saved and recovered. *)
Lemma snapshot_round_trip_witness :
  ∃ g', games (restoreGamesFromCsv sampleEnv (snapshotContent sampleRegistry)
                 emptyWorld).2 !! sampleGid = Some g'
        ∧ ∀ idx sec',
            sections g' !! idx = Some sec' →
            ∃ sec,
              sections (sampleGame true SchedNone [lit "amy"; ANON; lit "bob"] [])
                !! idx = Some sec
              ∧ s_list sec' = realNames (s_list sec).
Proof.
  destruct (proj2 (snapshot_round_trip sampleEnv sampleRegistry emptyWorld
                     sampleGid
                     (sampleGame true SchedNone [lit "amy"; ANON; lit "bob"] [])
                     eq_refl sampleRegistry_wf (lookup_singleton_eq _ _))
                  eq_refl) as (g' & Hg' & Hsecs & _).
  exists g'. split; [exact Hg'|].
  intros idx sec' Hs. destruct (Hsecs idx sec' Hs) as (sec & H1 & H2 & _).
  exists sec. split; assumption.
Defined.

(** C1, counterexample. A game that holds placeholders only satisfies the
    invariants of the data model, writes a snapshot without rows, and the
    recovery from that snapshot rebuilds nothing: the registry stays
    empty, and no game stands for the conversation. *)
Lemma placeholders_only_not_restored :
  registry_wf placeholderRegistry
  ∧ restoreGamesFromCsv sampleEnv (snapshotContent placeholderRegistry) emptyWorld
    = (false, emptyWorld)
  ∧ games (restoreGamesFromCsv sampleEnv (snapshotContent placeholderRegistry)
             emptyWorld).2 !! sampleGid = None.
Proof.
  split; [apply placeholderRegistry_wf|].
  split; vm_compute; reflexivity.
Qed.

(** ** Worked examples *)

Section Examples.

Example start_form_wins :
  addMatch (lit "+1 amy +2") = Some (1%Z, lit "amy +2").
Proof. vm_compute. reflexivity. Qed.

Example end_form_with_name :
  addMatch (lit "amy +3") = Some (3%Z, lit "amy")
  ∧ removeMatch (lit "amy-1") = Some (lit "amy")
  ∧ addMatch (lit "amy +0") = None
  ∧ addMatch (lit "amy +10") = None.
Proof. repeat split; vm_compute; reflexivity. Qed.

Example fold_message :
  renderList (sampleGame true SchedNone [lit "A"; ANON; ANON; lit "B"] []) []
  = lit "Sunday" ++ nl ++ nl ++ lit "【報名名單】" ++ nl
    ++ lit "1. A" ++ nl ++ lit "3. ***" ++ nl ++ lit "4. B" ++ nl
    ++ lit ".." ++ nl ++ lit "20.".
Proof. vm_compute. reflexivity. Qed.

Example snapshot_text :
  snapshotContent sampleRegistry
  = lit "gid,sectionIdx,name,limit,backupLimit" ++ nl
    ++ lit "C1,0,amy,20,5" ++ nl ++ lit "C1,0,bob,20,5" ++ nl.
Proof. vm_compute. reflexivity. Qed.

Example restore_sample :
  listsOf (games (restoreGamesFromCsv sampleEnv (snapshotContent sampleRegistry)
                    emptyWorld).2) sampleGid
  = Some [[lit "amy"; lit "bob"]].
Proof. vm_compute. reflexivity. Qed.

(** A name with a line feed is quoted by [csvEscape], but the recovery
    cuts the text into lines before it reads the fields: the name comes
    back cut at the line feed. *)
Example line_feed_name_is_cut :
  listsOf (games (restoreGamesFromCsv sampleEnv (snapshotContent lineFeedRegistry)
                    emptyWorld).2) sampleGid
  = Some [[lit "a"]].
Proof. vm_compute. reflexivity. Qed.

(** The recovery trims every name. *)
Example edge_space_name_is_trimmed :
  listsOf (games (restoreGamesFromCsv sampleEnv (snapshotContent edgeSpaceRegistry)
                    emptyWorld).2) sampleGid
  = Some [[lit "amy"]].
Proof. vm_compute. reflexivity. Qed.

Example join_then_duplicate :
  listsOf (games (handleJoin sampleEnv sampleGid sampleUid 2 (lit "amy bob")
                    (sampleWorld (sampleGame true SchedNone [] []))))
          sampleGid
  = Some [[lit "amy"; lit "bob"]]
  ∧ listsOf (games (handleJoin sampleEnv sampleGid sampleUid 1 (lit "amy")
                      (handleJoin sampleEnv sampleGid sampleUid 2 (lit "amy bob")
                         (sampleWorld (sampleGame true SchedNone [] [])))))
            sampleGid
    = Some [[lit "amy"; lit "bob"]].
Proof. split; vm_compute; reflexivity. Qed.

(** Rows of one section that disagree on the capacities: the recovery
    keeps the largest of each. *)
Example restore_takes_largest_capacity :
  (λ g, (s_limit (section0 g), s_backupLimit (section0 g)))
  <$> games (restoreGamesFromCsv sampleEnv
               (csvHeader ++ nl ++ lit "C1,0,amy,10,2" ++ nl
                ++ lit "C1,0,bob,30,1" ++ nl)
               emptyWorld).2 !! sampleGid
  = Some (30%Z, 2%Z).
Proof. vm_compute. reflexivity. Qed.

(** A sixth join on a section of capacity 3 and waitlist 2: the name is in
    the list, and the roster of the reply does not show it. *)
Example sixth_join_not_shown :
  let g := mkGame (lit "Sunday") [] true 0 0 SchedNone None [] 0
             (mkSection (lit "S") 3 2 []
                [lit "a"; lit "b"; lit "c"; lit "d"; lit "e"]) [] in
  let w := handleJoin sampleEnv sampleGid sampleUid 1 (lit "f") (sampleWorld g) in
  listsOf (games w) sampleGid
  = Some [[lit "a"; lit "b"; lit "c"; lit "d"; lit "e"; lit "f"]]
  ∧ last (trace w) = Some (EvReply (renderList g [])).
Proof. split; vm_compute; reflexivity. Qed.

End Examples.

(** * Further properties of the code *)

(** ** Whole rows of the snapshot file *)

(** X1. A row made of any fields, each through [csvEscape] and joined by
    commas as [saveCurrentListSnapshot] does, is cut by [parseCsvLine] into
    the same fields in the same order, whatever commas, double quotes or
    line breaks the fields hold. *)
Theorem csv_row_round_trip (f : jsstring) (fs : list jsstring) :
  parseCsvLine (join [ch_comma] (map csvEscape (f :: fs))) = f :: fs.
Proof. unfold parseCsvLine. exact (parse_escaped_row fs f []). Qed.

Section UnquotedLines.

Lemma join_comma_cons (f : jsstring) (fs : list jsstring) :
  fs ≠ [] → join [ch_comma] (f :: fs) = f ++ ch_comma :: join [ch_comma] fs.
Proof. by destruct fs. Qed.

Lemma parse_unquoted (line cur : jsstring) (res : list jsstring) :
  ch_quote ∉ line → ch_comma ∉ cur →
  ∃ fields, parseCsvLine_loop line cur false res = res ++ fields
            ∧ fields ≠ []
            ∧ join [ch_comma] fields = cur ++ line
            ∧ Forall (λ f, ch_comma ∉ f) fields.
Proof.
  revert cur res. induction line as [|c line IH]; intros cur res Hq Hcur.
  - exists [cur]. cbn. rewrite app_nil_r. repeat split; try done.
    by apply Forall_singleton.
  - apply not_elem_of_cons in Hq as [Hc Hq]. cbn [parseCsvLine_loop].
    destruct (N.eqb_spec c ch_comma) as [->|Hcomma].
    + destruct (IH [] (res ++ [cur]) Hq (not_elem_of_nil _))
        as (fields & -> & Hne & Hjoin & Hall).
      exists (cur :: fields). rewrite <- app_assoc. repeat split; try done.
      * rewrite join_comma_cons by done. by rewrite Hjoin.
      * by apply Forall_cons.
    + rewrite (proj2 (N.eqb_neq c ch_quote)) by done.
      destruct (IH (cur ++ [c]) res Hq) as (fields & -> & Hne & Hjoin & Hall).
      { rewrite not_elem_of_app. split; [done|].
        intros Hin. apply list_elem_of_singleton in Hin. done. }
      exists fields. repeat split; try done.
      by rewrite Hjoin, <- app_assoc.
Qed.

End UnquotedLines.

(** X2. On a line without any double quote, [parseCsvLine] cuts at every
    comma and nowhere else: no field holds a comma, the fields joined by
    commas are the line again, and there is always at least one field (the
    empty line gives one empty field). *)
Theorem csv_unquoted_line (line : jsstring) :
  ch_quote ∉ line →
  parseCsvLine line ≠ []
  ∧ join [ch_comma] (parseCsvLine line) = line
  ∧ Forall (λ f, ch_comma ∉ f) (parseCsvLine line).
Proof.
  intros Hq. unfold parseCsvLine.
  destruct (parse_unquoted line [] [] Hq (not_elem_of_nil _))
    as (fields & -> & Hne & Hjoin & Hall).
  done.
Qed.

(** X2, witness: a line of three fields, the middle one empty. *)
Lemma csv_unquoted_line_witness :
  join [ch_comma] (parseCsvLine (lit "C1,,amy")) = lit "C1,,amy".
Proof.
  refine (proj1 (proj2 (csv_unquoted_line (lit "C1,,amy") _))).
  apply (bool_decide_unpack _). vm_compute. exact I.
Defined.

(** ** What the snapshot holds *)

Section SnapshotRows.

Lemma elem_of_concat {A} (x : A) (ls : list (list A)) :
  x ∈ concat ls ↔ ∃ l, l ∈ ls ∧ x ∈ l.
Proof.
  rewrite list_elem_of_In, in_concat. split.
  - intros (l & Hl & Hx). exists l. by rewrite !list_elem_of_In.
  - intros (l & Hl & Hx). exists l. by rewrite <- !list_elem_of_In.
Qed.

Lemma elem_of_map_iff {A B} (f : A → B) (l : list A) (y : B) :
  y ∈ map f l ↔ ∃ x, y = f x ∧ x ∈ l.
Proof.
  rewrite list_elem_of_In, in_map_iff. split.
  - intros (x & <- & Hx). exists x. by rewrite list_elem_of_In.
  - intros (x & -> & Hx). exists x. by rewrite <- list_elem_of_In.
Qed.

Lemma elem_of_gameRows (gid : jsstring) (g : Game) (row : jsstring) :
  row ∈ gameRows gid g
  ↔ ∃ idx sec name, sections g !! idx = Some sec ∧ name ∈ s_list sec
                    ∧ name ≠ ANON ∧ row = csvRow gid idx sec name.
Proof.
  unfold gameRows. rewrite elem_of_concat. split.
  - intros (l & Hl & Hrow). apply elem_of_lookup_imap in Hl as (idx & sec & -> & Hsec).
    unfold sectionRows in Hrow. apply elem_of_map_iff in Hrow as (name & -> & Hn).
    unfold realNames in Hn. apply list_elem_of_filter in Hn as [Hreal Hin].
    by exists idx, sec, name.
  - intros (idx & sec & name & Hsec & Hin & Hreal & ->).
    exists (sectionRows gid idx sec). split.
    + apply elem_of_lookup_imap. by exists idx, sec.
    + unfold sectionRows. apply elem_of_map_iff. exists name. split; [done|].
      unfold realNames. by apply list_elem_of_filter.
Qed.

End SnapshotRows.

(** ** The two loops of the rendering, on sections without masked names *)

Section RenderLoops.

Lemma concat_seq_offset {A B} (F : nat → list A) (l : list B) :
  ∀ (k : nat) (G : nat → B → list A),
    (∀ i x, l !! i = Some x → F (k + i)%nat = G i x) →
    concat (map F (seq k (length l))) = concat (imap G l).
Proof.
  induction l as [|y l IH]; intros k G H; [done|].
  cbn [length seq map concat imap]. f_equal.
  - rewrite <- (H 0%nat y eq_refl). f_equal. lia.
  - apply IH. intros i x Hi. unfold compose. rewrite <- (H (S i) x Hi). f_equal. lia.
Qed.

Lemma concat_seq_nil {A} (F : nat → list A) (k m : nat) :
  (∀ i, (k ≤ i < k + m)%nat → F i = []) → concat (map F (seq k m)) = [].
Proof.
  revert k. induction m as [|m IH]; intros k H; [done|].
  cbn [seq map concat]. rewrite H by lia. rewrite IH; [done|].
  intros i Hi. apply H. lia.
Qed.

(** A loop over [0 .. m) whose turns past the end of [l] add nothing. *)
Lemma concat_seq_imap {A B} (F : nat → list A) (G : nat → B → list A)
    (l : list B) (m : nat) :
  (length l ≤ m)%nat →
  (∀ i x, l !! i = Some x → F i = G i x) →
  (∀ i, (length l ≤ i < m)%nat → F i = []) →
  concat (map F (seq 0 m)) = concat (imap G l).
Proof.
  intros Hm HG Hnil.
  replace m with (length l + (m - length l))%nat by lia.
  rewrite seq_app, map_app, concat_app.
  rewrite (concat_seq_offset F l 0 G) by (intros i x Hi; by apply HG).
  rewrite concat_seq_nil; [by rewrite app_nil_r|].
  intros i Hi. apply Hnil. lia.
Qed.

Context (g : Game) (sec : Section).

Lemma confirmedLine_plain (i : nat) (name : jsstring) :
  isAnon g name = false → s_list sec !! i = Some name →
  default [] (confirmedLine g sec i) = numberedLine (s_label sec) i name.
Proof.
  intros Ha Hi. unfold confirmedLine. rewrite Hi, Ha. reflexivity.
Qed.

(** The turns of the confirmed loop past the end of the list. *)
Lemma confirmedLine_empty_slot (i : nat) :
  (length (s_list sec) ≤ i < Z.to_nat (s_limit sec))%nat →
  default [] (confirmedLine g sec i)
  = if (i =? Z.to_nat (s_limit sec) - 1)%nat
    then numberedLine (s_label sec) i []
    else if (i =? length (s_list sec))%nat then lit ".." ++ nl else [].
Proof.
  intros Hi. unfold confirmedLine.
  rewrite (lookup_ge_None_2 (s_list sec) i) by lia.
  destruct (Nat.eqb_spec i (Z.to_nat (s_limit sec) - 1)) as [E|E].
  - rewrite (proj2 (Z.eqb_eq _ _)) by lia. reflexivity.
  - rewrite (proj2 (Z.eqb_neq _ _)) by lia.
    by destruct (i =? length (s_list sec))%nat.
Qed.

Lemma confirmed_tail :
  (length (s_list sec) < Z.to_nat (s_limit sec))%nat →
  concat (map (λ i, default [] (confirmedLine g sec i))
              (seq (length (s_list sec))
                   (Z.to_nat (s_limit sec) - length (s_list sec))))
  = (if (length (s_list sec) <? Z.to_nat (s_limit sec) - 1)%nat
     then lit ".." ++ nl else [])
    ++ numberedLine (s_label sec) (Z.to_nat (s_limit sec) - 1) [].
Proof.
  intros Hlt. set (n := length (s_list sec)) in *.
  set (L := Z.to_nat (s_limit sec)) in *.
  destruct (Nat.ltb_spec n (L - 1)) as [Hlow|Hlast].
  - replace (L - n)%nat with (1 + (L - n - 2) + 1)%nat by lia.
    rewrite !seq_app, !map_app, !concat_app. cbn [seq map concat].
    rewrite (confirmedLine_empty_slot n) by (fold n L; lia). fold n L.
    rewrite (proj2 (Nat.eqb_neq n (L - 1))) by lia. rewrite Nat.eqb_refl.
    rewrite concat_seq_nil.
    + rewrite (confirmedLine_empty_slot (n + (1 + (L - n - 2)))) by (fold n L; lia).
      fold n L. rewrite (proj2 (Nat.eqb_eq _ (L - 1))) by lia.
      rewrite !app_nil_r. cbn [app]. do 2 f_equal. lia.
    + intros i Hi. rewrite confirmedLine_empty_slot by (fold n L; lia). fold n L.
      rewrite (proj2 (Nat.eqb_neq i (L - 1))) by lia.
      by rewrite (proj2 (Nat.eqb_neq i n)) by lia.
  - replace (L - n)%nat with 1%nat by lia. cbn [seq map concat].
    rewrite (confirmedLine_empty_slot n) by (fold n L; lia). fold n L.
    rewrite (proj2 (Nat.eqb_eq n (L - 1))) by lia.
    rewrite app_nil_r. cbn [app]. do 2 f_equal. lia.
Qed.

End RenderLoops.

(** X4. The confirmed loop of [sendList] on a section that holds no
    anonymous entry: the first names of the list, as many as the capacity,
    are printed one per line with their number; when the list is shorter
    than the capacity, the free slots are printed as one line of two dots
    (left out when only one slot is free) and a last line that carries the
    number of the capacity and no name. *)
Theorem confirmed_block_plain (g : Game) (sec : Section) :
  Forall (λ n, isAnon g n = false) (s_list sec) →
  confirmedBlock g sec
  = concat (imap (numberedLine (s_label sec))
                 (take (Z.to_nat (s_limit sec)) (s_list sec)))
    ++ (if (Z.of_nat (length (s_list sec)) <? s_limit sec)%Z
        then (if (Z.of_nat (length (s_list sec)) <? s_limit sec - 1)%Z
              then lit ".." ++ nl else [])
             ++ numberedLine (s_label sec) (Z.to_nat (s_limit sec) - 1) []
        else []).
Proof.
  intros Hplain. unfold confirmedBlock.
  set (F := λ i, default [] (confirmedLine g sec i)).
  set (L := Z.to_nat (s_limit sec)). set (n := length (s_list sec)).
  assert (Hfirst : concat (map F (seq 0 (length (take L (s_list sec)))))
                   = concat (imap (numberedLine (s_label sec)) (take L (s_list sec)))).
  { apply (concat_seq_offset F (take L (s_list sec)) 0).
    intros i x Hi. cbn [Nat.add]. apply lookup_take_Some in Hi as [Hi _].
    apply confirmedLine_plain; [|done].
    rewrite Forall_forall in Hplain. apply Hplain.
    by eapply list_elem_of_lookup_2. }
  rewrite length_take in Hfirst. fold n in Hfirst.
  destruct (Z.ltb_spec (Z.of_nat n) (s_limit sec)) as [Hlt|Hge].
  - replace L with (L `min` n + (L - n))%nat at 1 by lia.
    rewrite seq_app, map_app, concat_app, Hfirst. f_equal.
    replace (0 + L `min` n)%nat with n by lia.
    unfold F, n, L. rewrite confirmed_tail by lia.
    f_equal. fold n.
    destruct (Z.ltb_spec (Z.of_nat n) (s_limit sec - 1)),
             (Nat.ltb_spec n (Z.to_nat (s_limit sec) - 1)); (done || lia).
  - replace L with (L `min` n)%nat at 1 by lia.
    by rewrite Hfirst, app_nil_r.
Qed.

(** X4, witness: two names in a section of capacity 5. *)
Lemma confirmed_block_plain_witness :
  confirmedBlock (sampleGame true SchedNone [lit "amy"; lit "bob"] [])
                 (mkSection [] 5 2 [] [lit "amy"; lit "bob"])
  = lit "1. amy" ++ nl ++ lit "2. bob" ++ nl ++ lit ".." ++ nl ++ lit "5. " ++ nl.
Proof.
  rewrite (confirmed_block_plain
             (sampleGame true SchedNone [lit "amy"; lit "bob"] [])
             (mkSection [] 5 2 [] [lit "amy"; lit "bob"])).
  - vm_compute. reflexivity.
  - repeat constructor.
Defined.

(** X5. The waitlist loop of [sendList] on a section of capacity 0 or more,
    none of whose entries is among the anonymous display names of the game:
    the block is there exactly when the list has as many entries as the
    capacity or more; after its header come the entries past the capacity,
    as many as the waitlist size at most, numbered from 1, each with the
    text that the list stores (a placeholder in the waitlist is printed as
    its token); the entries beyond capacity plus waitlist size are not
    printed. *)
Theorem waitlist_block_plain (g : Game) (sec : Section) :
  (0 ≤ s_limit sec)%Z →
  Forall (λ n, includes (anonymous g) n = false) (s_list sec) →
  waitlistBlock g sec
  = if (s_limit sec <=? Z.of_nat (length (s_list sec)))%Z
    then lit "--- 候補 ---" ++ nl
         ++ concat (imap (λ k name, lit "候補" ++ decimal (N.of_nat (k + 1))
                                    ++ lit ". " ++ name ++ nl)
                         (take (Z.to_nat (s_backupLimit sec))
                               (drop (Z.to_nat (s_limit sec)) (s_list sec))))
    else [].
Proof.
  intros Hlim Hplain. unfold waitlistBlock.
  destruct (s_limit sec <=? Z.of_nat (length (s_list sec)))%Z eqn:Hfull; [|done].
  apply Z.leb_le in Hfull. do 2 f_equal.
  apply concat_seq_imap.
  - rewrite length_take, length_drop. unfold jsstring in *. lia.
  - intros k name Hk. apply lookup_take_Some in Hk as [Hk HkB].
    rewrite lookup_drop in Hk. unfold waitlistLine.
    rewrite (proj2 (Z.ltb_lt _ _)) by lia.
    rewrite (proj2 (Z.ltb_ge _ _)) by lia.
    replace (Z.to_nat (s_limit sec + Z.of_nat k))
      with (Z.to_nat (s_limit sec) + k)%nat by lia.
    unfold jsstring in *. rewrite Hk. rewrite Forall_forall in Hplain.
    rewrite (Hplain name) by (by eapply list_elem_of_lookup_2).
    cbn [default]. unfold id. do 2 f_equal.
    rewrite String_of_Z_nonneg by lia. f_equal. lia.
  - intros k Hk. rewrite length_take, length_drop in Hk. unfold waitlistLine.
    unfold jsstring in *. rewrite (proj2 (Z.ltb_ge _ _)) by lia. reflexivity.
Qed.

(** X5, witness: capacity 1, waitlist 1, three entries of which the second
    is a placeholder. *)
Lemma waitlist_block_plain_witness :
  waitlistBlock (sampleGame true SchedNone [] [])
                (mkSection [] 1 1 [] [lit "amy"; ANON; lit "bob"])
  = lit "--- 候補 ---" ++ nl ++ lit "候補1. __ANON__" ++ nl.
Proof.
  rewrite (waitlist_block_plain (sampleGame true SchedNone [] [])
             (mkSection [] 1 1 [] [lit "amy"; ANON; lit "bob"])).
  - vm_compute. reflexivity.
  - vm_compute. discriminate.
  - repeat constructor.
Defined.

(** ** A join that passes the duplicate test *)

Section JoinFacts.

Context (env : Env) (gid uid : jsstring).

Lemma realNames_replicate (k : nat) : realNames (replicate k ANON) = [].
Proof.
  induction k as [|k IH]; [done|]. cbn [replicate]. unfold realNames in *.
  by rewrite filter_cons_False by (intros ?; done).
Qed.

Lemma realNames_cons_real (n : jsstring) (l : list jsstring) :
  n ≠ ANON → realNames (n :: l) = n :: realNames l.
Proof. intros H. unfold realNames. by rewrite filter_cons_True. Qed.

Lemma realNames_cons_anon (l : list jsstring) : realNames (ANON :: l) = realNames l.
Proof. unfold realNames. by rewrite filter_cons_False by (intros ?; done). Qed.

Lemma realNames_real (n : jsstring) (l : list jsstring) :
  n ∈ realNames l → n ≠ ANON.
Proof. unfold realNames. intros H. by apply list_elem_of_filter in H as [? _]. Qed.

(** [addToList] at index 0 with a placeholder, or with a name that the
    list does not hold, appends. *)
Lemma addToList_appends (n : jsstring) (g : Game) :
  n = ANON ∨ n ∉ s_list (section0 g) →
  addToList 0 n g
  = with_section0 g (with_list (section0 g) (s_list (section0 g) ++ [n])).
Proof.
  intros Hn. unfold addToList, sectionAt, sections. cbn [lookup list_lookup].
  destruct (bool_decide (n = ANON)) eqn:Ha; [done|].
  apply bool_decide_eq_false in Ha. destruct Hn as [?|Hn]; [done|].
  unfold includes. by rewrite bool_decide_eq_false_2 by done.
Qed.

Lemma addNames_cons (n : jsstring) (names : list jsstring) (w : World) :
  addNames gid uid (n :: names) w
  = addNames gid uid names
      (let w1 := with_games w (alter (addToList 0 n) gid (games w)) in
       if bool_decide (n ≠ ANON)
       then with_uidMap w1 (<[cacheKey gid uid := n]> (uidToNameMap w1))
       else w1).
Proof. reflexivity. Qed.

Lemma last_cons_some {A} (x : A) (l : list A) :
  last (x :: l) = Some (default x (last l)).
Proof. rewrite last_cons. by destruct (last l). Qed.

(** The loop over the names to add, when the real names among them are
    new and pairwise distinct. *)
Lemma addNames_appends (names : list jsstring) :
  ∀ (w : World) (g : Game),
    games w !! gid = Some g →
    NoDup (realNames names) →
    Forall (λ n, n ∉ s_list (section0 g)) (realNames names) →
    games (addNames gid uid names w)
    = <[gid := with_section0 g (with_list (section0 g)
                                  (s_list (section0 g) ++ names))]> (games w)
    ∧ userNameCache (addNames gid uid names w) = userNameCache w
    ∧ firstUseGroups (addNames gid uid names w) = firstUseGroups w
    ∧ trace (addNames gid uid names w) = trace w
    ∧ uidToNameMap (addNames gid uid names w)
      = match last (realNames names) with
        | Some n => <[cacheKey gid uid := n]> (uidToNameMap w)
        | None => uidToNameMap w
        end.
Proof.
  induction names as [|n names IH]; intros w g Hg Hnd Hnew.
  - cbn. rewrite app_nil_r. repeat split; try done.
    rewrite insert_id; [done|]. rewrite Hg. f_equal.
    by destruct g as [? ? ? ? ? ? ? ? ? [] ?].
  - rewrite addNames_cons. cbv zeta.
    set (g1 := with_section0 g (with_list (section0 g) (s_list (section0 g) ++ [n]))).
    assert (Hg1 : alter (addToList 0 n) gid (games w) = <[gid := g1]> (games w)).
    { rewrite (alter_found _ _ _ _ Hg). f_equal. apply addToList_appends.
      destruct (decide (n = ANON)) as [?|Hreal]; [by left|]. right.
      rewrite realNames_cons_real in Hnew by done.
      by apply Forall_cons in Hnew as [? _]. }
    rewrite Hg1.
    assert (Hlist : s_list (section0 g1) = s_list (section0 g) ++ [n]) by done.
    assert (Hfinal : ∀ gs : gmap jsstring Game,
      <[gid := with_section0 g1 (with_list (section0 g1)
                                   (s_list (section0 g1) ++ names))]> (<[gid := g1]> gs)
      = <[gid := with_section0 g (with_list (section0 g)
                                    (s_list (section0 g) ++ n :: names))]> gs).
    { intros gs. rewrite insert_insert_eq. f_equal. rewrite Hlist, <- app_assoc.
      reflexivity. }
    destruct (decide (n = ANON)) as [->|Hreal].
    + rewrite bool_decide_eq_false_2 by (intros H; by apply H).
      rewrite realNames_cons_anon in *.
      destruct (IH (with_games w (<[gid := g1]> (games w))) g1) as (H1 & H2 & H3 & H4 & H5).
      * cbn. apply lookup_insert_eq.
      * done.
      * rewrite Hlist. rewrite Forall_forall in *. intros x Hx Hin.
        apply elem_of_app in Hin as [Hin|Hin]; [by apply (Hnew x Hx)|].
        apply list_elem_of_singleton in Hin. subst x.
        by apply realNames_real in Hx.
      * rewrite H1, H2, H3, H4, H5.
        cbn [games with_games userNameCache uidToNameMap firstUseGroups trace].
        by rewrite Hfinal.
    + rewrite bool_decide_eq_true_2 by done.
      rewrite realNames_cons_real in * by done.
      apply NoDup_cons in Hnd as [Hn Hnd]. apply Forall_cons in Hnew as [Hn0 Hnew].
      destruct (IH (with_uidMap (with_games w (<[gid := g1]> (games w)))
                      (<[cacheKey gid uid := n]>
                         (uidToNameMap (with_games w (<[gid := g1]> (games w))))))
                   g1) as (H1 & H2 & H3 & H4 & H5).
      * cbn. apply lookup_insert_eq.
      * done.
      * rewrite Hlist. rewrite Forall_forall in *. intros x Hx Hin.
        apply elem_of_app in Hin as [Hin|Hin]; [by apply (Hnew x Hx)|].
        apply list_elem_of_singleton in Hin. by subst x.
      * rewrite H1, H2, H3, H4, H5.
        cbn [games with_games with_uidMap userNameCache uidToNameMap
             firstUseGroups trace].
        rewrite Hfinal. repeat split; try done.
        rewrite last_cons_some. cbn [default].
        destruct (last (realNames names)) as [m|]; cbn [default]; unfold id.
        -- by rewrite insert_insert_eq.
        -- done.
Qed.

(** The game after a join that added [names]. *)
Lemma no_duplicate_test (l names : list jsstring) :
  NoDup (realNames names) → Forall (λ n, n ∉ l) (realNames names) →
  existsb (includes l) (realNames names) || has_duplicates (realNames names) = false.
Proof.
  intros Hnd Hnew. apply orb_false_intro.
  - apply not_true_is_false. intros H. apply existsb_exists in H as (n & Hn & Hin).
    apply list_elem_of_In in Hn. rewrite Forall_forall in Hnew.
    apply (Hnew n Hn). unfold includes in Hin. by apply bool_decide_eq_true in Hin.
  - unfold has_duplicates. by rewrite bool_decide_eq_true_2.
Qed.

(** What [handleJoin] does on an open, active game once the names are
    resolved and pass the duplicate test. *)
Lemma handleJoin_accepted (count : Z) (content : jsstring) (w w1 : World)
    (g : Game) (names : list jsstring) :
  games w !! gid = Some g → active g = true → notYetOpen env g = None →
  joinNames env gid uid count content (s_list (section0 g)) w = (names, w1) →
  NoDup (realNames names) →
  Forall (λ n, n ∉ s_list (section0 g)) (realNames names) →
  let g' := with_lastActive
              (with_section0 g (with_list (section0 g)
                                  (s_list (section0 g) ++ names))) (now env) in
  let w' := handleJoin env gid uid count content w in
  games w' = <[gid := g']> (games w)
  ∧ trace w' = trace w ++ [EvSaveGame gid g';
                           EvSnapshot (snapshotContent (<[gid := g']> (games w)));
                           EvReply (renderList g' [])]
  ∧ userNameCache w' = userNameCache w1
  ∧ uidToNameMap w'
    = match last (realNames names) with
      | Some n => <[cacheKey gid uid := n]> (uidToNameMap w1)
      | None => uidToNameMap w1
      end.
Proof.
  intros Hg Hact Hopen Hj Hnd Hnew. cbv zeta.
  unfold handleJoin. rewrite Hg, Hact, Hopen, Hj. cbn [negb].
  rewrite no_duplicate_test by done. rewrite andb_false_r.
  pose proof (joinNames_frame env gid uid count content (s_list (section0 g)) w)
    as [Hgs Htr].
  rewrite Hj in Hgs, Htr. cbn [snd] in Hgs, Htr.
  assert (Hg1 : games w1 !! gid = Some g) by (by rewrite Hgs).
  destruct (addNames_appends names w1 g Hg1 Hnd Hnew) as (H1 & H2 & H3 & H4 & H5).
  set (w2 := addNames gid uid names w1) in *.
  set (g2 := with_section0 g _) in *.
  assert (Hg2 : games (touchGame env gid w2)
                = <[gid := with_lastActive g2 (now env)]> (games w)).
  { rewrite games_touchGame, H1, Hgs.
    rewrite (alter_found _ _ _ g2) by apply lookup_insert_eq.
    by rewrite insert_insert_eq. }
  set (w3 := touchGame env gid w2) in *.
  assert (Hl3 : games w3 !! gid = Some (with_lastActive g2 (now env)))
    by (rewrite Hg2; apply lookup_insert_eq).
  rewrite (saveGame_found _ _ _ Hl3).
  erewrite sendListReply_found by (cbn; exact Hl3).
  cbn [games trace emit saveCurrentListSnapshot userNameCache uidToNameMap].
  rewrite Hg2. repeat split.
  - change (trace w3) with (trace w2). rewrite H4, Htr. by rewrite <- !app_assoc.
  - exact H2.
  - exact H5.
Qed.

End JoinFacts.

(** X6. On an open, active game, a join that brings names (a content that
    does not hold the word for anonymous), none of which is in the list of
    section 0 yet or given twice, appends them to that list in the order
    of the text, whatever the digit after the sigil; the other sections
    are as before, the game is marked active now, and the effects are the
    save, the snapshot and the reply with the roster, in this order. The
    conversation key of the sender is mapped to the last name added. *)
Theorem join_appends_names (env : Env) (gid uid : jsstring) (count : Z)
    (content : jsstring) (w : World) (g : Game) :
  games w !! gid = Some g → active g = true → notYetOpen env g = None →
  content ≠ [] → str_includes str_anonymous content = false →
  NoDup (realNames (tokens (λ c, is_ws c || (c =? ch_comma)%N) content)) →
  Forall (λ n, n ∉ s_list (section0 g))
         (realNames (tokens (λ c, is_ws c || (c =? ch_comma)%N) content)) →
  let names := tokens (λ c, is_ws c || (c =? ch_comma)%N) content in
  let g' := with_lastActive
              (with_section0 g (with_list (section0 g)
                                  (s_list (section0 g) ++ names))) (now env) in
  let w' := handleEvent env gid uid (Join count content) w in
  games w' = <[gid := g']> (games w)
  ∧ trace w' = trace w ++ [EvSaveGame gid g';
                           EvSnapshot (snapshotContent (<[gid := g']> (games w)));
                           EvReply (renderList g' [])]
  ∧ (∀ n, last (realNames names) = Some n →
          uidToNameMap w' !! cacheKey gid uid = Some n).
Proof.
  intros Hg Hact Hopen Hne Hanon Hnd Hnew. cbv zeta.
  unfold handleEvent.
  match goal with
  | |- context [handleJoin env gid uid count content ?w0] => set (w0' := w0)
  end.
  assert (Hw0 : games w0' = games w ∧ trace w0' = trace w)
    by (unfold w0'; by destruct (isGroupOrRoom gid && _)).
  destruct Hw0 as [Hgs0 Htr0].
  assert (Hj : joinNames env gid uid count content (s_list (section0 g)) w0'
               = (tokens (λ c, is_ws c || (c =? ch_comma)%N) content, w0')).
  { unfold joinNames. rewrite (truthy_str_true _ Hne), Hanon. reflexivity. }
  destruct (handleJoin_accepted env gid uid count content w0' w0' g _
              ltac:(by rewrite Hgs0) Hact Hopen Hj Hnd Hnew) as (H1 & H2 & _ & H4).
  rewrite H1, H2, H4, Hgs0, Htr0. repeat split; try done.
  intros n Hn. rewrite Hn. apply lookup_insert_eq.
Qed.

(** X6, witness: two names joined to a list of one. *)
Lemma join_appends_names_witness :
  games (handleEvent sampleEnv sampleGid sampleUid (Join 1 (lit "bob, cat"))
           (sampleWorld (sampleGame true SchedNone [lit "amy"] [])))
  = <[sampleGid := with_lastActive
        (sampleGame true SchedNone [lit "amy"; lit "bob"; lit "cat"] []) 1000]>
      (games (sampleWorld (sampleGame true SchedNone [lit "amy"] []))).
Proof.
  refine (proj1
    (join_appends_names sampleEnv sampleGid sampleUid 1 (lit "bob, cat")
       (sampleWorld (sampleGame true SchedNone [lit "amy"] []))
       (sampleGame true SchedNone [lit "amy"] [])
       _ eq_refl eq_refl _ _ _ _)).
  - vm_compute. reflexivity.
  - vm_compute. discriminate.
  - vm_compute. reflexivity.
  - apply (bool_decide_unpack _). vm_compute. exact I.
  - apply (bool_decide_unpack _). vm_compute. exact I.
Defined.

(** X7. On an open, active game, a join whose content holds the word for
    anonymous appends to the list of section 0 as many placeholders as the
    digit after the sigil says, and nothing else, whatever names the
    content holds besides and whatever the list holds already; no name is
    looked up and the name maps are as before. *)
Theorem join_anonymous_appends_placeholders (env : Env) (gid uid : jsstring)
    (count : Z) (content : jsstring) (w : World) (g : Game) :
  games w !! gid = Some g → active g = true → notYetOpen env g = None →
  (1 ≤ count ≤ 9)%Z → str_includes str_anonymous content = true →
  let g' := with_lastActive
              (with_section0 g (with_list (section0 g)
                 (s_list (section0 g) ++ replicate (Z.to_nat count) ANON)))
              (now env) in
  let w' := handleJoin env gid uid count content w in
  games w' = <[gid := g']> (games w)
  ∧ trace w' = trace w ++ [EvSaveGame gid g';
                           EvSnapshot (snapshotContent (<[gid := g']> (games w)));
                           EvReply (renderList g' [])]
  ∧ userNameCache w' = userNameCache w
  ∧ uidToNameMap w' = uidToNameMap w.
Proof.
  intros Hg Hact Hopen _ Hanon. cbv zeta.
  assert (Hne : truthy_str content = true).
  { destruct content; [|done]. vm_compute in Hanon. discriminate. }
  assert (Hj : joinNames env gid uid count content (s_list (section0 g)) w
               = (replicate (Z.to_nat count) ANON, w)).
  { unfold joinNames. by rewrite Hne, Hanon. }
  destruct (handleJoin_accepted env gid uid count content w w g _
              Hg Hact Hopen Hj) as (H1 & H2 & H3 & H4).
  - rewrite realNames_replicate. apply NoDup_nil_2.
  - rewrite realNames_replicate. apply Forall_nil_2.
  - rewrite realNames_replicate in H4. done.
Qed.

(** X7, witness: three placeholders. *)
Lemma join_anonymous_appends_placeholders_witness :
  games (handleJoin sampleEnv sampleGid sampleUid 3 (lit "匿名")
           (sampleWorld (sampleGame true SchedNone [lit "amy"] [])))
  = <[sampleGid := with_lastActive
        (sampleGame true SchedNone [lit "amy"; ANON; ANON; ANON] []) 1000]>
      (games (sampleWorld (sampleGame true SchedNone [lit "amy"] []))).
Proof.
  refine (proj1
    (join_anonymous_appends_placeholders sampleEnv sampleGid sampleUid 3
       (lit "匿名") (sampleWorld (sampleGame true SchedNone [lit "amy"] []))
       (sampleGame true SchedNone [lit "amy"] []) _ eq_refl eq_refl _ _)).
  - vm_compute. reflexivity.
  - lia.
  - vm_compute. reflexivity.
Defined.

(** ** The name of the sender *)

Section NameResolution.

Context (gid uid : jsstring).

Lemma cachedName_inv (env : Env) (w : World) (n : jsstring) :
  cachedName env (cacheKey gid uid) w = Some n →
  ∃ ts, userNameCache w !! cacheKey gid uid = Some (n, ts)
        ∧ (now env - ts < CACHE_EXPIRY)%Z.
Proof.
  unfold cachedName. destruct (userNameCache w !! cacheKey gid uid) as [[name ts]|]; [|done].
  destruct (Z.ltb_spec (now env - ts) CACHE_EXPIRY); [|done].
  intros [= ->]. by exists ts.
Qed.

(** What a fetch leaves in the cache. *)
Lemma getName_cache (env : Env) (w : World) :
  cachedName env (cacheKey gid uid) w = None →
  match profile env with
  | Some name =>
    (getName env gid uid w).1 = name
    ∧ userNameCache (getName env gid uid w).2 !! cacheKey gid uid
      = Some (name, now env)
  | None =>
    (getName env gid uid w).1 = lit "球友"
    ∧ userNameCache (getName env gid uid w).2 !! cacheKey gid uid = None
  end
  ∧ uidToNameMap (getName env gid uid w).2 = uidToNameMap w.
Proof.
  intros Hc. unfold getName. rewrite Hc. destruct (profile env) as [name|].
  - cbn [fst snd userNameCache with_cache uidToNameMap]. split; [split; [done|]|done].
    match goal with |- context [if ?b then _ else _] => destruct b end.
    + apply map_lookup_filter_Some. split; [apply lookup_insert_eq|].
      cbn. unfold CACHE_EXPIRY. lia.
    + apply lookup_insert_eq.
  - cbn. split; [|done]. split; [done|]. apply lookup_delete_eq.
Qed.

Lemma getName_hit (env : Env) (w : World) (n : jsstring) :
  cachedName env (cacheKey gid uid) w = Some n → getName env gid uid w = (n, w).
Proof. intros H. unfold getName. by rewrite H. Qed.

(** After any call, the cache entry of the sender holds the name that the
    call returned or no name. *)
Lemma getName_agrees (env : Env) (w : World) :
  cache_agrees gid uid (getName env gid uid w).1 (getName env gid uid w).2.
Proof.
  destruct (cachedName env (cacheKey gid uid) w) as [n|] eqn:Hc.
  - rewrite (getName_hit _ _ _ Hc). cbn [fst snd].
    apply cachedName_inv in Hc as (ts & Hts & _).
    intros name ts' H. rewrite Hts in H. injection H as <- _. by left.
  - pose proof (getName_cache env w Hc) as [H _].
    destruct (profile env) as [name|]; destruct H as [-> H];
      intros name' ts' H'; rewrite H in H'; [|done].
    injection H' as <- _. by left.
Qed.

(** The bare join: one name, and when that name is new to the list the
    cache entry of the sender agrees with it. *)
Lemma joinNames_self (env : Env) (l : list jsstring) (w : World) :
  ∃ n w1, joinNames env gid uid 1 [] l w = ([n], w1)
          ∧ (n ∉ l → cache_agrees gid uid n w1)
          ∧ (n ≠ [] → uidToNameMap w1 !! cacheKey gid uid = Some n).
Proof.
  unfold joinNames. cbn [truthy_str andb]. change (1 =? 1)%Z with true. cbv iota.
  destruct (cachedName env (cacheKey gid uid) w) as [c|] eqn:Hc.
  - destruct c as [|c0 c]; cbn [truthy_name truthy_str].
    + (* a fresh entry with the empty name *)
      destruct (uidToNameMap w !! cacheKey gid uid) as [mapped|] eqn:Hm.
      * destruct (includes l mapped) eqn:Hin.
        -- exists mapped, (if truthy_str mapped
                           then with_uidMap w (<[cacheKey gid uid := mapped]> (uidToNameMap w))
                           else w).
           split; [done|]. split.
           ++ intros Hout. unfold includes in Hin. by apply bool_decide_eq_true in Hin.
           ++ intros Hne. rewrite truthy_str_true by done. cbn. apply lookup_insert_eq.
        -- rewrite (getName_hit _ _ _ Hc). cbn [truthy_str].
           exists [], w. split; [done|]. split; [|done].
           intros _ name ts H. apply cachedName_inv in Hc as (ts' & Hts & _).
           rewrite Hts in H. injection H as <- _. by right.
      * rewrite (getName_hit _ _ _ Hc). cbn [truthy_str].
        exists [], w. split; [done|]. split; [|done].
        intros _ name ts H. apply cachedName_inv in Hc as (ts' & Hts & _).
        rewrite Hts in H. injection H as <- _. by right.
    + cbn [default]. unfold id.
      eexists (c0 :: c), _. split; [reflexivity|]. split.
      * intros _ name ts H. cbn in H. apply cachedName_inv in Hc as (ts' & Hts & _).
        rewrite Hts in H. injection H as <- _. by left.
      * intros _. cbn. apply lookup_insert_eq.
  - cbn [truthy_name].
    assert (Hget : ∀ n w1, getName env gid uid w = (n, w1) →
              cache_agrees gid uid n
                (if truthy_str n
                 then with_uidMap w1 (<[cacheKey gid uid := n]> (uidToNameMap w1))
                 else w1)
              ∧ (n ≠ [] →
                 uidToNameMap (if truthy_str n
                               then with_uidMap w1 (<[cacheKey gid uid := n]> (uidToNameMap w1))
                               else w1) !! cacheKey gid uid = Some n)).
    { intros n w1 Hg. pose proof (getName_agrees env w) as Ha. rewrite Hg in Ha.
      cbn [fst snd] in Ha. split.
      - by destruct (truthy_str n).
      - intros Hne. rewrite truthy_str_true by done. cbn. apply lookup_insert_eq. }
    destruct (uidToNameMap w !! cacheKey gid uid) as [mapped|] eqn:Hm.
    + destruct (includes l mapped) eqn:Hin.
      * eexists mapped, _. split; [reflexivity|]. split.
        -- intros Hout. unfold includes in Hin. by apply bool_decide_eq_true in Hin.
        -- intros Hne. rewrite truthy_str_true by done. cbn. apply lookup_insert_eq.
      * destruct (getName env gid uid w) as [n w1] eqn:Hg.
        eexists n, _. split; [reflexivity|].
        destruct (Hget n w1 eq_refl) as [H1 H2]. split; [by intros _ | done].
    + destruct (getName env gid uid w) as [n w1] eqn:Hg.
      eexists n, _. split; [reflexivity|].
      destruct (Hget n w1 eq_refl) as [H1 H2]. split; [by intros _ | done].
Qed.

(** With the sender mapped to a name of the list and a cache entry that
    agrees, the bare leave resolves to that name. *)
Lemma leaveSelfName_remembered (env : Env) (g : Game) (w : World) (n : jsstring) :
  uidToNameMap w !! cacheKey gid uid = Some n → cache_agrees gid uid n w →
  n ≠ [] → n ∈ s_list (section0 g) →
  leaveSelfName env gid uid g w = (n, w).
Proof.
  intros Hm Ha Hne Hin. unfold leaveSelfName.
  assert (Hinc : includes (s_list (section0 g)) n = true)
    by (unfold includes; by apply bool_decide_eq_true_2).
  destruct (cachedName env (cacheKey gid uid) w) as [c|] eqn:Hc.
  - apply cachedName_inv in Hc as (ts & Hts & _).
    destruct (Ha c ts Hts) as [->| ->].
    + cbn [truthy_name]. rewrite truthy_str_true by done. cbn [default]. unfold id.
      by rewrite truthy_str_true by done.
    + cbn [truthy_name truthy_str]. rewrite Hm, Hinc. cbn [negb].
      by rewrite truthy_str_true by done.
  - cbn [truthy_name]. rewrite Hm, Hinc. cbn [negb].
    by rewrite truthy_str_true by done.
Qed.

(** The same for the bare join. *)
Lemma joinNames_remembered (env : Env) (l : list jsstring) (w : World) (n : jsstring) :
  uidToNameMap w !! cacheKey gid uid = Some n → cache_agrees gid uid n w →
  n ≠ [] → n ∈ l →
  (joinNames env gid uid 1 [] l w).1 = [n].
Proof.
  intros Hm Ha Hne Hin. unfold joinNames. cbn [truthy_str andb].
  change (1 =? 1)%Z with true. cbv iota.
  assert (Hinc : includes l n = true)
    by (unfold includes; by apply bool_decide_eq_true_2).
  destruct (cachedName env (cacheKey gid uid) w) as [c|] eqn:Hc.
  - apply cachedName_inv in Hc as (ts & Hts & _).
    destruct (Ha c ts Hts) as [->| ->].
    + cbn [truthy_name]. by rewrite truthy_str_true by done.
    + cbn [truthy_name truthy_str]. by rewrite Hm, Hinc.
  - cbn [truthy_name]. by rewrite Hm, Hinc.
Qed.

End NameResolution.

(** X8. [getName] with no fresh entry for the sender asks the transport.
    The name it gets is returned and cached with the time of the call, and
    for the next 24 hours every call returns that name without asking
    again and without any change of state, whatever the transport would
    answer by then. When the transport fails, the fallback name is
    returned and nothing is cached for the sender, so the next call asks
    again. In both cases a stale entry of the sender is gone. *)
Theorem getName_caches_for_a_day (env : Env) (gid uid : jsstring) (w : World) :
  cachedName env (cacheKey gid uid) w = None →
  (∀ name, profile env = Some name →
     (getName env gid uid w).1 = name
     ∧ ∀ env', (now env' - now env < CACHE_EXPIRY)%Z →
         getName env' gid uid (getName env gid uid w).2
         = (name, (getName env gid uid w).2))
  ∧ (profile env = None →
     (getName env gid uid w).1 = lit "球友"
     ∧ userNameCache (getName env gid uid w).2 !! cacheKey gid uid = None).
Proof.
  intros Hc. pose proof (getName_cache gid uid env w Hc) as [H _]. split.
  - intros name Hp. rewrite Hp in H. destruct H as [H1 H2]. split; [done|].
    intros env' Hfresh. apply getName_hit. unfold cachedName. rewrite H2.
    by rewrite (proj2 (Z.ltb_lt _ _)) by done.
  - intros Hp. by rewrite Hp in H.
Qed.

(** X8, witness: a first call on an empty cache. *)
Lemma getName_caches_for_a_day_witness :
  (getName (mkEnv 1000 (Some (lit "amy")) (λ _, []) (λ _, true))
           sampleGid sampleUid emptyWorld).1 = lit "amy".
Proof.
  refine (proj1 (proj1
    (getName_caches_for_a_day (mkEnv 1000 (Some (lit "amy")) (λ _, []) (λ _, true))
       sampleGid sampleUid emptyWorld _) (lit "amy") eq_refl)).
  vm_compute. reflexivity.
Defined.

Section SelfJoin.

Context (env env' : Env) (gid uid : jsstring).

(** The state after a bare join that added the name [n]. *)
Lemma bare_join_added (w : World) (g : Game) (n : jsstring) (w1 : World) :
  games w !! gid = Some g → active g = true → notYetOpen env g = None →
  joinNames env gid uid 1 [] (s_list (section0 g)) w = ([n], w1) →
  n ≠ [] → n ≠ ANON → n ∉ s_list (section0 g) →
  let g' := with_lastActive
              (with_section0 g (with_list (section0 g) (s_list (section0 g) ++ [n])))
              (now env) in
  let w' := handleJoin env gid uid 1 [] w in
  games w' = <[gid := g']> (games w)
  ∧ trace w' = trace w ++ [EvSaveGame gid g';
                           EvSnapshot (snapshotContent (<[gid := g']> (games w)));
                           EvReply (renderList g' [])]
  ∧ uidToNameMap w' !! cacheKey gid uid = Some n
  ∧ cache_agrees gid uid n w'.
Proof.
  intros Hg Hact Hopen Hj Hne Hreal Hnew. cbv zeta.
  destruct (joinNames_self gid uid env (s_list (section0 g)) w)
    as (n' & w1' & Hj' & Hagree & _).
  rewrite Hj in Hj'. injection Hj' as <- <-.
  destruct (handleJoin_accepted env gid uid 1 [] w w1 g [n] Hg Hact Hopen Hj)
    as (H1 & H2 & H3 & H4).
  - rewrite realNames_cons_real by done. apply NoDup_singleton.
  - rewrite realNames_cons_real by done. by apply Forall_singleton.
  - rewrite realNames_cons_real in H4 by done. cbn in H4.
    repeat split; try done.
    + rewrite H4. apply lookup_insert_eq.
    + intros name ts H. rewrite H3 in H. by apply (Hagree Hnew name ts).
Qed.

End SelfJoin.

(** X9. A bare join followed by a bare leave of the same sender. When the
    bare join added a name (not empty, not the placeholder token) that no
    section listed, the bare leave, at any time at which the game is open
    and whatever the transport answers then, removes that very name: the
    registry is as before the join, except that the game is marked active
    at the time of the join. *)
Theorem bare_join_then_bare_leave (env env' : Env) (gid uid : jsstring)
    (w : World) (g : Game) (n : jsstring) (w1 : World) :
  games w !! gid = Some g → active g = true →
  notYetOpen env g = None → notYetOpen env' g = None →
  joinNames env gid uid 1 [] (s_list (section0 g)) w = ([n], w1) →
  n ≠ [] → n ≠ ANON → Forall (λ s, n ∉ s_list s) (sections g) →
  games (handleLeave env' gid uid [] (handleJoin env gid uid 1 [] w))
  = <[gid := with_lastActive g (now env)]> (games w).
Proof.
  intros Hg Hact Hopen Hopen' Hj Hne Hreal Habs.
  assert (Hnew : n ∉ s_list (section0 g)).
  { unfold sections in Habs. by apply Forall_cons in Habs as [? _]. }
  destruct (bare_join_added env gid uid w g n w1 Hg Hact Hopen Hj Hne Hreal Hnew)
    as (H1 & _ & Hm & Ha).
  set (wj := handleJoin env gid uid 1 [] w) in *.
  set (g' := with_lastActive _ (now env)) in *.
  assert (Hg' : games wj !! gid = Some g') by (rewrite H1; apply lookup_insert_eq).
  unfold handleLeave. rewrite Hg'.
  change (active g') with (active g). rewrite Hact. cbn [negb].
  change (notYetOpen env' g') with (notYetOpen env' g). rewrite Hopen'.
  cbn [truthy_str negb].
  rewrite (leaveSelfName_remembered gid uid env' g' wj n Hm Ha Hne).
  2: { cbn. apply elem_of_app. right. by left. }
  rewrite games_sendListReply, games_snapshot, games_saveGame.
  cbn [games with_games]. rewrite (alter_found _ _ _ _ Hg'), H1, insert_insert_eq.
  f_equal.
  assert (Hback : removeFromList n g' = with_lastActive g (now env)).
  { unfold removeFromList, map_sections, g'. cbn.
    rewrite remove_first_middle by done. rewrite app_nil_r.
    unfold sections in Habs. apply Forall_cons in Habs as [_ Hm'].
    assert (Hmap : map (λ s, with_list s (remove_first n (s_list s)))
                       (moreSections g) = moreSections g).
    { rewrite <- (map_id (moreSections g)) at 2. apply map_ext_Forall.
      eapply Forall_impl; [exact Hm'|]. intros s Hn. cbn.
      rewrite remove_first_absent by done. by destruct s. }
    rewrite Hmap. by destruct g as [? ? ? ? ? ? ? ? ? [] ?]. }
  exact Hback.
Qed.

(** X9, witness: the transport gives no name, so the fallback name is
    added and then removed. *)
Lemma bare_join_then_bare_leave_witness :
  games (handleLeave sampleEnv sampleGid sampleUid []
           (handleJoin sampleEnv sampleGid sampleUid 1 []
              (sampleWorld (sampleGame true SchedNone [lit "amy"] []))))
  = <[sampleGid := with_lastActive (sampleGame true SchedNone [lit "amy"] []) 1000]>
      (games (sampleWorld (sampleGame true SchedNone [lit "amy"] []))).
Proof.
  refine (bare_join_then_bare_leave sampleEnv sampleEnv sampleGid sampleUid
            (sampleWorld (sampleGame true SchedNone [lit "amy"] []))
            (sampleGame true SchedNone [lit "amy"] []) (lit "球友") _
            _ eq_refl eq_refl eq_refl _ _ _ _).
  - vm_compute. reflexivity.
  - vm_compute. reflexivity.
  - vm_compute. discriminate.
  - vm_compute. discriminate.
  - repeat constructor. apply (bool_decide_unpack _). vm_compute. exact I.
Defined.

(** X10. A bare join repeated by the same sender. When the first bare
    join added a name (not empty, not the placeholder token), the second
    one, at any time at which the game is open and whatever the transport
    answers then, resolves to the same name and is refused: the registry
    is as after the first join and the only effect is the duplicate
    reply. *)
Theorem bare_join_twice_is_refused (env env' : Env) (gid uid : jsstring)
    (w : World) (g : Game) (n : jsstring) (w1 : World) :
  games w !! gid = Some g → active g = true →
  notYetOpen env g = None → notYetOpen env' g = None →
  joinNames env gid uid 1 [] (s_list (section0 g)) w = ([n], w1) →
  n ≠ [] → n ≠ ANON → n ∉ s_list (section0 g) →
  games (handleJoin env' gid uid 1 [] (handleJoin env gid uid 1 [] w))
  = games (handleJoin env gid uid 1 [] w)
  ∧ trace (handleJoin env' gid uid 1 [] (handleJoin env gid uid 1 [] w))
    = trace (handleJoin env gid uid 1 [] w) ++ [EvReply msg_duplicate].
Proof.
  intros Hg Hact Hopen Hopen' Hj Hne Hreal Hnew.
  destruct (bare_join_added env gid uid w g n w1 Hg Hact Hopen Hj Hne Hreal Hnew)
    as (H1 & _ & Hm & Ha).
  set (wj := handleJoin env gid uid 1 [] w) in *.
  set (g' := with_lastActive _ (now env)) in *.
  assert (Hg' : games wj !! gid = Some g') by (rewrite H1; apply lookup_insert_eq).
  assert (Hin : n ∈ s_list (section0 g')).
  { cbn. apply elem_of_app. right. by left. }
  pose proof (joinNames_remembered gid uid env' (s_list (section0 g')) wj n
                Hm Ha Hne Hin) as Hnames.
  pose proof (joinNames_frame env' gid uid 1 [] (s_list (section0 g')) wj)
    as [Hgs Htr].
  unfold handleJoin. rewrite Hg'.
  change (active g') with (active g). rewrite Hact. cbn [negb].
  change (notYetOpen env' g') with (notYetOpen env' g). rewrite Hopen'.
  destruct (joinNames env' gid uid 1 [] (s_list (section0 g')) wj)
    as [names w2] eqn:Hj2.
  cbn [fst snd] in Hnames, Hgs, Htr. subst names.
  assert (Hdup : nonEmpty [n]
                 && (existsb (includes (s_list (section0 g'))) (realNames [n])
                     || has_duplicates (realNames [n])) = true).
  { cbn [nonEmpty andb]. apply duplicate_test. right. exists n. split; [|done].
    rewrite realNames_cons_real by done. by left. }
  rewrite Hdup. cbn [games trace emit]. by rewrite Hgs, Htr.
Qed.

(** X10, witness: two bare joins with the fallback name. *)
Lemma bare_join_twice_is_refused_witness :
  games (handleJoin sampleEnv sampleGid sampleUid 1 []
           (handleJoin sampleEnv sampleGid sampleUid 1 []
              (sampleWorld (sampleGame true SchedNone [lit "amy"] []))))
  = games (handleJoin sampleEnv sampleGid sampleUid 1 []
             (sampleWorld (sampleGame true SchedNone [lit "amy"] []))).
Proof.
  refine (proj1
    (bare_join_twice_is_refused sampleEnv sampleEnv sampleGid sampleUid
       (sampleWorld (sampleGame true SchedNone [lit "amy"] []))
       (sampleGame true SchedNone [lit "amy"] []) (lit "球友") _
       _ eq_refl eq_refl eq_refl _ _ _ _)).
  - vm_compute. reflexivity.
  - vm_compute. reflexivity.
  - vm_compute. discriminate.
  - vm_compute. discriminate.
  - apply (bool_decide_unpack _). vm_compute. exact I.
Defined.

(** ** The reminder scan as a whole *)

Section ScanWhole.

Context (env : Env).

Lemma scheduleStep_kinds (gid : jsstring) (g : Game) :
  Forall save_or_push (scheduleStep env gid g).2
  ∧ ∃ s, (scheduleStep env gid g).1 = with_schedule g s.
Proof.
  unfold scheduleStep. destruct (scheduleTime g) as [|t|] eqn:Hs; cbn [fst snd].
  - split; [constructor|]. exists SchedNone. rewrite <- Hs. by destruct g.
  - destruct (negb (t =? 0)%Z && (t <=? now env)%Z); cbn [fst snd].
    + split; [repeat constructor | by exists SchedNone].
    + split; [constructor|]. exists (SchedAt t). rewrite <- Hs. by destruct g.
  - split; [repeat constructor | by exists SchedNone].
Qed.

Lemma scan_trace_kinds (l : list jsstring) (w : World) :
  let w' := foldl (λ w gid, checkSchedule env gid w) w l in
  userNameCache w' = userNameCache w ∧ uidToNameMap w' = uidToNameMap w
  ∧ firstUseGroups w' = firstUseGroups w
  ∧ ∃ new, trace w' = trace w ++ new ∧ Forall save_or_push new.
Proof.
  revert w. induction l as [|a l IH]; intros w; cbv zeta.
  - repeat split. exists []. by rewrite app_nil_r.
  - cbn [foldl].
    destruct (IH (checkSchedule env a w)) as (H1 & H2 & H3 & new & Hn & Hk).
    destruct (games w !! a) as [g|] eqn:Hg.
    + rewrite (checkSchedule_step env a g w Hg) in H1, H2, H3, Hn |- *.
      cbn [trace userNameCache uidToNameMap firstUseGroups] in H1, H2, H3, Hn.
      repeat split; try done.
      exists ((scheduleStep env a g).2 ++ new). split.
      * by rewrite Hn, <- app_assoc.
      * apply Forall_app. split; [apply scheduleStep_kinds | done].
    + rewrite (checkSchedule_absent env a w Hg) in H1, H2, H3, Hn |- *.
      repeat split; try done. by exists new.
Qed.

Lemma scheduleStep_not_due (gid : jsstring) (g : Game) :
  not_due env g → scheduleStep env gid g = (g, []).
Proof.
  unfold not_due, scheduleStep. destruct (scheduleTime g) as [|t|]; [done| |done].
  intros [->|Hlt]; [done|].
  rewrite (proj2 (Z.leb_gt _ _)) by done. by rewrite andb_false_r.
Qed.

Lemma scan_nothing_due (l : list jsstring) (w : World) :
  map_Forall (λ _ g, not_due env g) (games w) →
  foldl (λ w gid, checkSchedule env gid w) w l = w.
Proof.
  intros Hall. induction l as [|a l IH]; [done|]. cbn [foldl].
  assert (Ha : checkSchedule env a w = w).
  { destruct (games w !! a) as [g|] eqn:Hg.
    - rewrite (checkSchedule_step env a g w Hg).
      rewrite (scheduleStep_not_due a g) by (by apply (Hall a)).
      cbn [fst snd]. rewrite insert_id by done. rewrite app_nil_r. apply world_eta.
    - by apply checkSchedule_absent. }
  by rewrite Ha.
Qed.

End ScanWhole.

(** X11. The reminder scan touches nothing but schedules: for any
    registry, after [checkSchedules] every conversation that had a game
    still has it, with the same title, lists, capacities and every other
    field except possibly [scheduleTime]; no game is added or removed; the
    name caches are as before; and every effect of the scan is a save or a
    push (no reply, no snapshot write, no deletion). *)
Theorem scan_touches_only_schedules (env : Env) (w : World) :
  (∀ gid, match games w !! gid with
          | Some g => ∃ s, games (checkSchedules env w) !! gid
                           = Some (with_schedule g s)
          | None => games (checkSchedules env w) !! gid = None
          end)
  ∧ userNameCache (checkSchedules env w) = userNameCache w
  ∧ uidToNameMap (checkSchedules env w) = uidToNameMap w
  ∧ firstUseGroups (checkSchedules env w) = firstUseGroups w
  ∧ ∃ new, trace (checkSchedules env w) = trace w ++ new
           ∧ Forall save_or_push new.
Proof.
  split.
  - intros gid. destruct (checkSchedules_spec env w) as [Hg _]. rewrite Hg.
    destruct (games w !! gid) as [g|]; [|done]. cbn.
    destruct (scheduleStep_kinds env gid g) as [_ [s ->]]. by exists s.
  - apply (scan_trace_kinds env _ w).
Qed.

(** X12. A scan at a moment when nothing is due (every game has no
    schedule, the schedule time 0, or a schedule time still ahead) changes
    nothing at all: same registry, same caches, no effect. *)
Theorem scan_with_nothing_due (env : Env) (w : World) :
  map_Forall (λ _ g, not_due env g) (games w) →
  checkSchedules env w = w.
Proof. intros H. unfold checkSchedules. by apply scan_nothing_due. Qed.

(** X12, witness: a reminder set for time 2000, scanned at time 1000. *)
Lemma scan_with_nothing_due_witness :
  checkSchedules sampleEnv
    (sampleWorld (sampleGame true (SchedAt 2000) [lit "amy"] []))
  = sampleWorld (sampleGame true (SchedAt 2000) [lit "amy"] []).
Proof.
  apply scan_with_nothing_due. cbn [games sampleWorld].
  apply map_Forall_singleton. right. vm_compute. reflexivity.
Defined.

(** ** The create command *)

Section CreateFacts.

Context (env : Env) (gid uid : jsstring).

(** The start of [handleEvent] changes nothing but the set of greeted
    groups. *)
Lemma first_use_frame (w : World) (b : bool) :
  let w0 := if b then mkWorld (games w) (userNameCache w) (uidToNameMap w)
                              ({[gid]} ∪ firstUseGroups w) (trace w)
            else w in
  games w0 = games w ∧ userNameCache w0 = userNameCache w
  ∧ uidToNameMap w0 = uidToNameMap w ∧ trace w0 = trace w.
Proof. by destruct b. Qed.


End CreateFacts.




(** ** The modify command *)

Section ModifyFacts.

Context (env : Env) (gid uid : jsstring).

Lemma modifiedGame_fields (g : Game) (f : ModifyFields) :
  title (modifiedGame g f) = default (title g) (m_title f)
  ∧ s_limit (section0 (modifiedGame g f))
    = match m_limit f with
      | Some n => if (0 <? n)%Z then n else s_limit (section0 g)
      | None => s_limit (section0 g)
      end
  ∧ s_backupLimit (section0 (modifiedGame g f))
    = match m_backup f with
      | Some n => if (0 <=? n)%Z then n else s_backupLimit (section0 g)
      | None => s_backupLimit (section0 g)
      end
  ∧ map s_list (sections (modifiedGame g f)) = map s_list (sections g)
  ∧ lastActiveTime (modifiedGame g f) = lastActiveTime g
  ∧ active (modifiedGame g f) = active g
  ∧ scheduleTime (modifiedGame g f) = scheduleTime g
  ∧ s_title (section0 (modifiedGame g f)) = s_title (section0 g)
  ∧ s_label (section0 (modifiedGame g f)) = s_label (section0 g)
  ∧ moreSections (modifiedGame g f) = moreSections g.
Proof.
  unfold modifiedGame.
  destruct (m_title f), (m_limit f) as [n|], (m_backup f) as [b|];
    try destruct (0 <? n)%Z; try destruct (0 <=? b)%Z; done.
Qed.

(** [handleModify] on an active game, in terms of the game with the
    fields applied. *)
Lemma handleModify_active (f : ModifyFields) (w : World) (g : Game) :
  games w !! gid = Some g → active g = true →
  handleModify env gid f w
  = let g3 := modifiedGame g f in
    let w1 := with_games w (<[gid := g3]> (games w)) in
    match m_list f with
    | Some newList =>
      if has_duplicates (realNames newList)
      then emit (EvReply msg_modify_duplicate) w1
      else
        let g4 := with_section0 g3 (with_list (section0 g3) newList) in
        let w2 := touchGame env gid (with_games w (<[gid := g4]> (games w))) in
        sendListReply gid (modifyPrefix g f)
          (saveCurrentListSnapshot (saveGame gid w2))
    | None =>
      if negb (fieldsChanged f) then emit (EvReply msg_modify_nothing) w1
      else sendListReply gid (modifyPrefix g f)
             (saveGame gid (touchGame env gid w1))
    end.
Proof.
  intros Hg Hact. unfold handleModify. rewrite Hg, Hact. cbn [negb].
  unfold modifyPrefix, modifiedGame, fieldsChanged. cbv zeta. reflexivity.
Qed.

End ModifyFacts.

(** X15. A modify command whose new list holds the same name twice. On an
    active game the reply is the duplicate error and nothing is saved; the
    lists are as before, yet the title, the capacity and the waitlist size
    that the same command gave are already in the game in memory (the
    capacity only when it is positive, the waitlist size only when it is
    not negative), and the last-active time is not touched. *)
Theorem modify_duplicate_list_is_partial (env : Env) (gid uid : jsstring)
    (f : ModifyFields) (w : World) (g : Game) (l : list jsstring) :
  games w !! gid = Some g → active g = true →
  m_list f = Some l → has_duplicates (realNames l) = true →
  let w' := handleEvent env gid uid (ModifyGame f) w in
  trace w' = trace w ++ [EvReply msg_modify_duplicate]
  ∧ games w' = <[gid := modifiedGame g f]> (games w)
  ∧ title (modifiedGame g f) = default (title g) (m_title f)
  ∧ s_limit (section0 (modifiedGame g f))
    = match m_limit f with
      | Some n => if (0 <? n)%Z then n else s_limit (section0 g)
      | None => s_limit (section0 g)
      end
  ∧ s_backupLimit (section0 (modifiedGame g f))
    = match m_backup f with
      | Some n => if (0 <=? n)%Z then n else s_backupLimit (section0 g)
      | None => s_backupLimit (section0 g)
      end
  ∧ map s_list (sections (modifiedGame g f)) = map s_list (sections g)
  ∧ lastActiveTime (modifiedGame g f) = lastActiveTime g.
Proof.
  intros Hg Hact Hl Hdup. cbv zeta.
  destruct (modifiedGame_fields g f) as (H1 & H2 & H3 & H4 & H5 & _).
  unfold handleEvent.
  set (b := isGroupOrRoom gid && bool_decide (gid ∉ firstUseGroups w)).
  destruct (first_use_frame gid w b) as (Hg0 & _ & _ & Ht0).
  cbv zeta in Hg0, Ht0. set (w0 := if b then _ else w) in *.
  rewrite (handleModify_active env gid f w0 g) by (by rewrite ?Hg0).
  cbv zeta. rewrite Hl, Hdup. cbn [games trace emit with_games].
  by rewrite Hg0, Ht0.
Qed.

(** X15, witness: a new title together with a list that names amy
    twice. *)
Lemma modify_duplicate_list_is_partial_witness :
  games (handleEvent sampleEnv sampleGid sampleUid
           (ModifyGame (mkModify (Some (lit "Monday")) None None
                          (Some [lit "amy"; lit "amy"])))
           (sampleWorld (sampleGame true SchedNone [lit "bob"] [])))
  = <[sampleGid := modifiedGame (sampleGame true SchedNone [lit "bob"] [])
                     (mkModify (Some (lit "Monday")) None None
                        (Some [lit "amy"; lit "amy"]))]>
      (games (sampleWorld (sampleGame true SchedNone [lit "bob"] []))).
Proof.
  refine (proj1 (proj2
    (modify_duplicate_list_is_partial sampleEnv sampleGid sampleUid
       (mkModify (Some (lit "Monday")) None None (Some [lit "amy"; lit "amy"]))
       (sampleWorld (sampleGame true SchedNone [lit "bob"] []))
       (sampleGame true SchedNone [lit "bob"] []) [lit "amy"; lit "amy"]
       _ eq_refl eq_refl _))).
  - vm_compute. reflexivity.
  - vm_compute. reflexivity.
Defined.

(** X16. A modify command without a list, on an active game. When none of
    its fields makes a change (no title, a capacity that is not positive,
    a negative waitlist size), the only effect is the error reply. When one
    does, the fields are applied, every list stays as it is (lowering the
    capacity removes nobody), the game is marked active now and saved, no
    snapshot is written, and the reply is the roster under the update line;
    the line about the lowered capacity is added whenever the number given
    is below the old capacity and below the number of entries, also when
    that number is 0 and was passed over; this is stated for a game none
    of whose capacities is beyond 2^53 in size after the command, since
    there a loop of [sendList] does not end. Without an active game the only
    effect is the error reply. *)
Theorem modify_fields_keep_lists (env : Env) (gid uid : jsstring)
    (f : ModifyFields) (w : World) :
  m_list f = None →
  let w' := handleEvent env gid uid (ModifyGame f) w in
  (∀ g, games w !! gid = Some g → active g = true → fieldsChanged f = false →
        games w' = games w ∧ trace w' = trace w ++ [EvReply msg_modify_nothing])
  ∧ (∀ g, games w !! gid = Some g → active g = true → fieldsChanged f = true →
        let g' := with_lastActive (modifiedGame g f) (now env) in
        roster_ends g' →
        games w' = <[gid := g']> (games w)
        ∧ map s_list (sections g') = map s_list (sections g)
        ∧ trace w' = trace w ++ [EvSaveGame gid g';
                                 EvReply (renderList g' (modifyPrefix g f))])
  ∧ ((games w !! gid = None ∨ ∃ g, games w !! gid = Some g ∧ active g = false) →
        games w' = games w ∧ trace w' = trace w ++ [EvReply msg_modify_no_game]).
Proof.
  intros Hl. cbv zeta. unfold handleEvent.
  set (b := isGroupOrRoom gid && bool_decide (gid ∉ firstUseGroups w)).
  destruct (first_use_frame gid w b) as (Hg0 & _ & _ & Ht0).
  cbv zeta in Hg0, Ht0. set (w0 := if b then _ else w) in *.
  split; [|split].
  - intros g Hg Hact Hch.
    rewrite (handleModify_active env gid f w0 g) by (by rewrite ?Hg0).
    cbv zeta. rewrite Hl, Hch. cbn [negb games trace emit with_games].
    rewrite Hg0, Ht0. split; [|done]. apply insert_id. rewrite Hg. f_equal.
    unfold fieldsChanged in Hch. unfold modifiedGame.
    apply orb_false_elim in Hch as [Hch Hb]. apply orb_false_elim in Hch as [Ht Hn].
    apply bool_decide_eq_false in Ht.
    destruct (m_title f); [exfalso; by apply Ht|].
    destruct (m_limit f) as [n|]; rewrite ?Hn;
      destruct (m_backup f) as [k|]; rewrite ?Hb; done.
  - intros g Hg Hact Hch _.
    rewrite (handleModify_active env gid f w0 g) by (by rewrite ?Hg0).
    cbv zeta. rewrite Hl, Hch. cbn [negb].
    set (g3 := modifiedGame g f).
    set (w1 := with_games w0 (<[gid := g3]> (games w0))).
    assert (Ht1 : games (touchGame env gid w1)
                  = <[gid := with_lastActive g3 (now env)]> (games w)).
    { rewrite games_touchGame. unfold w1. cbn [games with_games].
      rewrite (alter_found _ _ _ g3) by apply lookup_insert_eq.
      by rewrite insert_insert_eq, Hg0. }
    assert (Hl1 : games (touchGame env gid w1) !! gid
                  = Some (with_lastActive g3 (now env)))
      by (rewrite Ht1; apply lookup_insert_eq).
    rewrite (saveGame_found _ _ _ Hl1).
    erewrite sendListReply_found by (cbn; exact Hl1).
    cbn [games trace emit]. rewrite Ht1. split; [done|]. split.
    + destruct (modifiedGame_fields g f) as (_ & _ & _ & H4 & _). exact H4.
    + change (trace (touchGame env gid w1)) with (trace w0).
      by rewrite Ht0, <- app_assoc.
  - intros Hno. unfold handleModify. rewrite Hg0.
    destruct Hno as [->|(g & -> & ->)]; cbn [negb games trace emit];
      by rewrite Hg0, Ht0.
Qed.

(** X16, witness: the capacity of a game of three is lowered to 2. *)
Lemma modify_fields_keep_lists_witness :
  map s_list (sections (with_lastActive
    (modifiedGame (sampleGame true SchedNone [lit "a"; lit "b"; lit "c"] [])
       (mkModify None (Some 2%Z) None None)) 1000))
  = [[lit "a"; lit "b"; lit "c"]].
Proof.
  refine (proj1 (proj2 (proj1 (proj2
    (modify_fields_keep_lists sampleEnv sampleGid sampleUid
       (mkModify None (Some 2%Z) None None)
       (sampleWorld (sampleGame true SchedNone [lit "a"; lit "b"; lit "c"] []))
       eq_refl))
    (sampleGame true SchedNone [lit "a"; lit "b"; lit "c"] []) _ eq_refl eq_refl _))).
  - vm_compute. reflexivity.
  - constructor; [|constructor]. cbn. lia.
Defined.

(** ** The section command *)

Section ConfigureFacts.

Context (env : Env) (gid uid : jsstring).

Lemma setSection_sections (g : Game) (idx : nat) (s : Section) :
  (idx ≤ 1)%nat →
  sections (setSection g idx s)
  = if decide (idx < length (sections g))%nat
    then <[idx := s]> (sections g) else sections g ++ [s].
Proof.
  intros Hidx. unfold setSection, sections.
  destruct idx as [|[|?]]; [done| |lia].
  destruct (moreSections g) as [|x r]; done.
Qed.

Lemma num_or_nonzero (x : option Z) (d : Z) : d ≠ 0%Z → num_or x d ≠ 0%Z.
Proof.
  intros Hd. unfold num_or. destruct x as [n|]; [|done].
  by destruct (Z.eqb_spec n 0).
Qed.

End ConfigureFacts.

(** X17. The section command writes the section at index 0, or at index 1
    when the text starts with the second form; the game need not be
    active. The section gets the title, capacity, waitlist size and label
    of the parameters (a capacity that is missing, not a number or 0
    becomes 10, so the capacity is never 0) and keeps the list that the
    index had; when index 1 did not exist, the game gets a second section
    with an empty list. Every other section, the title and the schedule of
    the game are as before; the game is marked active now and saved, no
    snapshot is written, and the reply is the roster; this is stated for a
    game none of whose capacities is beyond 2^53 in size after the
    command, since there a loop of [sendList] does not end. Without a game the
    command has no effect at all, not even a reply. *)
Theorem configure_keeps_lists (env : Env) (gid uid : jsstring) (second : bool)
    (p0 : option jsstring) (p1 p2 : option Z) (p3 : option jsstring) (w : World) :
  let idx := if second then 1%nat else 0%nat in
  let w' := handleEvent env gid uid (ConfigureSection second p0 p1 p2 p3) w in
  (games w !! gid = None → games w' = games w ∧ trace w' = trace w)
  ∧ (∀ g, games w !! gid = Some g →
       let sec := configuredSection g idx p0 p1 p2 p3 in
       let g' := with_lastActive (setSection g idx sec) (now env) in
       roster_ends g' →
       games w' = <[gid := g']> (games w)
       ∧ sections g' = (if decide (idx < length (sections g))%nat
                        then <[idx := sec]> (sections g) else sections g ++ [sec])
       ∧ map s_list (sections g')
         = map s_list (sections g)
           ++ (if decide (idx < length (sections g))%nat then [] else [[]])
       ∧ s_limit sec ≠ 0%Z
       ∧ title g' = title g ∧ active g' = active g
       ∧ scheduleTime g' = scheduleTime g
       ∧ trace w'
         = trace w ++ [EvSaveGame gid g';
                       EvReply (renderList g'
                                  (lit "⚙️ 區段" ++ decimal (N.of_nat (idx + 1))
                                   ++ lit " 更新成功"))]).
Proof.
  cbv zeta. unfold handleEvent.
  set (b := isGroupOrRoom gid && bool_decide (gid ∉ firstUseGroups w)).
  destruct (first_use_frame gid w b) as (Hg0 & _ & _ & Ht0).
  cbv zeta in Hg0, Ht0. set (w0 := if b then _ else w) in *.
  set (idx := if second then 1%nat else 0%nat).
  assert (Hidx : (idx ≤ 1)%nat) by (unfold idx; destruct second; lia).
  split.
  - intros Hno. unfold handleConfigure. rewrite Hg0, Hno. by rewrite Hg0, Ht0.
  - intros g Hg _. unfold handleConfigure. rewrite Hg0, Hg. fold idx.
    fold (configuredSection g idx p0 p1 p2 p3).
    set (sec := configuredSection g idx p0 p1 p2 p3).
    set (w1 := with_games w0 (<[gid := setSection g idx sec]> (games w))).
    assert (Ht1 : games (touchGame env gid w1)
                  = <[gid := with_lastActive (setSection g idx sec) (now env)]> (games w)).
    { rewrite games_touchGame. unfold w1. cbn [games with_games].
      rewrite (alter_found _ _ _ (setSection g idx sec)) by apply lookup_insert_eq.
      by rewrite insert_insert_eq. }
    assert (Hl1 : games (touchGame env gid w1) !! gid
                  = Some (with_lastActive (setSection g idx sec) (now env)))
      by (rewrite Ht1; apply lookup_insert_eq).
    rewrite (saveGame_found _ _ _ Hl1).
    erewrite sendListReply_found by (cbn; exact Hl1).
    cbn [games trace emit]. rewrite Ht1.
    change (sections (with_lastActive (setSection g idx sec) (now env)))
      with (sections (setSection g idx sec)).
    rewrite setSection_sections by done.
    split; [done|]. split; [done|]. split; [|split; [|split; [|split; [|split]]]].
    + destruct (decide (idx < length (sections g))%nat) as [Hin|Hout].
      * rewrite app_nil_r. apply list_eq. intros i.
        rewrite !list_lookup_fmap.
        destruct (decide (i = idx)) as [->|Hne].
        -- rewrite list_lookup_insert_eq by done. unfold sec, configuredSection.
           cbn [s_list]. unfold sectionAt.
           destruct (sections g !! idx) as [s|] eqn:E; [done|].
           apply lookup_ge_None in E. lia.
        -- by rewrite list_lookup_insert_ne by done.
      * rewrite map_app. cbn [map]. do 2 f_equal. unfold sec, configuredSection.
        cbn [s_list]. unfold sectionAt. rewrite lookup_ge_None_2 by lia. done.
    + apply num_or_nonzero. done.
    + unfold setSection. destruct idx; [done|]. by destruct (moreSections g).
    + unfold setSection. destruct idx; [done|]. by destruct (moreSections g).
    + unfold setSection. destruct idx; [done|]. by destruct (moreSections g).
    + change (trace (touchGame env gid w1)) with (trace w0).
      by rewrite Ht0, <- app_assoc.
Qed.

(** ** The clear, end and delete commands *)

Section ClearFacts.

Lemma elem_of_snapshotRows (gs : gmap jsstring Game) (row : jsstring) :
  row ∈ snapshotRows gs
  ↔ ∃ gid g, gs !! gid = Some g ∧ row ∈ gameRows gid g.
Proof.
  unfold snapshotRows. rewrite elem_of_concat. split.
  - intros (l & Hl & Hrow). apply elem_of_map_iff in Hl as ([gid g] & -> & Hkv).
    apply elem_of_map_to_list in Hkv. by exists gid, g.
  - intros (gid & g & Hg & Hrow). exists (gameRows gid g). split; [|done].
    apply elem_of_map_iff. exists (gid, g). split; [done|].
    by apply elem_of_map_to_list.
Qed.

Lemma gameRows_no_names (gid : jsstring) (g : Game) :
  Forall (λ s, realNames (s_list s) = []) (sections g) → gameRows gid g = [].
Proof.
  intros H. destruct (gameRows gid g) as [|row rows] eqn:E; [done|]. exfalso.
  assert (Hin : row ∈ gameRows gid g) by (rewrite E; by left).
  apply elem_of_gameRows in Hin as (idx & sec & name & Hs & Hn & Hreal & _).
  rewrite Forall_forall in H.
  assert (Hsec : sec ∈ sections g) by (by eapply list_elem_of_lookup_2).
  specialize (H sec Hsec).
  assert (Hr : name ∈ realNames (s_list sec))
    by (unfold realNames; by apply list_elem_of_filter).
  rewrite H in Hr. by apply elem_of_nil in Hr.
Qed.

(** The rows of a registry in which one game lists no real name are the
    rows of the other games. *)
Lemma snapshotRows_without (gs : gmap jsstring Game) (gid : jsstring) (g : Game)
    (row : jsstring) :
  gameRows gid g = [] →
  row ∈ snapshotRows (<[gid := g]> gs) ↔ row ∈ snapshotRows (delete gid gs).
Proof.
  intros Hempty. rewrite !elem_of_snapshotRows. split.
  - intros (k & gk & Hk & Hrow). destruct (decide (k = gid)) as [->|Hne].
    + rewrite lookup_insert_eq in Hk. injection Hk as <-.
      rewrite Hempty in Hrow. by apply elem_of_nil in Hrow.
    + rewrite lookup_insert_ne in Hk by done. exists k, gk.
      by rewrite lookup_delete_ne.
  - intros (k & gk & Hk & Hrow). destruct (decide (k = gid)) as [->|Hne].
    + by rewrite lookup_delete_eq in Hk.
    + rewrite lookup_delete_ne in Hk by done. exists k, gk.
      by rewrite lookup_insert_ne.
Qed.

End ClearFacts.

(** X18. The clear command empties the list of every section of the game
    and keeps the sections themselves (titles, capacities, waitlist sizes,
    labels), the title, the schedule and the active flag; the game is
    marked active now and saved, and the snapshot written holds no row of
    this conversation any more, only the rows of the other games; the
    reply is the confirmation text. Without a game the command has no
    effect at all, not even a reply. *)
Theorem clear_empties_every_list (env : Env) (gid uid : jsstring) (w : World) :
  let w' := handleEvent env gid uid ClearList w in
  (games w !! gid = None → games w' = games w ∧ trace w' = trace w)
  ∧ (∀ g, games w !! gid = Some g →
       games w' = <[gid := clearedGame env g]> (games w)
       ∧ sections (clearedGame env g) = map (λ s, with_list s []) (sections g)
       ∧ title (clearedGame env g) = title g
       ∧ active (clearedGame env g) = active g
       ∧ scheduleTime (clearedGame env g) = scheduleTime g
       ∧ trace w' = trace w ++ [EvSaveGame gid (clearedGame env g);
                                EvSnapshot (snapshotContent (games w'));
                                EvReply (lit "🧹 名單已清空")]
       ∧ ∀ row, row ∈ snapshotRows (games w')
                ↔ row ∈ snapshotRows (delete gid (games w))).
Proof.
  cbv zeta. unfold handleEvent.
  set (b := isGroupOrRoom gid && bool_decide (gid ∉ firstUseGroups w)).
  destruct (first_use_frame gid w b) as (Hg0 & _ & _ & Ht0).
  cbv zeta in Hg0, Ht0. set (w0 := if b then _ else w) in *.
  split.
  - intros Hno. unfold handleClear. rewrite Hg0, Hno. by rewrite Hg0, Ht0.
  - intros g Hg. unfold handleClear. rewrite Hg0, Hg.
    set (g1 := map_sections (λ s, with_list s []) g).
    set (w1 := with_games w0 (<[gid := g1]> (games w))).
    assert (Ht1 : games (touchGame env gid w1)
                  = <[gid := clearedGame env g]> (games w)).
    { rewrite games_touchGame. unfold w1. cbn [games with_games].
      rewrite (alter_found _ _ _ g1) by apply lookup_insert_eq.
      by rewrite insert_insert_eq. }
    assert (Hl1 : games (touchGame env gid w1) !! gid = Some (clearedGame env g))
      by (rewrite Ht1; apply lookup_insert_eq).
    rewrite (saveGame_found _ _ _ Hl1).
    cbn [games trace emit saveCurrentListSnapshot]. rewrite Ht1.
    repeat split; try done.
    + change (trace (touchGame env gid w1)) with (trace w0).
      by rewrite Ht0, <- !app_assoc.
    + apply snapshotRows_without. apply gameRows_no_names.
      change (sections (clearedGame env g))
        with (map (λ s, with_list s []) (sections g)).
      apply Forall_map. by apply Forall_true.
    + apply snapshotRows_without. apply gameRows_no_names.
      change (sections (clearedGame env g))
        with (map (λ s, with_list s []) (sections g)).
      apply Forall_map. by apply Forall_true.
Qed.

(** ** The recovery on any text *)

Section RestoreSound.

Context (env : Env).

Lemma trimStart_head (s : jsstring) : head_ok (trimStart s).
Proof.
  induction s as [|c s IH]; [done|]. cbn [trimStart].
  destruct (is_ws c) eqn:Hc; [done|]. exact Hc.
Qed.

Lemma head_ok_prefix (s p : jsstring) : head_ok (s ++ p) → head_ok s.
Proof. by destruct s. Qed.

Lemma trim_edges (s : jsstring) : clean_edges (trim s).
Proof.
  unfold trim. split.
  - destruct (trimEnd_split (trimStart s)) as (p & Hp & _).
    apply (head_ok_prefix _ p). rewrite <- Hp. apply trimStart_head.
  - unfold trimEnd. rewrite rev_involutive. apply trimStart_head.
Qed.

Lemma trim_idempotent (s : jsstring) : trim (trim s) = trim s.
Proof. apply trim_clean, trim_edges. Qed.

Lemma truthy_str_inv (s : jsstring) : truthy_str s = true → s ≠ [].
Proof. by destruct s. Qed.

Lemma readRow_sound (cs : Columns) (line : jsstring) (r : Row) :
  readRow cs line = Some r →
  sound_name (r_gid r) ∧ sound_name (r_name r) ∧ (0 ≤ r_section r)%Z
  ∧ (∀ n, r_limit r = Some n → (0 < n)%Z)
  ∧ (∀ n, r_backup r = Some n → (0 ≤ n)%Z).
Proof.
  unfold readRow. destruct (truthy_str (trim line)); cbn [negb]; [|done].
  set (cols := parseCsvLine (trim line)).
  destruct (truthy_str (trim (column cols (idxGid cs)))) eqn:Hg; cbn [negb orb]; [|done].
  destruct (truthy_str (trim (column cols (idxName cs)))) eqn:Hn; cbn [negb]; [|done].
  intros [= <-]. cbn [r_gid r_name r_section r_limit r_backup].
  split; [|split; [|split; [|split]]].
  - split; [by apply truthy_str_inv | apply trim_idempotent].
  - split; [by apply truthy_str_inv | apply trim_idempotent].
  - destruct (parseInt _) as [n|]; [|done]. by destruct (Z.leb_spec 0 n).
  - intros n. destruct (idxLimit cs) as [i|]; [|done].
    destruct (parseInt _) as [m|]; [|done].
    destruct (Z.ltb_spec 0 m); [|done]. by intros [= <-].
  - intros n. destruct (idxBackup cs) as [i|]; [|done].
    destruct (parseInt _) as [m|]; [|done].
    destruct (Z.leb_spec 0 m); [|done]. by intros [= <-].
Qed.

Lemma pushName_sound (P : jsstring → Prop) (rs : list Row) :
  ∀ (o : option (list jsstring)) (l : list jsstring),
    Forall P (default [] o) → Forall (λ r, P (r_name r)) rs →
    foldl pushName o rs = Some l → Forall P l.
Proof.
  induction rs as [|r rs IH]; intros o l Ho Hrs H.
  - cbn in H. subst o. exact Ho.
  - apply Forall_cons in Hrs as [Hr Hrs]. cbn [foldl] in H.
    apply (IH (pushName o r)); [|done..]. unfold pushName.
    change (default [] (Some ?x)) with x.
    destruct (includes (default [] o) (r_name r)); [done|].
    apply Forall_app. split; [done|]. by apply Forall_singleton.
Qed.

Lemma pushName_nonempty (rs : list Row) :
  ∀ o : option (list jsstring),
    (rs ≠ [] ∨ ∃ l, o = Some l ∧ l ≠ []) →
    ∃ l, foldl pushName o rs = Some l ∧ l ≠ [].
Proof.
  induction rs as [|r rs IH]; intros o Ho.
  - destruct Ho as [?|(l & -> & Hl)]; [done|]. by exists l.
  - cbn [foldl]. apply IH. right. unfold pushName. eexists. split; [reflexivity|].
    unfold includes. destruct (bool_decide (r_name r ∈ default [] o)) eqn:E.
    + apply bool_decide_eq_true in E. intros Hnil. rewrite Hnil in E.
      by apply elem_of_nil in E.
    + by destruct (default [] o).
Qed.

Lemma pushMeta_sound (rs : list Row) :
  ∀ o : option SectionMeta,
    meta_ok o →
    Forall (λ r, (∀ n, r_limit r = Some n → (0 < n)%Z)
                 ∧ (∀ n, r_backup r = Some n → (0 ≤ n)%Z)) rs →
    meta_ok (foldl pushMeta o rs).
Proof.
  induction rs as [|r rs IH]; intros o Ho Hrs; [done|].
  apply Forall_cons in Hrs as [[Hl Hb] Hrs]. cbn [foldl]. apply IH; [|done].
  intros m Hm. unfold pushMeta in Hm. injection Hm as <-.
  cbn [meta_limit meta_backupLimit].
  assert (Hold : (∀ n, meta_limit (default (mkMeta None None) o) = Some n → (0 < n)%Z)
                 ∧ (∀ n, meta_backupLimit (default (mkMeta None None) o) = Some n
                         → (0 ≤ n)%Z)).
  { destruct o as [m0|]; [by apply Ho | done]. }
  destruct Hold as [Hol Hob]. split.
  - intros n. destruct (r_limit r) as [raw|]; [|apply Hol].
    intros [= <-]. specialize (Hl raw eq_refl). lia.
  - intros n. destruct (r_backup r) as [raw|]; [|apply Hob].
    intros [= <-]. specialize (Hb raw eq_refl). lia.
Qed.

Lemma restoredSection_sound (sm : gmap Z (list jsstring))
    (mm : gmap Z SectionMeta) (idx : nat) :
  (∀ l, sm !! Z.of_nat idx = Some l → NoDup l ∧ Forall sound_name l) →
  meta_ok (mm !! Z.of_nat idx) →
  sound_section (restoredSection sm mm idx).
Proof.
  intros Hl Hm. unfold sound_section, restoredSection.
  cbn [s_limit s_backupLimit s_label s_list].
  destruct (mm !! Z.of_nat idx) as [m|] eqn:Em.
  - destruct (Hm m eq_refl) as [Hlim Hb]. cbn [default]. unfold id.
    split; [|split; [|split; [done|]]].
    + unfold num_or. destruct (meta_limit m) as [n|]; [|lia].
      specialize (Hlim n eq_refl). destruct (Z.eqb_spec n 0); lia.
    + destruct (meta_backupLimit m) as [n|]; [by apply Hb | done].
    + destruct (sm !! Z.of_nat idx) as [l|]; [by apply Hl|].
      split; [apply NoDup_nil_2 | apply Forall_nil_2].
  - cbn [default meta_limit meta_backupLimit num_or]. unfold id.
    split; [lia|]. split; [done|]. split; [done|].
    destruct (sm !! Z.of_nat idx) as [l|]; [by apply Hl|].
    split; [apply NoDup_nil_2 | apply Forall_nil_2].
Qed.

(** The rebuilding loop adds saves to the trace and leaves the caches. *)
Lemma rebuild_effects (meta : gmap jsstring (gmap Z SectionMeta))
    (l : list (jsstring * gmap Z (list jsstring))) (w : World) :
  let w' := foldl (λ w kv,
                     let g := restoredGame env kv.2 (default ∅ (meta !! kv.1)) in
                     saveGame kv.1 (with_games w (<[kv.1 := g]> (games w))))
                  w l in
  userNameCache w' = userNameCache w ∧ uidToNameMap w' = uidToNameMap w
  ∧ ∃ new, trace w' = trace w ++ new ∧ Forall is_save new.
Proof.
  revert w. induction l as [|[k sm] l IH]; intros w; cbv zeta.
  - repeat split. exists []. by rewrite app_nil_r.
  - cbn [foldl fst snd].
    set (g := restoredGame env sm (default ∅ (meta !! k))).
    set (w1 := with_games w (<[k := g]> (games w))).
    assert (H1 : games w1 !! k = Some g) by (cbn; apply lookup_insert_eq).
    rewrite (saveGame_found _ _ _ H1).
    destruct (IH (emit (EvSaveGame k g) w1)) as (Hc & Hu & new & Ht & Hs).
    cbv zeta in Hc, Hu, Ht. rewrite Hc, Hu, Ht. repeat split.
    exists (EvSaveGame k g :: new). split.
    + cbn [trace emit with_games w1]. by rewrite <- app_assoc.
    + by apply Forall_cons.
Qed.

(** Every game of the two maps of the row loop is sound. *)
Lemma readRows_game_sound (cs : Columns) (lines : list jsstring)
    (gid : jsstring) (sm : gmap Z (list jsstring)) :
  byGid (readRows cs lines) !! gid = Some sm →
  sound_restored env gid
    (restoredGame env sm (default ∅ (metaByGid (readRows cs lines) !! gid))).
Proof.
  intros Hsm. set (acc := readRows cs lines) in *.
  set (rows := omap (readRow cs) lines).
  assert (Hacc : acc = foldl addRow (mkRestore ∅ ∅) rows)
    by apply readRows_omap.
  assert (Hrows : Forall (λ r, sound_name (r_gid r) ∧ sound_name (r_name r)
                               ∧ (0 ≤ r_section r)%Z
                               ∧ (∀ n, r_limit r = Some n → (0 < n)%Z)
                               ∧ (∀ n, r_backup r = Some n → (0 ≤ n)%Z)) rows).
  { apply Forall_forall. intros r Hr. unfold rows in Hr.
    apply list_elem_of_omap in Hr as (line & _ & Hline).
    by eapply readRow_sound. }
  assert (Hfor : ∀ idx, Forall (λ r, sound_name (r_gid r) ∧ sound_name (r_name r)
                               ∧ (0 ≤ r_section r)%Z
                               ∧ (∀ n, r_limit r = Some n → (0 < n)%Z)
                               ∧ (∀ n, r_backup r = Some n → (0 ≤ n)%Z))
                          (rowsFor gid idx rows)).
  { intros idx. unfold rowsFor. apply Forall_forall. intros r Hr.
    apply list_elem_of_filter in Hr as [_ Hr]. rewrite Forall_forall in Hrows.
    by apply Hrows. }
  assert (Hlist : ∀ idx l, sm !! idx = Some l → NoDup l ∧ Forall sound_name l).
  { intros idx l Hl.
    assert (H : listAt acc gid idx = Some l) by (unfold listAt; by rewrite Hsm).
    rewrite Hacc, addRows_listAt in H.
    assert (H0 : listAt (mkRestore ∅ ∅) gid idx = None)
      by (unfold listAt; cbn; by rewrite lookup_empty).
    rewrite H0 in H. split.
    - eapply pushName_NoDup; [|exact H]. done.
    - apply (pushName_sound sound_name (rowsFor gid idx rows) None l); [done| |done].
      eapply Forall_impl; [apply (Hfor idx)|]. by intros r (_ & ? & _). }
  assert (Hmeta : ∀ idx, meta_ok (default ∅ (metaByGid acc !! gid) !! idx)).
  { intros idx.
    assert (H : metaAt acc gid idx = default ∅ (metaByGid acc !! gid) !! idx).
    { unfold metaAt. destruct (metaByGid acc !! gid); [done|].
      cbn. by rewrite lookup_empty. }
    rewrite <- H, Hacc, addRows_metaAt.
    assert (H0 : metaAt (mkRestore ∅ ∅) gid idx = None)
      by (unfold metaAt; cbn; by rewrite lookup_empty).
    rewrite H0. apply pushMeta_sound; [done|].
    eapply Forall_impl; [apply (Hfor idx)|]. by intros r (_ & _ & _ & ? & ?). }
  assert (Hrow : ∃ r, r ∈ rows ∧ r_gid r = gid).
  { assert (Hs : is_Some (byGid acc !! gid)) by (by eexists).
    rewrite Hacc in Hs. apply addRows_byGid in Hs as [Hs|Hs]; [|done].
    cbn in Hs. rewrite lookup_empty in Hs. by destruct Hs. }
  destruct Hrow as (r & Hr & Hrg).
  rewrite Forall_forall in Hrows. destruct (Hrows r Hr) as (Hgid & _ & Hsec & _).
  rewrite Hrg in Hgid.
  assert (Hmax : (0 ≤ maxSectionIdx sm)%Z) by apply max_list_nonneg.
  unfold sound_restored. split; [done|]. repeat (split; [reflexivity|]). split.
  - unfold sections. cbn [section0 moreSections restoredGame]. apply Forall_cons. split.
    + apply restoredSection_sound; [apply Hlist | apply Hmeta].
    + apply Forall_map, Forall_forall. intros i _.
      apply restoredSection_sound; [apply Hlist | apply Hmeta].
  - (* the section of the row holds a name *)
    assert (Hin : r ∈ rowsFor gid (r_section r) rows)
      by (unfold rowsFor; by apply list_elem_of_filter).
    destruct (pushName_nonempty (rowsFor gid (r_section r) rows) None)
      as (l & Hl & Hne).
    { left. intros Hnil. rewrite Hnil in Hin. by apply elem_of_nil in Hin. }
    assert (Hat : listAt acc gid (r_section r) = Some l).
    { rewrite Hacc, addRows_listAt.
      assert (H0 : listAt (mkRestore ∅ ∅) gid (r_section r) = None)
        by (unfold listAt; cbn; by rewrite lookup_empty).
      by rewrite H0. }
    unfold listAt in Hat. rewrite Hsm in Hat. cbn in Hat.
    assert (Hle : (r_section r ≤ maxSectionIdx sm)%Z)
      by (apply maxSectionIdx_ge; by eexists).
    apply Exists_exists.
    exists (restoredSection sm (default ∅ (metaByGid acc !! gid))
              (Z.to_nat (r_section r))).
    split.
    + apply (list_elem_of_lookup_2 _ (Z.to_nat (r_section r))).
      rewrite (restoredGame_sections env) by done.
      rewrite decide_True by lia. reflexivity.
    + cbn [s_list restoredSection]. rewrite Z2Nat.id by done. by rewrite Hat.
Qed.

End RestoreSound.

(** X20. The recovery on a text, well formed or not. When
    [restoreGamesFromCsv] returns false, nothing has changed. When it
    returns true on a text none of whose rows has the conversation id
    [__proto__] or a number above 2^53, the registry was empty before and
    is not afterwards, the only effects are saves,
    and every game in the registry is sound: its conversation id and all
    its names are not empty and carry no white space at either end, no
    list holds a name twice, every section has a capacity above 0, a
    waitlist size of 0 or more and no label, at least one section lists a
    name, and the game is active, without schedule, with the default
    title and with the present time as start and last-active time. *)
Theorem restore_builds_sound_games (env : Env) (content : jsstring) (w : World) :
  let r := restoreGamesFromCsv env content w in
  (r.1 = false → r.2 = w)
  ∧ (r.1 = true → plain_rows content →
     games w = ∅
     ∧ games r.2 ≠ ∅
     ∧ (∀ gid g, games r.2 !! gid = Some g → sound_restored env gid g)
     ∧ userNameCache r.2 = userNameCache w ∧ uidToNameMap r.2 = uidToNameMap w
     ∧ ∃ new, trace r.2 = trace w ++ new ∧ Forall is_save new).
Proof.
  cbv zeta. unfold restoreGamesFromCsv.
  destruct (decide (games w = ∅)) as [Hempty|Hne].
  2: { rewrite bool_decide_eq_false_2 by done. by cbn. }
  rewrite bool_decide_eq_true_2 by done. cbn [negb].
  destruct (truthy_str content); cbn [negb]; [|by cbn].
  destruct (splitLines (trim content)) as [|headerLine [|row rows]]; [by cbn..|].
  destruct (readHeader headerLine) as [cs|]; [|by cbn].
  set (acc := readRows cs (row :: rows)).
  destruct (decide (byGid acc = ∅)) as [He|Hsome].
  { rewrite bool_decide_eq_true_2 by done. by cbn. }
  rewrite bool_decide_eq_false_2 by done. cbn [fst snd].
  split; [done|]. intros _ _.
  assert (Hlook : ∀ gid,
            games (foldl (λ w kv,
                            let g := restoredGame env kv.2
                                       (default ∅ (metaByGid acc !! kv.1)) in
                            saveGame kv.1 (with_games w (<[kv.1 := g]> (games w))))
                         w (map_to_list (byGid acc))) !! gid
            = (λ sm, restoredGame env sm (default ∅ (metaByGid acc !! gid)))
              <$> byGid acc !! gid).
  { intros gid. rewrite rebuild_lookup by apply NoDup_fst_map_to_list.
    rewrite list_to_map_to_list, Hempty, lookup_empty.
    by destruct (byGid acc !! gid). }
  cbv zeta in Hlook.
  split; [done|]. split; [|split].
  - intros Hnone. apply Hsome. apply map_eq. intros gid.
    rewrite lookup_empty. specialize (Hlook gid). rewrite Hnone, lookup_empty in Hlook.
    by destruct (byGid acc !! gid).
  - intros gid g Hg. rewrite Hlook in Hg.
    destruct (byGid acc !! gid) as [sm|] eqn:Hsm; [|done].
    injection Hg as <-. by apply readRows_game_sound.
  - apply (rebuild_effects env (metaByGid acc) (map_to_list (byGid acc)) w).
Qed.

(** ** The expiry scan *)

Section ExpiryFacts.

Context (env : Env).

(** A loop over distinct keys whose turns each replace or remove the game
    of their own key. *)
Lemma fold_keys (step : jsstring → World → World) (f : Game → option Game) :
  (∀ gid w g, games w !! gid = Some g →
     games (step gid w) = match f g with
                          | Some g' => <[gid := g']> (games w)
                          | None => delete gid (games w)
                          end) →
  (∀ gid w, games w !! gid = None → games (step gid w) = games w) →
  ∀ l, NoDup l → ∀ w gid,
    games (foldl (λ w gid, step gid w) w l) !! gid
    = if decide (gid ∈ l) then games w !! gid ≫= f else games w !! gid.
Proof.
  intros Hsome Hnone l. induction l as [|a l IH]; intros Hnd w gid.
  - cbn [foldl]. by rewrite decide_False by apply not_elem_of_nil.
  - apply NoDup_cons in Hnd as [Ha Hnd]. cbn [foldl]. rewrite (IH Hnd).
    assert (Hother : ∀ k, k ≠ a → games (step a w) !! k = games w !! k).
    { intros k Hk. destruct (games w !! a) as [g|] eqn:Hg.
      - rewrite (Hsome a w g Hg). destruct (f g).
        + by rewrite lookup_insert_ne.
        + by rewrite lookup_delete_ne.
      - by rewrite (Hnone a w Hg). }
    destruct (decide (gid = a)) as [->|Hne].
    + rewrite decide_False by done. rewrite decide_True by (by left).
      destruct (games w !! a) as [g|] eqn:Hg.
      * rewrite (Hsome a w g Hg). cbn. destruct (f g).
        -- by rewrite lookup_insert_eq.
        -- by rewrite lookup_delete_eq.
      * by rewrite (Hnone a w Hg), Hg.
    + rewrite (Hother gid Hne).
      destruct (decide (gid ∈ l)) as [Hin|Hout].
      * by rewrite decide_True by (by right).
      * rewrite decide_False; [done|].
        intros Hin. apply elem_of_cons in Hin as [?|?]; done.
Qed.

Lemma checkExpired_games (gid : jsstring) (w : World) (g : Game) :
  games w !! gid = Some g →
  games (checkExpired env gid w)
  = match expiryStep env g with
    | Some g' => <[gid := g']> (games w)
    | None => delete gid (games w)
    end.
Proof.
  intros Hg. unfold checkExpired, expiryStep. rewrite Hg.
  unfold stampGame. destruct (startTime g =? 0)%Z eqn:Hs.
  - set (g1 := with_lastActive _ _).
    rewrite (saveGame_found gid g1) by (cbn; apply lookup_insert_eq).
    destruct (isExpired env g1).
    + rewrite games_snapshot. cbn [deleteGame games emit with_games].
      by rewrite delete_insert_eq.
    + reflexivity.
  - destruct (isExpired env g).
    + rewrite games_snapshot. reflexivity.
    + by rewrite insert_id.
Qed.

Lemma checkExpired_absent (gid : jsstring) (w : World) :
  games w !! gid = None → checkExpired env gid w = w.
Proof. intros H. unfold checkExpired. by rewrite H. Qed.

Lemma checkExpired_effects (gid : jsstring) (w : World) :
  userNameCache (checkExpired env gid w) = userNameCache w
  ∧ uidToNameMap (checkExpired env gid w) = uidToNameMap w
  ∧ ∃ new, trace (checkExpired env gid w) = trace w ++ new
           ∧ Forall expiry_effect new.
Proof.
  unfold checkExpired. destruct (games w !! gid) as [g|] eqn:Hg.
  2: { split; [done|]. split; [done|]. exists []. by rewrite app_nil_r. }
  destruct (startTime g =? 0)%Z.
  - rewrite (saveGame_found gid (stampGame env g)) by (cbn; apply lookup_insert_eq).
    destruct (isExpired env (stampGame env g));
      (split; [reflexivity|]); (split; [reflexivity|]).
    + exists [EvSaveGame gid (stampGame env g); EvDeleteGame gid;
              EvSnapshot (snapshotContent (delete gid (<[gid := stampGame env g]> (games w))))].
      split; [|repeat constructor].
      cbn [trace emit saveCurrentListSnapshot deleteGame with_games games].
      by rewrite <- !app_assoc.
    + exists [EvSaveGame gid (stampGame env g)]. split; [reflexivity | repeat constructor].
  - destruct (isExpired env (stampGame env g));
      (split; [reflexivity|]); (split; [reflexivity|]).
    + exists [EvDeleteGame gid; EvSnapshot (snapshotContent (delete gid (games w)))].
      split; [|repeat constructor].
      cbn [trace emit saveCurrentListSnapshot deleteGame with_games games].
      by rewrite <- !app_assoc.
    + exists []. by rewrite app_nil_r.
Qed.

Lemma expiry_fold_effects (l : list jsstring) (w : World) :
  let w' := foldl (λ w gid, checkExpired env gid w) w l in
  userNameCache w' = userNameCache w ∧ uidToNameMap w' = uidToNameMap w
  ∧ ∃ new, trace w' = trace w ++ new ∧ Forall expiry_effect new.
Proof.
  revert w. induction l as [|a l IH]; intros w; cbv zeta.
  - split; [done|]. split; [done|]. exists []. by rewrite app_nil_r.
  - cbn [foldl]. destruct (IH (checkExpired env a w)) as (H1 & H2 & new & Hn & Hk).
    destruct (checkExpired_effects a w) as (H3 & H4 & new0 & Hn0 & Hk0).
    cbv zeta in H1, H2, Hn. rewrite H1, H2, Hn, H3, H4, Hn0.
    split; [done|]. split; [done|].
    exists (new0 ++ new). split; [by rewrite <- app_assoc|]. by apply Forall_app.
Qed.

Lemma checkExpiredGames_lookup (w : World) (gid : jsstring) :
  games (checkExpiredGames env w) !! gid = games w !! gid ≫= expiryStep env.
Proof.
  unfold checkExpiredGames.
  rewrite (fold_keys (checkExpired env) (expiryStep env)).
  - destruct (games w !! gid) as [g|] eqn:Hg; [|by destruct (decide _)].
    rewrite decide_True; [done|]. apply list_elem_of_fmap. exists (gid, g).
    split; [done|]. by apply elem_of_map_to_list.
  - intros k w0 g Hg. by apply checkExpired_games.
  - intros k w0 Hg. by rewrite checkExpired_absent.
  - apply NoDup_fst_map_to_list.
Qed.

End ExpiryFacts.

(** X21. The expiry scan, for any registry. A game with a start time is
    deleted exactly when its last activity ([lastActiveTime], or the start
    time when that is missing) lies more than seven days before now, and
    is otherwise left exactly as it is. A game without start time is never
    deleted by the scan: it gets the present time as start and last-active
    time and stays. No game is added, no list or capacity is changed, the
    name maps are as before, and the effects are saves, deletions and
    snapshot writes only. *)
Theorem expiry_scan_deletes_idle_games (env : Env) (w : World) :
  let w' := checkExpiredGames env w in
  (∀ gid g, games w !! gid = Some g → startTime g ≠ 0%Z →
     games w' !! gid
     = if (EXPIRY_TIME <? now env - (if (lastActiveTime g =? 0)%Z
                                     then startTime g else lastActiveTime g))%Z
       then None else Some g)
  ∧ (∀ gid g, games w !! gid = Some g → startTime g = 0%Z →
       games w' !! gid
       = Some (with_lastActive (with_startTime g (now env)) (now env)))
  ∧ (∀ gid, games w !! gid = None → games w' !! gid = None)
  ∧ userNameCache w' = userNameCache w ∧ uidToNameMap w' = uidToNameMap w
  ∧ ∃ new, trace w' = trace w ++ new ∧ Forall expiry_effect new.
Proof.
  cbv zeta. split; [|split; [|split]].
  - intros gid g Hg Hs. rewrite checkExpiredGames_lookup, Hg. cbn.
    unfold expiryStep, stampGame, isExpired, lastActiveOf.
    rewrite (proj2 (Z.eqb_neq (startTime g) 0)) by done. cbv iota.
    rewrite (proj2 (Z.eqb_neq (startTime g) 0)) by done.
    by destruct (lastActiveTime g =? 0)%Z.
  - intros gid g Hg Hs. rewrite checkExpiredGames_lookup, Hg. cbn.
    unfold expiryStep, stampGame, isExpired, lastActiveOf. rewrite Hs.
    cbn [Z.eqb lastActiveTime startTime with_lastActive with_startTime].
    assert (Hkeep : (EXPIRY_TIME <? now env - (if negb (now env =? 0)%Z
                                                then now env
                                                else if negb (now env =? 0)%Z
                                                     then now env else now env))%Z
                    = false).
    { apply Z.ltb_ge. unfold EXPIRY_TIME. destruct (now env =? 0)%Z; cbn; lia. }
    by rewrite Hkeep.
  - intros gid Hg. by rewrite checkExpiredGames_lookup, Hg.
  - apply (expiry_fold_effects env _ w).
Qed.

(** X22. A game and the expiry scan after a join. When a join was
    accepted at a time other than 0 on a game that has a start time, an
    expiry scan run later keeps the game, exactly as the join left it, as
    long as no more than seven days have passed since the join, and
    deletes it once more than seven days have passed. *)
Theorem joined_game_expires_after_a_week (env env' : Env) (gid uid : jsstring)
    (count : Z) (content : jsstring) (w w1 : World) (g : Game)
    (names : list jsstring) :
  games w !! gid = Some g → active g = true → notYetOpen env g = None →
  joinNames env gid uid count content (s_list (section0 g)) w = (names, w1) →
  NoDup (realNames names) →
  Forall (λ n, n ∉ s_list (section0 g)) (realNames names) →
  startTime g ≠ 0%Z → now env ≠ 0%Z →
  games (checkExpiredGames env' (handleJoin env gid uid count content w)) !! gid
  = if (EXPIRY_TIME <? now env' - now env)%Z then None
    else Some (with_lastActive
                 (with_section0 g (with_list (section0 g)
                                     (s_list (section0 g) ++ names))) (now env)).
Proof.
  intros Hg Hact Hopen Hj Hnd Hnew Hstart Hnow.
  destruct (handleJoin_accepted env gid uid count content w w1 g names
              Hg Hact Hopen Hj Hnd Hnew) as (H1 & _).
  rewrite checkExpiredGames_lookup, H1, lookup_insert_eq. cbn.
  unfold expiryStep, stampGame, isExpired, lastActiveOf.
  cbn [startTime lastActiveTime with_lastActive with_section0].
  rewrite (proj2 (Z.eqb_neq (startTime g) 0)) by done. cbv iota.
  cbn [startTime lastActiveTime with_lastActive with_section0].
  by rewrite (proj2 (Z.eqb_neq (now env) 0)) by done.
Qed.

(** X22, witness: a join at time 1000 and a scan eight days later. *)
Lemma joined_game_expires_after_a_week_witness :
  games (checkExpiredGames (mkEnv (1000 + 8 * 86400000) None (λ _, []) (λ _, true))
           (handleJoin sampleEnv sampleGid sampleUid 1 (lit "bob")
              (mkWorld {[ sampleGid := with_startTime
                                         (sampleGame true SchedNone [lit "amy"] []) 500 ]}
                       ∅ ∅ ∅ []))) !! sampleGid
  = None.
Proof.
  refine (joined_game_expires_after_a_week sampleEnv
            (mkEnv (1000 + 8 * 86400000) None (λ _, []) (λ _, true))
            sampleGid sampleUid 1 (lit "bob")
            (mkWorld {[ sampleGid := with_startTime
                                       (sampleGame true SchedNone [lit "amy"] []) 500 ]}
                     ∅ ∅ ∅ []) _
            (with_startTime (sampleGame true SchedNone [lit "amy"] []) 500)
            [lit "bob"] _ eq_refl eq_refl _ _ _ _ _).
  - vm_compute. reflexivity.
  - vm_compute. reflexivity.
  - apply (bool_decide_unpack _). vm_compute. exact I.
  - apply (bool_decide_unpack _). vm_compute. exact I.
  - discriminate.
  - discriminate.
Defined.

Lemma Forall_forallb {A} (f : A → bool) (l : list A) :
  Forall (λ c, f c = true) l → forallb f l = true.
Proof. induction 1 as [|x l Hx _ IH]; [done|]. cbn. by rewrite Hx, IH. Qed.

Lemma filter_all {A} (P : A → Prop) `{!∀ x, Decision (P x)} (l : list A) :
  Forall P l → filter P l = l.
Proof.
  induction 1 as [|x l Hx _ IH]; [done|]. rewrite filter_cons_True by done. by f_equal.
Qed.

Lemma imap_fixed {A} (f : nat → A → A) (l : list A) :
  (∀ i x, l !! i = Some x → f i x = x) → imap f l = l.
Proof.
  intros H. rewrite (imap_ext f (const id) l) by (intros i x Hx; by apply H).
  rewrite imap_const. apply list_fmap_id.
Qed.

Section NameLists.

Lemma splitRuns_loop_plain (p s cur : jsstring) :
  forallb (λ c, negb (is_listSep c)) p = true →
  splitRuns_loop is_listSep (p ++ s) cur false = splitRuns_loop is_listSep s (cur ++ p) false.
Proof.
  revert cur. induction p as [|c p IH]; intros cur H.
  - by rewrite app_nil_r.
  - cbn in H. apply andb_true_iff in H as [Hc H].
    cbn [app splitRuns_loop]. apply negb_true_iff in Hc. rewrite Hc.
    rewrite IH by done. by rewrite <- app_assoc.
Qed.

Lemma splitRuns_loop_start (c : char) (s : jsstring) (b : bool) :
  is_listSep c = false →
  splitRuns_loop is_listSep (c :: s) [] b = splitRuns_loop is_listSep s [c] false.
Proof. intros Hc. cbn [splitRuns_loop]. by rewrite Hc. Qed.

(** The pieces of a text made of lines, each ended by a line feed. *)
Lemma splitRuns_lines (ls : list jsstring) (b : bool) :
  Forall (λ l, l ≠ [] ∧ forallb (λ c, negb (is_listSep c)) l = true) ls →
  splitRuns_loop is_listSep (concat (map (λ l, l ++ nl) ls)) [] b = ls ++ [[]].
Proof.
  intros H. revert b. induction H as [|l ls [Hne Hl] _ IH]; intros b.
  - by destruct b.
  - cbn [map concat]. destruct l as [|c l]; [done|].
    cbn in Hl. apply andb_true_iff in Hl as [Hc Hl].
    apply negb_true_iff in Hc.
    rewrite <- !app_assoc. cbn [app].
    rewrite splitRuns_loop_start by done.
    rewrite splitRuns_loop_plain by done.
    unfold nl. cbn [app splitRuns_loop].
    replace (is_listSep 10%N) with true by reflexivity.
    by rewrite IH.
Qed.

Lemma splitRuns_loop_pieces (s cur : jsstring) (b : bool) (p : jsstring) :
  Forall (λ c, is_listSep c = false) cur →
  p ∈ splitRuns_loop is_listSep s cur b → Forall (λ c, is_listSep c = false) p.
Proof.
  revert cur b. induction s as [|c s IH]; intros cur b Hcur Hp.
  - cbn in Hp. apply list_elem_of_singleton in Hp. by subst.
  - cbn [splitRuns_loop] in Hp. destruct (is_listSep c) eqn:Hc.
    + destruct b.
      * by apply (IH [] true).
      * apply elem_of_cons in Hp as [->|Hp]; [done|]. by apply (IH [] true).
    + apply (IH (cur ++ [c]) false); [|done].
      apply Forall_app. split; [done|]. by constructor.
Qed.

Lemma skipWhile_all (p : char → bool) (d s : jsstring) :
  forallb p d = true → skipWhile p (d ++ s) = skipWhile p s.
Proof.
  induction d as [|c d IH]; [done|]. cbn. intros H.
  apply andb_true_iff in H as [-> H]. by apply IH.
Qed.

Lemma skipWhile_suffix (p : char → bool) (s : jsstring) :
  ∃ d, s = d ++ skipWhile p s.
Proof.
  induction s as [|c s [d Hd]]; [by exists []|]. cbn [skipWhile].
  destruct (p c); [|by exists []]. exists (c :: d). cbn. by f_equal.
Qed.

Lemma skipWhile_head (p : char → bool) (s : jsstring) :
  match skipWhile p s with c :: _ => p c = false | [] => True end.
Proof.
  induction s as [|c s IH]; [done|]. cbn [skipWhile].
  destruct (p c) eqn:Hc; [done|]. exact Hc.
Qed.

Lemma stripNumber_suffix (l : jsstring) : ∃ d, l = d ++ stripNumber l.
Proof.
  unfold stripNumber. destruct l as [|c l]; [by exists []|].
  destruct (is_digit c); [|by exists []].
  destruct (skipWhile_suffix is_digit (c :: l)) as [d1 H1].
  destruct (skipWhile_suffix (λ c, (c =? 46)%N || is_ws c) (skipWhile is_digit (c :: l)))
    as [d2 H2].
  exists (d1 ++ d2). rewrite <- app_assoc, <- H2. exact H1.
Qed.

Lemma stripNumber_head (l : jsstring) : head_ok l → head_ok (stripNumber l).
Proof.
  intros Hl. unfold stripNumber. destruct l as [|c l]; [done|].
  destruct (is_digit c); [|done].
  pose proof (skipWhile_head (λ c, (c =? 46)%N || is_ws c) (skipWhile is_digit (c :: l))) as H.
  unfold head_ok. destruct (skipWhile _ (skipWhile _ _)) as [|x r]; [done|].
  by apply orb_false_iff in H as [_ H].
Qed.

Lemma stripNumber_numbered (k : N) (n : jsstring) :
  listable n → stripNumber (decimal k ++ lit ". " ++ n) = n.
Proof.
  intros (Hne & [Hhead _] & _ & _ & Hdot).
  pose proof (decimal_digits k) as Hd. pose proof (decimal_nonempty k) as Hk.
  unfold stripNumber. destruct (decimal k) as [|c d] eqn:E; [done|].
  cbn [app]. inversion Hd as [|? ? Hc Hd']; subst. rewrite Hc.
  change (c :: d ++ lit ". " ++ n) with ((c :: d) ++ lit ". " ++ n).
  rewrite skipWhile_all by (apply Forall_forallb; by constructor).
  change (lit ". " ++ n) with (46%N :: 32%N :: n). cbn [skipWhile].
  replace (is_digit 46%N) with false by reflexivity.
  cbn [skipWhile N.eqb Pos.eqb orb].
  replace (is_ws 32%N) with true by reflexivity. cbn [orb].
  destruct n as [|x n]; [done|]. cbn [skipWhile].
  cbn in Hhead. rewrite Hhead. rewrite orb_false_r.
  destruct (x =? 46)%N eqn:Hx; [|done].
  apply N.eqb_eq in Hx. subst. by destruct Hdot.
Qed.

Lemma numbered_line_plain (k : N) (n : jsstring) :
  listable n →
  let l := decimal k ++ lit ". " ++ n in
  l ≠ [] ∧ forallb (λ c, negb (is_listSep c)) l = true ∧ trim l = l.
Proof.
  intros (Hne & [Hhead Hlast] & Hcomma & Hlf & _) l.
  pose proof (decimal_digits k) as Hd. pose proof (decimal_nonempty k) as Hk.
  split; [|split].
  - subst l. destruct (decimal k); [done|]. done.
  - subst l. rewrite !forallb_app. rewrite !andb_true_iff. split; [|split].
    + apply Forall_forallb. eapply Forall_impl; [exact Hd|].
      intros c Hc. cbn beta. unfold is_listSep, ch_comma, ch_lf, is_digit in *.
      apply andb_true_iff in Hc as [H1 H2]. apply N.leb_le in H1, H2.
      apply negb_true_iff, orb_false_iff. split; apply N.eqb_neq; lia.
    + reflexivity.
    + apply Forall_forallb, Forall_forall. intros c Hc.
      unfold is_listSep. apply negb_true_iff, orb_false_iff.
      split; apply N.eqb_neq; intros ->; [by apply Hcomma|by apply Hlf].
  - apply trim_clean. split.
    + subst l. destruct (decimal k) as [|c d]; [done|]. cbn.
      inversion Hd; subst. by apply is_digit_not_ws.
    + subst l. rewrite !rev_app_distr.
      destruct (rev n) as [|x r] eqn:E; [|exact Hlast].
      apply (f_equal (@rev N)) in E. rewrite rev_involutive in E. by subst.
Qed.

End NameLists.

(** X24. Every name that a list field gives has no white space at either
    end and holds no comma and no line feed. *)
Theorem parsed_names_are_clean (s n : jsstring) :
  n ∈ parseNameList s → clean_edges n ∧ (ch_comma ∉ n) ∧ (ch_lf ∉ n).
Proof.
  unfold parseNameList. intros Hn.
  apply list_elem_of_fmap in Hn as (l & -> & Hl).
  apply list_elem_of_filter in Hl as [Hne Hl].
  apply list_elem_of_fmap in Hl as (p & -> & Hp).
  apply splitRuns_loop_pieces in Hp; [|constructor].
  destruct (stripNumber_suffix (trim p)) as [d Hd].
  destruct (trim_edges p) as [Hh Hr].
  assert (Hsub : ∀ c, c ∈ stripNumber (trim p) → c ∈ p).
  { intros c Hc. unfold trim in *.
    destruct (trimStart_split p) as (w1 & H1 & _).
    destruct (trimEnd_split (trimStart p)) as (w2 & H2 & _).
    rewrite H1, H2, Hd. set_solver. }
  split; [split|split].
  - by apply stripNumber_head.
  - rewrite Hd, rev_app_distr in Hr. by apply head_ok_prefix in Hr.
  - intros Hc. apply Hsub in Hc. eapply Forall_forall in Hc; [|exact Hp]. done.
  - intros Hc. apply Hsub in Hc. eapply Forall_forall in Hc; [|exact Hp]. done.
Qed.

Lemma parsed_names_are_clean_witness :
  clean_edges (lit "amy") ∧ (ch_comma ∉ lit "amy") ∧ (ch_lf ∉ lit "amy").
Proof.
  apply (parsed_names_are_clean (lit " 1. amy ,bob") (lit "amy")).
  apply (bool_decide_unpack _). vm_compute. exact I.
Defined.


Section FieldPatterns.

Lemma is_prefix_app (key s : jsstring) : is_prefix key (key ++ s) = true.
Proof. induction key as [|c key IH]; [done|]. cbn. by rewrite N.eqb_refl. Qed.

Lemma is_prefix_app_l (a b t : jsstring) :
  is_prefix (a ++ b) t = true → is_prefix a t = true.
Proof.
  revert t. induction a as [|c a IH]; intros t H; [done|].
  destruct t as [|x t]; [done|]. cbn in *.
  apply andb_true_iff in H as [-> H]. by apply IH.
Qed.

Lemma open_not_ws (o : char) : is_open o = true → is_ws o = false.
Proof.
  unfold is_open. intros H. apply orb_true_iff in H as [H|H];
    apply N.eqb_eq in H; by subst.
Qed.

Lemma open_not_colon (o : char) : is_open o = true → is_colon o = false.
Proof.
  unfold is_open. intros H. apply orb_true_iff in H as [H|H];
    apply N.eqb_eq in H; by subst.
Qed.

Lemma colon_not_ws (c : char) : is_colon c = true → is_ws c = false.
Proof.
  unfold is_colon. intros H. apply orb_true_iff in H as [H|H];
    apply N.eqb_eq in H; by subst.
Qed.

Lemma afterKey_sep (group : jsstring → option (jsstring * jsstring))
    (sep : jsstring) (o : char) (r : jsstring) :
  is_fieldSep sep = true → is_open o = true →
  afterKey group (sep ++ o :: r) = group r.
Proof.
  intros Hsep Ho. unfold is_fieldSep in Hsep.
  destruct (trimStart_split sep) as (w & Hw & Hws).
  pose proof (open_not_ws o Ho) as Hows. pose proof (open_not_colon o Ho) as Hoc.
  unfold afterKey. rewrite Hw, <- app_assoc, trimStart_ws_app by done.
  destruct (trimStart sep) as [|c r'].
  - cbn [app trimStart]. rewrite Hows, Hoc. cbn [trimStart]. by rewrite Hows, Ho.
  - apply andb_true_iff in Hsep as [Hc Hr'].
    cbn [app trimStart]. rewrite (colon_not_ws c Hc), Hc.
    rewrite trimStart_ws_app by done. cbn [trimStart]. by rewrite Hows, Ho.
Qed.

Lemma untilClose_app (g : jsstring) (c : char) (post : jsstring) :
  Forall (λ x, is_close x = false) g → is_close c = true →
  untilClose (g ++ c :: post) = Some (g, post).
Proof.
  intros Hg Hc. induction Hg as [|x g Hx _ IH]; cbn [app untilClose].
  - by rewrite Hc.
  - by rewrite Hx, IH.
Qed.

Lemma fieldMatch_eq (key : jsstring) (group : jsstring → option (jsstring * jsstring))
    (s : jsstring) :
  fieldMatch key group s
  = match (if is_prefix key s then afterKey group (drop (length key) s) else None) with
    | Some (g, rest) => Some (take (length s - length rest) s, g)
    | None => match s with [] => None | _ :: s' => fieldMatch key group s' end
    end.
Proof. by destruct s. Qed.

Lemma fieldMatch_skip (key : jsstring) (group : jsstring → option (jsstring * jsstring))
    (pre s : jsstring) :
  no_occurrence key (length pre) (pre ++ s) →
  fieldMatch key group (pre ++ s) = fieldMatch key group s.
Proof.
  induction pre as [|x pre IH]; intros H; [done|].
  assert (H0 : is_prefix key ((x :: pre) ++ s) = false)
    by (apply (H 0%nat); cbn; lia).
  rewrite fieldMatch_eq, H0. cbn [app].
  apply IH. intros i Hi. apply (H (S i)). cbn. lia.
Qed.

Lemma fieldMatch_here (key sep : jsstring) (o c : char) (g post : jsstring) :
  is_fieldSep sep = true → is_open o = true → is_close c = true →
  Forall (λ x, is_close x = false) g →
  fieldMatch key untilClose (key ++ sep ++ [o] ++ g ++ [c] ++ post)
  = Some (key ++ sep ++ [o] ++ g ++ [c], g).
Proof.
  intros Hsep Ho Hc Hg. rewrite fieldMatch_eq, is_prefix_app.
  rewrite drop_app_length. cbn [app].
  rewrite afterKey_sep, untilClose_app by done.
  do 2 f_equal.
  replace (key ++ sep ++ o :: g ++ c :: post)
    with ((key ++ sep ++ o :: g ++ [c]) ++ post)
    by (by rewrite <- !app_assoc; cbn; rewrite <- !app_assoc).
  rewrite length_app.
  replace (length (key ++ sep ++ o :: g ++ [c]) + length post - length post)%nat
    with (length (key ++ sep ++ o :: g ++ [c])) by lia.
  by rewrite take_app_length.
Qed.

Lemma fieldMatch_first (key pre sep : jsstring) (o c : char) (g post : jsstring) :
  no_occurrence key (length pre) (pre ++ key ++ sep ++ [o] ++ g ++ [c] ++ post) →
  is_fieldSep sep = true → is_open o = true → is_close c = true →
  Forall (λ x, is_close x = false) g →
  fieldMatch key untilClose (pre ++ key ++ sep ++ [o] ++ g ++ [c] ++ post)
  = Some (key ++ sep ++ [o] ++ g ++ [c], g).
Proof.
  intros Hocc Hsep Ho Hc Hg. rewrite fieldMatch_skip by done.
  by apply fieldMatch_here.
Qed.

Lemma removeFirst_skip (m pre s : jsstring) :
  no_occurrence m (length pre) (pre ++ s) →
  removeFirst m (pre ++ s) = pre ++ removeFirst m s.
Proof.
  induction pre as [|x pre IH]; intros H; [done|].
  assert (H0 : is_prefix m (x :: pre ++ s) = false)
    by (apply (H 0%nat); cbn; lia).
  cbn [app removeFirst]. rewrite H0. f_equal.
  apply IH. intros i Hi. apply (H (S i)). cbn. lia.
Qed.

Lemma removeFirst_here (m s : jsstring) : removeFirst m (m ++ s) = s.
Proof.
  destruct (m ++ s) eqn:E; cbn [removeFirst]; rewrite <- E;
    by rewrite is_prefix_app, drop_app_length.
Qed.

Lemma no_occurrence_longer (key more : jsstring) (k : nat) (s : jsstring) :
  no_occurrence key k s → no_occurrence (key ++ more) k s.
Proof.
  intros H i Hi. specialize (H i Hi).
  destruct (is_prefix (key ++ more) (drop i s)) eqn:E; [|done].
  apply is_prefix_app_l in E. congruence.
Qed.

End FieldPatterns.

(** X25. The patterns of the create and modify commands that read a text
    field (title, list, anonymous list, time). When the first place at
    which the key word stands in the text is followed by white space with
    at most one colon in it, an opening brace, a content that holds no
    closing brace, and a closing brace, the match is that field and its
    group is that content; braces and colon may be of either width. *)
Theorem text_field_at_first_key (key pre sep : jsstring) (o c : char)
    (g post : jsstring) :
  no_occurrence key (length pre) (pre ++ key ++ sep ++ [o] ++ g ++ [c] ++ post) →
  is_fieldSep sep = true → is_open o = true → is_close c = true →
  Forall (λ x, is_close x = false) g →
  fieldMatch key untilClose (pre ++ key ++ sep ++ [o] ++ g ++ [c] ++ post)
  = Some (key ++ sep ++ [o] ++ g ++ [c], g).
Proof. apply fieldMatch_first. Qed.

Lemma text_field_at_first_key_witness :
  fieldMatch (lit "標題") untilClose (lit "接龍開始 標題 ： {週五 羽球} 人數{12}")
  = Some (lit "標題 ： {週五 羽球}", lit "週五 羽球").
Proof.
  apply (text_field_at_first_key (lit "標題") (lit "接龍開始 ") (lit " ： ")
           123%N 125%N (lit "週五 羽球") (lit " 人數{12}")).
  - intros i Hi. vm_compute in Hi.
    do 5 (destruct i as [|i]; [reflexivity|]). lia.
  - reflexivity.
  - reflexivity.
  - reflexivity.
  - vm_compute. repeat constructor.
Defined.

(** X26. The create command on a text whose first anonymous field is
    well formed: the anonymous names or count are read from that field,
    and the list field is looked for in the text from which that field was
    cut out, so that the anonymous field is never read as the list. *)
Theorem create_cuts_the_anonymous_field (dateParse : jsstring → option Z)
    (pre sep : jsstring) (o c : char) (g post : jsstring) :
  no_occurrence (lit "匿名名單") (length pre)
    (pre ++ lit "匿名名單" ++ sep ++ [o] ++ g ++ [c] ++ post) →
  is_fieldSep sep = true → is_open o = true → is_close c = true →
  Forall (λ x, is_close x = false) g →
  let f := parseCreate dateParse
             (pre ++ lit "匿名名單" ++ sep ++ [o] ++ g ++ [c] ++ post) in
  c_anon f = Some (parseAnon g) ∧
  c_list f = (λ m, parseNameList m.2)
               <$> fieldMatch (lit "名單") untilClose (pre ++ post).
Proof.
  intros Hocc Hsep Ho Hc Hg f. subst f. unfold parseCreate. cbv zeta.
  cbn [c_anon c_list].
  rewrite (fieldMatch_first (lit "匿名名單") pre sep o c g post) by done.
  split; [done|]. cbn [fmap option_fmap option_map].
  replace (pre ++ lit "匿名名單" ++ sep ++ [o] ++ g ++ [c] ++ post)
    with (pre ++ (lit "匿名名單" ++ sep ++ [o] ++ g ++ [c]) ++ post)
    by (by rewrite <- !app_assoc).
  rewrite removeFirst_skip, removeFirst_here; [done|].
  replace (pre ++ (lit "匿名名單" ++ sep ++ [o] ++ g ++ [c]) ++ post)
    with (pre ++ lit "匿名名單" ++ sep ++ [o] ++ g ++ [c] ++ post)
    by (by rewrite <- !app_assoc).
  by apply no_occurrence_longer.
Qed.

Lemma create_cuts_the_anonymous_field_witness :
  let f := parseCreate (λ _, None) (lit "接龍開始 匿名名單{甲,乙} 名單{丙}") in
  c_anon f = Some (parseAnon (lit "甲,乙")) ∧
  c_list f = (λ m, parseNameList m.2)
               <$> fieldMatch (lit "名單") untilClose (lit "接龍開始 " ++ lit " 名單{丙}").
Proof.
  apply (create_cuts_the_anonymous_field (λ _, None) (lit "接龍開始 ") []
           123%N 125%N (lit "甲,乙") (lit " 名單{丙}")).
  - intros i Hi. vm_compute in Hi.
    do 5 (destruct i as [|i]; [reflexivity|]). lia.
  - reflexivity.
  - reflexivity.
  - reflexivity.
  - vm_compute. repeat constructor.
Defined.

(** X27. The modify command has no anonymous field and looks for the list
    field in the whole text: a well-formed anonymous field before which
    the key word of the list field does not stand is read as the list
    field, and its names become the new list. *)
Theorem modify_reads_the_anonymous_field (pre sep : jsstring) (o c : char)
    (g post : jsstring) :
  no_occurrence (lit "名單") (length pre + 2)
    (pre ++ lit "匿名名單" ++ sep ++ [o] ++ g ++ [c] ++ post) →
  is_fieldSep sep = true → is_open o = true → is_close c = true →
  Forall (λ x, is_close x = false) g →
  m_list (parseModify (pre ++ lit "匿名名單" ++ sep ++ [o] ++ g ++ [c] ++ post))
  = Some (parseNameList (trim g)).
Proof.
  intros Hocc Hsep Ho Hc Hg. unfold parseModify. cbv zeta. cbn [m_list].
  replace (pre ++ lit "匿名名單" ++ sep ++ [o] ++ g ++ [c] ++ post)
    with ((pre ++ lit "匿名") ++ lit "名單" ++ sep ++ [o] ++ g ++ [c] ++ post) in *
    by (by rewrite <- !app_assoc).
  rewrite (fieldMatch_first (lit "名單") (pre ++ lit "匿名") sep o c g post); try done.
  by rewrite length_app.
Qed.

Lemma modify_reads_the_anonymous_field_witness :
  m_list (parseModify (lit "接龍修改 匿名名單{甲,乙}"))
  = Some (parseNameList (trim (lit "甲,乙"))).
Proof.
  apply (modify_reads_the_anonymous_field (lit "接龍修改 ") [] 123%N 125%N
           (lit "甲,乙") []).
  - intros i Hi. vm_compute in Hi.
    do 7 (destruct i as [|i]; [reflexivity|]). lia.
  - reflexivity.
  - reflexivity.
  - reflexivity.
  - vm_compute. repeat constructor.
Defined.

Section Params.

Lemma untilBrace_app (p post : jsstring) :
  Forall (λ c, c ≠ 125%N ∧ is_line_terminator c = false) p →
  untilBrace (p ++ 125%N :: post) = Some (p, post).
Proof.
  induction 1 as [|c p [Hc Hlt] _ IH]; [done|].
  cbn [app untilBrace]. apply N.eqb_neq in Hc. by rewrite Hc, Hlt, IH.
Qed.

Lemma paramAt_app (p post : jsstring) :
  param_ok p → paramAt (p ++ 125%N :: post) = Some (p, post).
Proof.
  intros [Hne Hp]. destruct Hp as [|c p [_ Hlt] Hp]; [done|].
  cbn [app paramAt]. by rewrite Hlt, untilBrace_app.
Qed.

Lemma untilBrace_length (s g rest : jsstring) :
  untilBrace s = Some (g, rest) → (length rest < length s)%nat.
Proof.
  revert g. induction s as [|c s IH]; intros g H; [done|].
  cbn [untilBrace] in H. destruct (c =? 125)%N.
  - injection H as _ <-. cbn. lia.
  - destruct (is_line_terminator c); [done|].
    destruct (untilBrace s) as [[b r]|]; [|done].
    injection H as _ <-. specialize (IH b eq_refl). cbn. lia.
Qed.

Lemma paramAt_length (s g rest : jsstring) :
  paramAt s = Some (g, rest) → (length rest < length s)%nat.
Proof.
  destruct s as [|c s]; [done|]. cbn [paramAt].
  destruct (is_line_terminator c); [done|].
  destruct (untilBrace s) as [[b r]|] eqn:E; [|done].
  intros H. injection H as _ <-. apply untilBrace_length in E. cbn. lia.
Qed.

Lemma getParams_from_fuel (n : nat) (s : jsstring) (f1 f2 : nat) :
  (length s ≤ n)%nat → (n ≤ f1)%nat → (n ≤ f2)%nat →
  getParams_from f1 s = getParams_from f2 s.
Proof.
  revert s f1 f2. induction n as [|n IH]; intros s f1 f2 Hs H1 H2.
  - destruct s; [|cbn in Hs; lia]. by destruct f1, f2.
  - destruct s as [|c s]; [by destruct f1, f2|].
    destruct f1 as [|f1]; [lia|]. destruct f2 as [|f2]; [lia|].
    cbn in Hs. cbn [getParams_from].
    destruct (c =? 123)%N; [|apply IH; lia].
    destruct (paramAt s) as [[g rest]|] eqn:E; [|apply IH; lia].
    apply paramAt_length in E. f_equal. apply IH; lia.
Qed.

Lemma getParams_other (c : char) (s : jsstring) :
  c ≠ 123%N → getParams (c :: s) = getParams s.
Proof.
  intros Hc. unfold getParams. cbn [length getParams_from].
  apply N.eqb_neq in Hc. by rewrite Hc.
Qed.

Lemma getParams_braced (p rest : jsstring) :
  param_ok p → getParams (braced p ++ rest) = p :: getParams rest.
Proof.
  intros Hp. unfold getParams, braced. cbn [app length getParams_from].
  rewrite <- app_assoc. cbn [app]. rewrite paramAt_app by done.
  f_equal. apply (getParams_from_fuel (length rest)); [lia| |lia].
  rewrite !length_app. cbn. lia.
Qed.

Lemma getParams_plain (s : jsstring) :
  Forall (λ c, c ≠ 123%N) s → getParams s = [].
Proof.
  induction 1 as [|c s Hc _ IH]; [done|]. by rewrite getParams_other.
Qed.

End Params.

(** X28. [getParams] on a text that holds, after a part without opening
    brace, parameters in braces one after the other, each not empty and
    without closing brace and line terminator, and then a part without
    opening brace: the result is these parameters in their order. A
    parameter may hold opening braces. *)
Theorem getParams_round_trip (pre post : jsstring) (ps : list jsstring) :
  Forall (λ c, c ≠ 123%N) pre → Forall param_ok ps →
  Forall (λ c, c ≠ 123%N) post →
  getParams (pre ++ concat (map braced ps) ++ post) = ps.
Proof.
  intros Hpre Hps Hpost.
  induction Hpre as [|c pre Hc _ IH]; [|by cbn [app]; rewrite getParams_other].
  cbn [app]. induction Hps as [|p ps Hp _ IH]; [by apply getParams_plain|].
  cbn [map concat]. rewrite <- app_assoc, getParams_braced by done. by f_equal.
Qed.

Lemma getParams_round_trip_witness :
  getParams (lit "接龍2" ++ concat (map braced [lit "A組"; lit "10"; lit "{x"]) ++ lit " ok")
  = [lit "A組"; lit "10"; lit "{x"].
Proof.
  apply (getParams_round_trip (lit "接龍2") (lit " ok") [lit "A組"; lit "10"; lit "{x"]).
  - vm_compute. repeat constructor; discriminate.
  - vm_compute. repeat constructor; discriminate.
  - vm_compute. repeat constructor; discriminate.
Defined.

Section ScheduleText.

Lemma takeDigits_app (k : nat) (d rest : jsstring) :
  Forall (λ c, is_digit c = true) d → (length d ≤ k)%nat →
  (length d = k ∨ match rest with c :: _ => is_digit c = false | [] => True end) →
  takeDigits k (d ++ rest) = (d, rest).
Proof.
  intros Hd. revert k. induction Hd as [|c d Hc _ IH]; intros k Hk Hend.
  - cbn [app]. destruct k as [|k]; [done|]. destruct rest as [|x rest]; [done|].
    cbn [takeDigits]. destruct Hend as [Hend|Hend]; [done|]. by rewrite Hend.
  - destruct k as [|k]; [cbn in Hk; lia|]. cbn [app takeDigits]. rewrite Hc.
    rewrite IH; [done|cbn in Hk; lia|].
    destruct Hend as [Hend|Hend]; [left; cbn in Hend; lia|by right].
Qed.

Lemma dateSep_not_digit (c : char) : is_dateSep c = true → is_digit c = false.
Proof.
  unfold is_dateSep. intros H. apply orb_true_iff in H as [H|H];
    apply N.eqb_eq in H; by subst.
Qed.

Lemma ws_not_digit (c : char) : is_ws c = true → is_digit c = false.
Proof.
  intros H. destruct (is_digit c) eqn:E; [|done].
  apply is_digit_not_ws in E. congruence.
Qed.

Lemma dateTimeMatch_eq (s : jsstring) :
  dateTimeMatch s
  = match dateTimeAt s with
    | Some r => Some r
    | None => match s with [] => None | _ :: s' => dateTimeMatch s' end
    end.
Proof. by destruct s. Qed.

Lemma dateTimeAt_text (ys ms ds ws hs mis : jsstring) (s1 s2 : char) :
  digitText 4 4 ys → is_dateSep s1 = true → digitText 1 2 ms →
  is_dateSep s2 = true → digitText 1 2 ds →
  ws ≠ [] → forallb is_ws ws = true →
  digitText 1 2 hs → digitText 2 2 mis →
  dateTimeAt (ys ++ s1 :: ms ++ s2 :: ds ++ ws ++ hs ++ 58%N :: mis)
  = Some (digitsZ ys, digitsZ ms, digitsZ ds, digitsZ hs, digitsZ mis).
Proof.
  intros [Ly Hy] Hs1 [Lm Hm] Hs2 [Ld Hd] Hws Hws' [Lh Hh] [Lmi Hmi].
  unfold dateTimeAt.
  rewrite (takeDigits_app 4 ys) by first [done|lia|left; lia].
  replace (length ys =? 4)%nat with true by (symmetry; apply Nat.eqb_eq; lia).
  cbn [negb]. rewrite Hs1. cbn [negb].
  rewrite (takeDigits_app 2 ms)
    by first [done|lia|right; by apply dateSep_not_digit].
  destruct ms as [|m0 ms]; [cbn in Lm; lia|]. cbn [nonEmpty negb].
  rewrite Hs2. cbn [negb].
  assert (Hw0 : match ws ++ hs ++ 58%N :: mis with
                | c :: _ => is_digit c = false | [] => True end).
  { destruct ws as [|w ws]; [done|]. cbn in Hws'. apply andb_true_iff in Hws' as [Hw _].
    cbn. by apply ws_not_digit. }
  rewrite (takeDigits_app 2 ds) by first [done|lia|by right].
  destruct ds as [|d0 ds]; [cbn in Ld; lia|]. cbn [nonEmpty negb].
  assert (Hh0 : head_ok (hs ++ 58%N :: mis)).
  { destruct hs as [|h0 hs]; [cbn in Lh; lia|]. cbn.
    inversion Hh; subst. by apply is_digit_not_ws. }
  rewrite trimStart_ws_app by done. rewrite (trimStart_head_ok _ Hh0).
  replace (length (hs ++ 58%N :: mis) <? length (ws ++ hs ++ 58%N :: mis))%nat
    with true
    by (symmetry; apply Nat.ltb_lt; rewrite (length_app ws);
        destruct ws; [done|cbn; lia]).
  cbn [negb].
  rewrite (takeDigits_app 2 hs) by first [done|lia|by right].
  destruct hs as [|h0 hs]; [cbn in Lh; lia|]. cbn [nonEmpty negb].
  cbn [N.eqb Pos.eqb negb].
  rewrite <- (app_nil_r mis) at 1.
  rewrite (takeDigits_app 2 mis) by first [done|lia|by right].
  by replace (length mis =? 2)%nat with true by (symmetry; apply Nat.eqb_eq; lia).
Qed.

End ScheduleText.

(** X29. The time field of the create command that holds a date of four
    digits for the year, one or two for the month and for the day, each
    after a hyphen or a slash, then white space, one or two digits for
    the hour, a colon and two digits for the minute: the schedule is the
    time that [Date.UTC] gives for these numbers less eight hours, the
    input is kept as it was written, and [Date.parse] is not asked. No
    number is checked against a range. *)
Theorem schedule_is_taipei_time (dateParse : jsstring → option Z)
    (ys ms ds ws hs mis : jsstring) (s1 s2 : char) :
  digitText 4 4 ys → is_dateSep s1 = true → digitText 1 2 ms →
  is_dateSep s2 = true → digitText 1 2 ds →
  ws ≠ [] → forallb is_ws ws = true →
  digitText 1 2 hs → digitText 2 2 mis →
  parseSchedule dateParse (ys ++ s1 :: ms ++ s2 :: ds ++ ws ++ hs ++ 58%N :: mis)
  = Some ((dateUTC (digitsZ ys) (digitsZ ms - 1) (digitsZ ds) (digitsZ hs) (digitsZ mis)
           - 28800000)%Z,
          ys ++ s1 :: ms ++ s2 :: ds ++ ws ++ hs ++ 58%N :: mis).
Proof.
  intros Hy Hs1 Hm Hs2 Hd Hws Hws' Hh Hmi.
  unfold parseSchedule. cbv zeta.
  assert (Htrim : trim (ys ++ s1 :: ms ++ s2 :: ds ++ ws ++ hs ++ 58%N :: mis)
                  = ys ++ s1 :: ms ++ s2 :: ds ++ ws ++ hs ++ 58%N :: mis).
  { apply trim_clean. split.
    - destruct Hy as [Ly Hy]. destruct ys as [|y0 ys]; [cbn in Ly; lia|].
      cbn. inversion Hy; subst. by apply is_digit_not_ws.
    - destruct Hmi as [Lmi Hmi].
      destruct (rev mis) as [|x r] eqn:E.
      { apply (f_equal (@length N)) in E. rewrite length_rev in E. cbn in E. lia. }
      assert (Hx : is_digit x = true).
      { rewrite Forall_forall in Hmi. apply Hmi, list_elem_of_In, in_rev.
        unfold jsstring, char in *. rewrite E. by left. }
      replace (ys ++ s1 :: ms ++ s2 :: ds ++ ws ++ hs ++ 58%N :: mis)
        with ((ys ++ s1 :: ms ++ s2 :: ds ++ ws ++ hs ++ [58%N]) ++ mis)
        by (repeat (rewrite <- ?app_assoc; cbn [app]; try done)).
      rewrite rev_app_distr, E. cbn. by apply is_digit_not_ws. }
  rewrite Htrim, dateTimeMatch_eq, dateTimeAt_text by done.
  reflexivity.
Qed.

Lemma schedule_is_taipei_time_witness :
  parseSchedule (λ _, None) (lit "2026-1/05 " ++ lit "7:30")
  = Some ((dateUTC 2026 0 5 7 30 - 28800000)%Z, lit "2026-1/05 7:30").
Proof.
  refine (schedule_is_taipei_time (λ _, None) (lit "2026") (lit "1") (lit "05")
            (lit " ") (lit "7") (lit "30") 45%N 47%N _ _ _ _ _ _ _ _ _).
  - split; [vm_compute; lia|vm_compute; repeat constructor].
  - reflexivity.
  - split; [vm_compute; lia|vm_compute; repeat constructor].
  - reflexivity.
  - split; [vm_compute; lia|vm_compute; repeat constructor].
  - discriminate.
  - reflexivity.
  - split; [vm_compute; lia|vm_compute; repeat constructor].
  - split; [vm_compute; lia|vm_compute; repeat constructor].
Defined.

(** X30. [startMinuteCheck] at any time: the delay of the first check is
    more than zero and at most one minute, it ends on a whole minute, and it
    is always the computed time to the next minute, never the fallback of
    one minute. *)
Theorem first_check_on_the_minute (t : Z) :
  (0 < minuteCheckDelay t ≤ 60000)%Z
  ∧ ((t + minuteCheckDelay t) mod 60000 = 0)%Z
  ∧ minuteCheckDelay t = msUntilNextMinute t.
Proof.
  assert (H : (msUntilNextMinute t = 60000 - t mod 60000)%Z).
  { unfold msUntilNextMinute, getSeconds, getMilliseconds.
    Z.to_euclidean_division_equations. lia. }
  assert (Hr : (0 ≤ t mod 60000 < 60000)%Z) by (apply Z.mod_pos_bound; lia).
  unfold minuteCheckDelay. rewrite H.
  replace (0 <? 60000 - t mod 60000)%Z with true by (symmetry; apply Z.ltb_lt; lia).
  split; [lia|]. split; [|done].
  replace (t + (60000 - t mod 60000))%Z with ((t / 60000 + 1) * 60000)%Z
    by (pose proof (Z.div_mod t 60000); lia).
  apply Z.mod_mul. lia.
Qed.

(** ** A section of capacity 3 and waitlist 2 *)

Section CapacityAndWaitlist.

Context (T L n1 n2 n3 n4 n5 : jsstring).

Lemma confirmed_three (g : Game) (rest : list jsstring) :
  Forall (λ n, isAnon g n = false) [n1; n2; n3; n4; n5] →
  confirmedBlock g (mkSection T 3 2 L ([n1; n2; n3; n4; n5] ++ rest))
  = (L ++ lit "1. " ++ n1 ++ nl) ++ (L ++ lit "2. " ++ n2 ++ nl)
    ++ (L ++ lit "3. " ++ n3 ++ nl).
Proof.
  intros Hreal.
  repeat match goal with
         | H : Forall _ (_ :: _) |- _ => apply Forall_cons in H as [? H]
         end.
  unfold confirmedBlock, confirmedLine, isAnonAt. cbn [s_limit s_list s_label].
  change (Z.to_nat 3) with 3%nat.
  cbn [seq map concat lookup list_lookup Nat.add app].
  repeat match goal with H : isAnon g _ = false |- _ => rewrite H end.
  cbn [andb default]. unfold numberedLine. cbn.
  rewrite <- !app_assoc. cbn. reflexivity.
Qed.

Lemma waitlist_two (g : Game) (rest : list jsstring) :
  Forall (λ n, isAnon g n = false) [n1; n2; n3; n4; n5] →
  (length rest ≤ 1)%nat →
  waitlistBlock g (mkSection T 3 2 L ([n1; n2; n3; n4; n5] ++ rest))
  = lit "--- 候補 ---" ++ nl
    ++ (lit "候補1. " ++ n4 ++ nl) ++ (lit "候補2. " ++ n5 ++ nl).
Proof.
  intros Hreal Hlen.
  repeat match goal with
         | H : Forall _ (_ :: _) |- _ => apply Forall_cons in H as [? H]
         end.
  assert (H4 : includes (anonymous g) n4 = false) by (by apply isAnon_false_inv).
  assert (H5 : includes (anonymous g) n5 = false) by (by apply isAnon_false_inv).
  destruct rest as [|r [|? ?]]; [| |simpl in Hlen; lia];
    unfold waitlistBlock, waitlistLine; cbn [s_limit s_list s_backupLimit app length];
    cbv -[includes anonymous app lit nl]; rewrite H4, H5;
    rewrite ?app_nil_r, <- ?app_assoc; vm_compute; reflexivity.
Qed.

End CapacityAndWaitlist.

(** C6. A section of capacity 3 and waitlist 2 that holds five real names
    renders its title line, then three confirmed lines numbered 1 to 3,
    then the waitlist header and two lines numbered 1 to 2, and nothing
    else. A join that brings one more entry, a name that is not in the
    list or a placeholder, is accepted: the entry is appended to the
    list, which then has six entries, and the game is saved. The section
    renders exactly as before and the roster sent in reply is the message
    of before the join: the sixth entry is beyond capacity plus waitlist
    and is not shown. *)
Theorem render_capacity_and_waitlist
    (env : Env) (gid uid : jsstring) (count : Z) (content : jsstring)
    (w w1 : World) (g : Game) (T L n1 n2 n3 n4 n5 n6 : jsstring) :
  games w !! gid = Some g → active g = true → notYetOpen env g = None →
  section0 g = mkSection T 3 2 L [n1; n2; n3; n4; n5] →
  Forall (λ n, isAnon g n = false) [n1; n2; n3; n4; n5] →
  joinNames env gid uid count content [n1; n2; n3; n4; n5] w = ([n6], w1) →
  n6 = ANON ∨ n6 ∉ [n1; n2; n3; n4; n5] →
  let confirmed := (L ++ lit "1. " ++ n1 ++ nl) ++ (L ++ lit "2. " ++ n2 ++ nl)
                   ++ (L ++ lit "3. " ++ n3 ++ nl) in
  let waitlist := lit "--- 候補 ---" ++ nl
                  ++ (lit "候補1. " ++ n4 ++ nl) ++ (lit "候補2. " ++ n5 ++ nl) in
  let g' := with_lastActive
              (with_section0 g (mkSection T 3 2 L [n1; n2; n3; n4; n5; n6]))
              (now env) in
  let w' := handleJoin env gid uid count content w in
  confirmedBlock g (section0 g) = confirmed
  ∧ waitlistBlock g (section0 g) = waitlist
  ∧ renderSection g (section0 g)
    = nl ++ lit "【" ++ T ++ lit "】" ++ nl ++ confirmed ++ waitlist
  ∧ s_list (section0 (addToList 0 n6 g)) = [n1; n2; n3; n4; n5; n6]
  ∧ games w' = <[gid := g']> (games w)
  ∧ length (s_list (section0 g')) = 6%nat
  ∧ renderSection g' (section0 g') = renderSection g (section0 g)
  ∧ renderList g' [] = renderList g []
  ∧ trace w' = trace w ++ [EvSaveGame gid g';
                           EvSnapshot (snapshotContent (<[gid := g']> (games w)));
                           EvReply (renderList g' [])].
Proof.
  intros Hg Hact Hopen Hsec Hreal Hj Hn6. cbv zeta.
  assert (Hadd : addToList 0 n6 g
                 = with_section0 g (mkSection T 3 2 L [n1; n2; n3; n4; n5; n6])).
  { unfold addToList, sectionAt, sections. cbn [lookup list_lookup].
    destruct (decide (n6 = ANON)) as [Ha|Hne].
    - rewrite bool_decide_eq_true_2 by done. cbn [alterSection].
      rewrite Hsec. reflexivity.
    - rewrite bool_decide_eq_false_2 by done.
      destruct Hn6 as [Ha|Hnew]; [done|].
      unfold includes. rewrite Hsec. cbn [s_list].
      rewrite bool_decide_eq_false_2 by done. cbn [negb alterSection].
      rewrite Hsec. reflexivity. }
  set (g6 := with_section0 g (mkSection T 3 2 L [n1; n2; n3; n4; n5; n6])).
  assert (HC := confirmed_three T L n1 n2 n3 n4 n5 g [] Hreal).
  assert (HW := waitlist_two T L n1 n2 n3 n4 n5 g [] Hreal (Nat.le_0_l 1)).
  assert (HC6 := confirmed_three T L n1 n2 n3 n4 n5
                   (with_lastActive g6 (now env)) [n6] Hreal).
  assert (HW6 := waitlist_two T L n1 n2 n3 n4 n5
                   (with_lastActive g6 (now env)) [n6] Hreal (Nat.le_refl 1)).
  cbn [app] in HC, HW, HC6, HW6.
  assert (Hsame : renderSection (with_lastActive g6 (now env))
                    (section0 (with_lastActive g6 (now env)))
                  = renderSection g (section0 g)).
  { unfold renderSection. rewrite Hsec.
    cbn [section0 with_lastActive with_section0 g6 s_title].
    change (section0 g6) with (mkSection T 3 2 L [n1; n2; n3; n4; n5; n6]) in *.
    fold g6. by rewrite HC, HW, HC6, HW6. }
  assert (Hj' : joinNames env gid uid count content (s_list (section0 g)) w
                = ([n6], w1)) by (by rewrite Hsec).
  assert (Hnd : NoDup (realNames [n6])).
  { unfold realNames. destruct (decide (n6 = ANON)) as [->|Hne].
    - rewrite filter_cons_False by (intros H; by apply H). apply NoDup_nil_2.
    - rewrite filter_cons_True by done. apply NoDup_singleton. }
  assert (Hnew : Forall (λ n, n ∉ s_list (section0 g)) (realNames [n6])).
  { unfold realNames. rewrite Hsec. cbn [s_list].
    destruct Hn6 as [->|Hn].
    - rewrite filter_cons_False by (intros H; by apply H). constructor.
    - destruct (decide (n6 = ANON)) as [->|Hne].
      + rewrite filter_cons_False by (intros H; by apply H). constructor.
      + rewrite filter_cons_True by done. by repeat constructor. }
  destruct (handleJoin_accepted env gid uid count content w w1 g [n6]
              Hg Hact Hopen Hj' Hnd Hnew) as (H1 & H2 & _).
  cbv zeta in H1, H2. rewrite Hsec in H1, H2.
  cbn [s_list with_list app] in H1, H2. fold g6 in H1, H2.
  rewrite Hsec. split; [exact HC|]. split; [exact HW|].
  split; [unfold renderSection; cbn [s_title]; by rewrite HC, HW|].
  split; [by rewrite Hadd|].
  split; [exact H1|]. split; [reflexivity|].
  rewrite <- Hsec. split; [exact Hsame|]. split.
  - unfold renderList. do 2 f_equal.
    change (sections (with_lastActive g6 (now env)))
      with (section0 (with_lastActive g6 (now env)) :: moreSections g).
    change (sections g) with (section0 g :: moreSections g).
    cbn [map]. rewrite Hsame. reflexivity.
  - exact H2.
Qed.

(** C6, witness: five names, then a join of the name f. *)
Lemma render_capacity_and_waitlist_witness :
  let g := mkGame (lit "Sunday") [] true 0 0 SchedNone None [] 0
             (mkSection (lit "A") 3 2 []
                [lit "a"; lit "b"; lit "c"; lit "d"; lit "e"]) [] in
  renderSection g (section0 g)
  = nl ++ lit "【" ++ lit "A" ++ lit "】" ++ nl
    ++ (([] ++ lit "1. " ++ lit "a" ++ nl) ++ ([] ++ lit "2. " ++ lit "b" ++ nl)
        ++ ([] ++ lit "3. " ++ lit "c" ++ nl))
    ++ (lit "--- 候補 ---" ++ nl
        ++ (lit "候補1. " ++ lit "d" ++ nl) ++ (lit "候補2. " ++ lit "e" ++ nl)).
Proof.
  refine (proj1 (proj2 (proj2
    (render_capacity_and_waitlist sampleEnv sampleGid sampleUid 1 (lit "f")
       (sampleWorld
          (mkGame (lit "Sunday") [] true 0 0 SchedNone None [] 0
             (mkSection (lit "A") 3 2 []
                [lit "a"; lit "b"; lit "c"; lit "d"; lit "e"]) []))
       (sampleWorld
          (mkGame (lit "Sunday") [] true 0 0 SchedNone None [] 0
             (mkSection (lit "A") 3 2 []
                [lit "a"; lit "b"; lit "c"; lit "d"; lit "e"]) []))
       (mkGame (lit "Sunday") [] true 0 0 SchedNone None [] 0
          (mkSection (lit "A") 3 2 []
             [lit "a"; lit "b"; lit "c"; lit "d"; lit "e"]) [])
       (lit "A") [] (lit "a") (lit "b") (lit "c") (lit "d") (lit "e") (lit "f")
       _ eq_refl eq_refl eq_refl _ _ (or_intror _))))).
  - vm_compute. reflexivity.
  - repeat constructor.
  - vm_compute. reflexivity.
  - vm_compute. intros H. repeat (apply elem_of_cons in H as [H|H]; [discriminate H|]).
    by apply elem_of_nil in H.
Defined.

(** ** Leaves that change nothing, and leaves of a name with the word
    for anonymous *)

Lemma removeAnon_absent (g : Game) :
  ANON ∉ s_list (section0 g) → removeAnon g = g.
Proof.
  intros Hno. unfold removeAnon. rewrite remove_last_absent by done.
  by destruct g as [? ? ? ? ? ? ? ? ? [] ?].
Qed.

(** C10, as the code has it. On an active game with no schedule still
    ahead, a leave with a name changes nothing in the registry (lists,
    capacities, title, schedule and last-active time of every game are as
    before) and is answered with the roster in two cases: the name does
    not hold the word for anonymous and is in no list of the game; or the
    name holds that word and the list of section 0 has no placeholder. *)
Theorem leave_of_absent_name (env : Env) (gid uid removeName : jsstring)
    (w : World) (g : Game) :
  games w !! gid = Some g → active g = true → notYetOpen env g = None →
  removeName ≠ [] →
  (str_includes str_anonymous removeName = false
   ∧ Forall (λ s, removeName ∉ s_list s) (sections g))
  ∨ (str_includes str_anonymous removeName = true
     ∧ ANON ∉ s_list (section0 g)) →
  games (handleLeave env gid uid removeName w) = games w
  ∧ trace (handleLeave env gid uid removeName w)
    = trace w ++ [EvSaveGame gid g; EvSnapshot (snapshotContent (games w));
                  EvReply (renderList g [])].
Proof.
  intros Hg Hact Hopen Hname Hcase.
  pose proof (handleLeave_named env gid uid removeName w g Hg Hact Hopen Hname)
    as [Hgames Htrace].
  destruct Hcase as [[Ha Habs]|[Ha Hno]]; rewrite Ha in Hgames, Htrace.
  - rewrite (removeFromList_absent _ _ Habs) in Hgames, Htrace.
    rewrite (insert_id _ _ _ Hg) in Hgames, Htrace. done.
  - rewrite (removeAnon_absent _ Hno) in Hgames, Htrace.
    rewrite (insert_id _ _ _ Hg) in Hgames, Htrace. done.
Qed.

(** C10, witness: a leave of a name that nobody has. *)
Lemma leave_of_absent_name_witness :
  games (handleLeave sampleEnv sampleGid sampleUid (lit "zoe")
           (sampleWorld (sampleGame true SchedNone [lit "a"; ANON; lit "b"] [])))
  = games (sampleWorld (sampleGame true SchedNone [lit "a"; ANON; lit "b"] [])).
Proof.
  refine (proj1
    (leave_of_absent_name sampleEnv sampleGid sampleUid (lit "zoe")
       (sampleWorld (sampleGame true SchedNone [lit "a"; ANON; lit "b"] []))
       (sampleGame true SchedNone [lit "a"; ANON; lit "b"] [])
       _ eq_refl eq_refl _ (or_introl (conj eq_refl _)))).
  - vm_compute. reflexivity.
  - vm_compute. discriminate.
  - repeat constructor; apply (bool_decide_unpack _); vm_compute; exact I.
Defined.

(** C10, a further case. On an active game without schedule, a leave of
    a name that is in no list but holds the word for anonymous takes the
    last placeholder out of the list of section 0: the state does
    change. *)
Lemma leave_of_absent_anonymous_name :
  let g := sampleGame true SchedNone [lit "a"; ANON; lit "b"] [] in
  Forall (λ s, lit "匿名小明" ∉ s_list s) (sections g)
  ∧ (s_list ∘ section0
       <$> games (handleLeave sampleEnv sampleGid sampleUid (lit "匿名小明")
                    (sampleWorld g)) !! sampleGid)
    = Some [lit "a"; lit "b"].
Proof.
  split.
  - repeat constructor. apply (bool_decide_unpack _). vm_compute. exact I.
  - vm_compute. reflexivity.
Qed.

(** C9, counterexample. A create command lists the real name [匿名君] and
    one placeholder. A leave that names [匿名君] does not remove that name
    from the list: the name holds the word for anonymous, so the placeholder
    is removed and the name stays. *)
Lemma leave_of_listed_name_with_anonymous_word :
  let f := mkCreate None None None (Some [lit "匿名君"]) (Some (AnonCount 1)) None in
  let w1 := handleEvent sampleEnv sampleGid sampleUid (CreateGame f)
              (mkWorld ∅ ∅ ∅ ∅ []) in
  (s_list ∘ section0 <$> games w1 !! sampleGid) = Some [lit "匿名君"; ANON]
  ∧ (active <$> games w1 !! sampleGid) = Some true
  ∧ lit "匿名君" ≠ ANON
  ∧ (s_list ∘ section0
       <$> games (handleEvent sampleEnv sampleGid sampleUid
                    (Leave (lit "匿名君")) w1) !! sampleGid)
    = Some [lit "匿名君"].
Proof.
  repeat split; try (vm_compute; reflexivity). vm_compute. discriminate.
Qed.

(** X19. The delete command removes the game of the conversation from
    the registry, whether or not there was one, records the deletion,
    writes a snapshot without the game and sends its confirmation. The end
    command does the same after it has written a snapshot with the game
    still in it, when there was one; it waits for that write, and when
    the write fails it stops there: the game stays in the registry, nothing
    is deleted and no reply is sent. The other conversations are left as
    they are. After a delete, or an end that went through, a join or a
    leave in that conversation is answered with the no-game text and
    changes nothing. *)
Theorem end_and_delete_remove_the_game (env : Env) (gid uid : jsstring) (w : World) :
  let we := handleEvent env gid uid EndGame w in
  let wd := handleEvent env gid uid DeleteGame w in
  let written := match games w !! gid with
                 | Some _ => snapshotWritten env (snapshotContent (games w))
                 | None => true
                 end in
  (written = true →
     games we = delete gid (games w)
     ∧ trace we
       = trace w
         ++ (match games w !! gid with
             | Some _ => [EvSnapshot (snapshotContent (games w))]
             | None => []
             end)
         ++ [EvDeleteGame gid; EvSnapshot (snapshotContent (delete gid (games w)));
             EvReply (lit "✅ 已結束")])
  ∧ (written = false →
     games we = games w
     ∧ trace we = trace w ++ [EvSnapshot (snapshotContent (games w))])
  ∧ games wd = delete gid (games w)
  ∧ trace wd
    = trace w
      ++ [EvDeleteGame gid; EvSnapshot (snapshotContent (delete gid (games w)));
          EvReply (lit "🗑️ 設置已移除")]
  ∧ (∀ (env' : Env) (uid' : jsstring) (i : intent) (w1 : World),
       (written = true ∧ w1 = we) ∨ w1 = wd →
       (∃ count content, i = Join count content) ∨ (∃ name, i = Leave name) →
       games (handleEvent env' gid uid' i w1) = games w1
       ∧ trace (handleEvent env' gid uid' i w1) = trace w1 ++ [EvReply msg_no_game]).
Proof.
  cbv zeta.
  assert (He : match games w !! gid with
               | Some _ => snapshotWritten env (snapshotContent (games w))
               | None => true
               end = true →
               games (handleEvent env gid uid EndGame w) = delete gid (games w)
               ∧ trace (handleEvent env gid uid EndGame w)
                 = trace w
                   ++ (match games w !! gid with
                       | Some _ => [EvSnapshot (snapshotContent (games w))]
                       | None => []
                       end)
                   ++ [EvDeleteGame gid;
                       EvSnapshot (snapshotContent (delete gid (games w)));
                       EvReply (lit "✅ 已結束")]).
  { intros Hok. unfold handleEvent.
    set (b := isGroupOrRoom gid && bool_decide (gid ∉ firstUseGroups w)).
    destruct (first_use_frame gid w b) as (Hg0 & _ & _ & Ht0).
    cbv zeta in Hg0, Ht0. set (w0 := if b then _ else w) in *.
    unfold handleEnd. rewrite Hg0.
    destruct (games w !! gid).
    - cbv zeta. rewrite Hok.
      cbn [trace emit saveCurrentListSnapshot deleteGame games with_games app].
      rewrite Hg0, Ht0, <- ?app_assoc. done.
    - cbn [trace emit saveCurrentListSnapshot deleteGame games with_games app].
      rewrite Hg0, Ht0, <- ?app_assoc. done. }
  assert (Hd : games (handleEvent env gid uid DeleteGame w) = delete gid (games w)).
  { unfold handleEvent.
    set (b := isGroupOrRoom gid && bool_decide (gid ∉ firstUseGroups w)).
    destruct (first_use_frame gid w b) as (Hg0 & _ & _ & Ht0).
    cbv zeta in Hg0. set (w0 := if b then _ else w) in *.
    unfold handleDelete. rewrite games_emit, games_snapshot.
    cbn [deleteGame games emit with_games]. by rewrite Hg0. }
  split; [exact He|]. split; [|split; [done|split]].
  - intros Hfail. unfold handleEvent.
    set (b := isGroupOrRoom gid && bool_decide (gid ∉ firstUseGroups w)).
    destruct (first_use_frame gid w b) as (Hg0 & _ & _ & Ht0).
    cbv zeta in Hg0, Ht0. set (w0 := if b then _ else w) in *.
    unfold handleEnd. rewrite Hg0.
    destruct (games w !! gid); [|done].
    cbv zeta. rewrite Hfail.
    cbn [trace emit saveCurrentListSnapshot games].
    by rewrite Hg0, Ht0.
  - unfold handleEvent.
    set (b := isGroupOrRoom gid && bool_decide (gid ∉ firstUseGroups w)).
    destruct (first_use_frame gid w b) as (Hg0 & _ & _ & Ht0).
    cbv zeta in Hg0, Ht0. set (w0 := if b then _ else w) in *.
    unfold handleDelete.
    cbn [trace emit saveCurrentListSnapshot deleteGame games with_games app].
    rewrite Hg0, Ht0, <- ?app_assoc. reflexivity.
  - intros env' uid' i w1 Hw1 Hi.
    assert (Hgone : games w1 !! gid = None).
    { destruct Hw1 as [[Hok ->]| ->].
      - rewrite (proj1 (He Hok)). apply lookup_delete_eq.
      - rewrite Hd. apply lookup_delete_eq. }
    clear He Hd Hw1. unfold handleEvent.
    set (b := isGroupOrRoom gid && bool_decide (gid ∉ firstUseGroups w1)).
    destruct (first_use_frame gid w1 b) as (Hg0 & _ & _ & Ht0).
    cbv zeta in Hg0, Ht0. set (w0 := if b then _ else w1) in *.
    destruct Hi as [(count & content & ->)|(name & ->)].
    + unfold handleJoin. rewrite Hg0, Hgone. cbn [games trace emit].
      by rewrite Hg0, Ht0.
    + unfold handleLeave. rewrite Hg0, Hgone. cbn [games trace emit].
      by rewrite Hg0, Ht0.
Qed.

Section PrintedRoster.

Lemma printed_lines (ns : list jsstring) :
  imap (numberedLine []) ns = map (λ l, l ++ nl) (imap rosterLine ns).
Proof.
  change (map (λ l, l ++ nl) (imap rosterLine ns)) with ((λ l, l ++ nl) <$> imap rosterLine ns).
  rewrite fmap_imap. apply imap_ext. intros i n _.
  unfold numberedLine, rosterLine, compose. cbn [app]. by rewrite <- !app_assoc.
Qed.

Lemma printed_lines_plain (ns : list jsstring) :
  Forall listable ns →
  Forall (λ l, l ≠ [] ∧ forallb (λ c, negb (is_listSep c)) l = true ∧ trim l = l)
         (imap rosterLine ns).
Proof.
  intros Hns. apply Forall_forall. intros l Hl.
  apply elem_of_lookup_imap in Hl as (i & n & -> & Hn).
  apply numbered_line_plain. eapply Forall_forall; [exact Hns|].
  by eapply list_elem_of_lookup_2.
Qed.

(** The names of lines that are already split. *)
Lemma names_of_printed_lines (ns : list jsstring) :
  Forall listable ns →
  map stripNumber (filter (λ l : jsstring, l ≠ []) (map trim (imap rosterLine ns))) = ns.
Proof.
  intros Hns. pose proof (printed_lines_plain ns Hns) as Hall.
  assert (Hkeep : filter (λ l : jsstring, l ≠ []) (map trim (imap rosterLine ns)) = imap rosterLine ns).
  { rewrite (map_ext_Forall trim id).
    - rewrite map_id. apply filter_all.
      eapply Forall_impl; [exact Hall|]. by intros l (? & _).
    - eapply Forall_impl; [exact Hall|]. by intros l (_ & _ & ?). }
  unfold jsstring in *. rewrite Hkeep.
  change (map stripNumber (imap rosterLine ns)) with (stripNumber <$> imap rosterLine ns).
  rewrite fmap_imap. apply imap_fixed. intros i n Hn. unfold compose, rosterLine.
  apply stripNumber_numbered. eapply Forall_forall; [exact Hns|].
  by eapply list_elem_of_lookup_2.
Qed.

Lemma parseNameList_printed (ns : list jsstring) :
  Forall listable ns →
  parseNameList (concat (imap (numberedLine []) ns)) = ns.
Proof.
  intros Hns. unfold parseNameList, splitRuns. rewrite printed_lines.
  rewrite splitRuns_lines
    by (eapply Forall_impl; [exact (printed_lines_plain ns Hns)|];
        by intros l (? & ? & _)).
  rewrite map_app, filter_app. cbn [map].
  replace (trim []) with (@nil N) by reflexivity.
  replace (filter (λ l : jsstring, l ≠ []) [ [] ]) with (@nil jsstring) by reflexivity.
  rewrite app_nil_r. by apply names_of_printed_lines.
Qed.

(** The pieces of lines joined by line feeds. *)
Lemma splitRuns_joined (l : jsstring) (ls : list jsstring) (b : bool) :
  Forall (λ l, l ≠ [] ∧ forallb (λ c, negb (is_listSep c)) l = true) (l :: ls) →
  splitRuns_loop is_listSep (join nl (l :: ls)) [] b = l :: ls.
Proof.
  revert l b. induction ls as [|l2 ls IH]; intros l b H.
  - apply Forall_cons in H as [[Hne Hl] _]. cbn [join].
    destruct l as [|c l]; [done|].
    cbn in Hl. apply andb_true_iff in Hl as [Hc Hl]. apply negb_true_iff in Hc.
    rewrite splitRuns_loop_start by done.
    rewrite <- (app_nil_r l) at 1. rewrite splitRuns_loop_plain by done.
    reflexivity.
  - apply Forall_cons in H as [[Hne Hl] H].
    change (join nl (l :: l2 :: ls)) with (l ++ nl ++ join nl (l2 :: ls)).
    destruct l as [|c l]; [done|].
    cbn in Hl. apply andb_true_iff in Hl as [Hc Hl]. apply negb_true_iff in Hc.
    cbn [app]. rewrite splitRuns_loop_start by done.
    rewrite splitRuns_loop_plain by done.
    unfold nl at 1. cbn [app splitRuns_loop].
    replace (is_listSep 10%N) with true by reflexivity.
    by rewrite IH.
Qed.

Lemma concat_lines_join (l : jsstring) (ls : list jsstring) :
  concat (map (λ l, l ++ nl) (l :: ls)) = join nl (l :: ls) ++ nl.
Proof.
  revert l. induction ls as [|l2 ls IH]; intros l.
  - cbn. by rewrite app_nil_r.
  - change (join nl (l :: l2 :: ls)) with (l ++ nl ++ join nl (l2 :: ls)).
    cbn [map concat]. cbn [map concat] in IH. rewrite IH.
    by rewrite <- !app_assoc.
Qed.

Lemma joined_clean (l : jsstring) (ls : list jsstring) :
  Forall (λ l, l ≠ [] ∧ trim l = l) (l :: ls) →
  clean_edges (join nl (l :: ls)) ∧ join nl (l :: ls) ≠ [].
Proof.
  revert l. induction ls as [|l2 ls IH]; intros l H.
  - apply Forall_cons in H as [[Hne Ht] _]. cbn [join].
    split; [by apply trim_fixed|done].
  - apply Forall_cons in H as [[Hne Ht] H].
    destruct (IH l2 H) as [[_ Hr] Hne2].
    apply trim_fixed in Ht as [Hh _].
    change (join nl (l :: l2 :: ls)) with (l ++ nl ++ join nl (l2 :: ls)).
    split; [split|].
    + by apply head_ok_app.
    + rewrite !rev_app_distr, <- app_assoc.
      apply head_ok_app; [by apply rev_nonempty|done].
    + by destruct l.
Qed.

Lemma parseNameList_printed_trim (ns : list jsstring) :
  Forall listable ns →
  parseNameList (trim (concat (imap (numberedLine []) ns))) = ns.
Proof.
  intros Hns. pose proof (printed_lines_plain ns Hns) as Hall.
  pose proof (names_of_printed_lines ns Hns) as Hnames.
  rewrite printed_lines.
  destruct (imap rosterLine ns) as [|l ls] eqn:E.
  { destruct ns; [done|discriminate E]. }
  rewrite concat_lines_join.
  destruct (joined_clean l ls) as [Hc Hne].
  { eapply Forall_impl; [exact Hall|]. by intros x (? & _ & ?). }
  rewrite trim_line_end by done.
  unfold parseNameList, splitRuns.
  rewrite splitRuns_joined
    by (eapply Forall_impl; [exact Hall|]; by intros x (? & ? & _)).
  exact Hnames.
Qed.

Lemma digit_not_close (c : char) : is_digit c = true → is_close c = false.
Proof.
  unfold is_digit, is_close. intros H. apply andb_true_iff in H as [H1 H2].
  apply N.leb_le in H1, H2. apply orb_false_iff. split; apply N.eqb_neq; lia.
Qed.

Lemma printed_brace_free (ns : list jsstring) :
  Forall brace_free ns → brace_free (concat (imap (numberedLine []) ns)).
Proof.
  intros Hns. unfold brace_free. apply Forall_concat, Forall_forall.
  intros l Hl. apply elem_of_lookup_imap in Hl as (i & n & -> & Hn).
  unfold numberedLine. cbn [app]. rewrite !Forall_app. split; [|split; [|split]].
  - pose proof (decimal_digits (N.of_nat (i + 1))) as Hd.
    rewrite Forall_forall in Hd. apply Forall_forall. intros x Hx.
    by apply digit_not_close, Hd.
  - repeat constructor.
  - rewrite Forall_forall in Hns. apply Hns. by eapply list_elem_of_lookup_2.
  - repeat constructor.
Qed.

End PrintedRoster.

(** X23. The numbered lines that [sendList] prints for the names of a
    section without a label, pasted as the content of the list field of a
    create or of a modify command, are read back as these names in their
    order. Each name must be non-empty, have no white space at its ends,
    hold no comma, no line feed and no closing brace, and not start with a
    dot; it may start with a digit. The list field must be the first place
    of the text where its key word stands, and for the create command the
    text must have no anonymous field. *)
Theorem printed_roster_is_read_back (dateParse : jsstring → option Z)
    (pre sep : jsstring) (o c : char) (post text : jsstring)
    (ns : list jsstring) :
  Forall listable ns → Forall brace_free ns →
  text = pre ++ lit "名單" ++ sep ++ [o]
         ++ concat (imap (numberedLine []) ns) ++ [c] ++ post →
  no_occurrence (lit "名單") (length pre) text →
  is_fieldSep sep = true → is_open o = true → is_close c = true →
  fieldMatch (lit "匿名名單") untilClose text = None →
  c_list (parseCreate dateParse text) = Some ns
  ∧ m_list (parseModify text) = Some ns.
Proof.
  intros Hns Hfree -> Hocc Hsep Ho Hc Hanon.
  pose proof (printed_brace_free ns Hfree) as Hb.
  pose proof (fieldMatch_first (lit "名單") pre sep o c _ post Hocc Hsep Ho Hc Hb)
    as Hlist.
  split.
  - unfold parseCreate. cbv zeta. cbn [c_list]. rewrite Hanon, Hlist.
    cbn [fmap option_fmap option_map snd]. f_equal.
    by apply parseNameList_printed.
  - unfold parseModify. cbv zeta. cbn [m_list]. rewrite Hlist.
    cbn [fmap option_fmap option_map snd]. f_equal.
    by apply parseNameList_printed_trim.
Qed.

Lemma printed_roster_is_read_back_witness :
  c_list (parseCreate (λ _, None)
            (lit "接龍開始 名單{" ++ concat (imap (numberedLine []) [lit "amy"; lit "3M"])
             ++ lit "} 人數{4}"))
  = Some [lit "amy"; lit "3M"]
  ∧ m_list (parseModify
              (lit "接龍開始 名單{" ++ concat (imap (numberedLine []) [lit "amy"; lit "3M"])
               ++ lit "} 人數{4}"))
    = Some [lit "amy"; lit "3M"].
Proof.
  refine (printed_roster_is_read_back (λ _, None) (lit "接龍開始 ") []
            123%N 125%N (lit " 人數{4}") _ [lit "amy"; lit "3M"]
            _ _ _ _ eq_refl eq_refl eq_refl _).
  - repeat constructor; try discriminate; vm_compute; try done;
      intros H; repeat (apply elem_of_cons in H as [H|H]; [discriminate|]);
      by apply elem_of_nil in H.
  - repeat constructor.
  - vm_compute. reflexivity.
  - intros i Hi. vm_compute in Hi.
    do 5 (destruct i as [|i]; [reflexivity|]). lia.
  - vm_compute. reflexivity.
Defined.

(** X20, witness: a snapshot of one conversation with two names. *)
Lemma restore_builds_sound_games_witness :
  games (restoreGamesFromCsv sampleEnv
           (lit "gid,sectionIdx,name,limit,backupLimit" ++ nl
            ++ lit "C1,0,amy,10,2" ++ nl ++ lit "C1,0,bob,10,2" ++ nl)
           (mkWorld ∅ ∅ ∅ ∅ [])).2 ≠ ∅.
Proof.
  refine (proj1 (proj2 (proj2
    (restore_builds_sound_games sampleEnv
       (lit "gid,sectionIdx,name,limit,backupLimit" ++ nl
        ++ lit "C1,0,amy,10,2" ++ nl ++ lit "C1,0,bob,10,2" ++ nl)
       (mkWorld ∅ ∅ ∅ ∅ [])) _ _))).
  - vm_compute. reflexivity.
  - intros headerLine rows cs Hs Hh.
    vm_compute in Hs. injection Hs as <- <-.
    vm_compute in Hh. injection Hh as <-.
    assert (Hrow : ∀ line r0,
              readRow (mkColumns 0 1 2 (Some 3%nat) (Some 4%nat)) line = Some r0 →
              r_gid r0 = lit "C1" → r_section r0 = 0%Z →
              r_limit r0 = Some 10%Z → r_backup r0 = Some 2%Z → row_plain r0).
    { intros line r0 _ Hg Hsec Hl Hb. unfold row_plain.
      rewrite Hg, Hsec, Hl, Hb. split; [vm_compute; discriminate|].
      split; [vm_compute; discriminate|].
      split; intros n Hn; injection Hn as <-; vm_compute; discriminate. }
    constructor; [|constructor; [|constructor]];
      intros r Hr; apply (Hrow _ r Hr);
      vm_compute in Hr; injection Hr as <-; reflexivity.
Defined.
